(** * Snapshot storage engine of Code-Snapshot-Suite

    A shallow embedding of [SnapshotStorage] (packages/core/src/utils.ts)
    and the properties of its pattern filter, directory scan, metadata
    index, capture and restore.  The helpers of [Utils], the licence key
    checks and what the command layer hands to the storage follow, with
    their properties.

    Conventions of the embedding:
    - JavaScript strings are [string]; a character is one code unit below
      256, so the line terminators a regular expression's [.] refuses are
      LF and CR.
    - An absolute path is the list of its segments ([path]); a relative
      path, which is what patterns are matched against and what archive
      entries are named by, stays a [string] with [/] separators (POSIX
      [path.join]).
    - A call that may throw returns [result A = exn + A]; calls that also
      change the disk are functions [fs -> result A * fs], so that the disk
      a failed call leaves behind is part of the model.
    - [Date.now()] is the argument [now] of the operation that reads it.
    - The two serialisers are symbolic: what [saveMetadata] writes is read
      back as the same records and any other text as one that does not
      parse, and an archive entry is stored under the name it is given.
      [indexGivesArray] and [wfDisk] name the disks on which this is what
      [JSON.parse] and the archive library do. *)

From Stdlib Require Import List String Ascii ZArith Lia Bool.
From Stdlib Require Import Sorted Permutation DecimalString Decimal DecimalZ.
Import ListNotations.
Open Scope string_scope.
Open Scope list_scope.

Set Warnings "-register-all".

(* ===================================================================== *)
(** ** Exceptions *)
(* ===================================================================== *)

Inductive exn : Type :=
| SyntaxError          (* new RegExp(src): src is not a regular expression *)
| OutsideFragment      (* regular-expression syntax the engine below does not cover *)
| ENOENT               (* no such file or directory *)
| ENOTDIR              (* a path component is not a directory *)
| EISDIR               (* the path names a directory *)
| EEXIST               (* mkdir over an existing file *)
| EACCES               (* the entry cannot be read or written *)
| ZipInvalidFilename   (* adm-zip: new AdmZip(path) on a missing file *)
| ZipInvalidFormat.    (* adm-zip: the file is not a zip container *)

Definition result (A : Type) : Type := (exn + A)%type.

Definition bindR {A B} (r : result A) (k : A -> result B) : result B :=
  match r with
  | inl e => inl e
  | inr a => k a
  end.

Declare Scope result_scope.
Delimit Scope result_scope with res.
Notation "'letR' x ':=' r 'in' k" := (bindR r (fun x => k))
  (at level 10, x name, r at level 100, k at level 200) : result_scope.
Open Scope result_scope.

(* ===================================================================== *)
(** ** Strings *)
(* ===================================================================== *)

(** [s.replace(/c/g, by)] for a one-character pattern. *)
Fixpoint replaceAll (c : ascii) (by_ : string) (s : string) : string :=
  match s with
  | EmptyString => EmptyString
  | String x s' =>
      if Ascii.eqb x c then by_ ++ replaceAll c by_ s'
      else String x (replaceAll c by_ s')
  end.

(** The number a template literal prints: plain decimal digits, with a
    leading [-] below zero (timestamps are integers far below 10^21). *)
Definition decimal (z : Z) : string := NilEmpty.string_of_int (Z.to_int z).

Fixpoint contains (c : ascii) (s : string) : bool :=
  match s with
  | EmptyString => false
  | String x s' => Ascii.eqb x c || contains c s'
  end.

(* ===================================================================== *)
(** ** A regular-expression engine for the fragment the patterns use

    [new RegExp(src).test(s)] is the runtime's.  The storage code is
    embedded over any such engine (section [Storage]); [RegExp_test] below
    is the engine restricted to sources made of ordinary characters, [.]
    and a [*] after one of these, which is where every default pattern and
    every pattern free of other metacharacters lands. *)
(* ===================================================================== *)

Inductive atom : Type :=
| Chr (c : ascii)
| AnyChar.

Inductive piece : Type :=
| One (a : atom)
| Star (a : atom).

Definition LF : ascii := Ascii.ascii_of_nat 10.
Definition CR : ascii := Ascii.ascii_of_nat 13.

Definition isLineTerminator (c : ascii) : bool :=
  Ascii.eqb c LF || Ascii.eqb c CR.

Definition atomMatches (a : atom) (c : ascii) : bool :=
  match a with
  | Chr x => Ascii.eqb x c
  | AnyChar => negb (isLineTerminator c)
  end.

(** Metacharacters other than [.] and [*]. *)
Definition isSpecial (c : ascii) : bool := contains c "\^$+?()[]{}|".

Definition atomOf (c : ascii) : atom :=
  if Ascii.eqb c "." then AnyChar else Chr c.

Fixpoint parseRegExp (src : string) : result (list piece) :=
  match src with
  | EmptyString => inr []
  | String c rest =>
      if Ascii.eqb c "*" then inl SyntaxError        (* nothing to repeat *)
      else if isSpecial c then inl OutsideFragment
      else
        match rest with
        | String x rest' =>
            if Ascii.eqb x "*" then
              letR ps := parseRegExp rest' in inr (Star (atomOf c) :: ps)
            else
              letR ps := parseRegExp rest in inr (One (atomOf c) :: ps)
        | EmptyString => inr [One (atomOf c)]
        end
  end.

(** Does a prefix of [s] match the pieces? *)
Fixpoint matchHere (ps : list piece) : string -> bool :=
  match ps with
  | [] => fun _ => true
  | One a :: ps' =>
      fun s =>
        match s with
        | String c s' => atomMatches a c && matchHere ps' s'
        | EmptyString => false
        end
  | Star a :: ps' =>
      fix star (s : string) : bool :=
        matchHere ps' s
        || match s with
           | String c s' => atomMatches a c && star s'
           | EmptyString => false
           end
  end.

(** [test] is unanchored: the match may start at any position. *)
Fixpoint searchFrom (ps : list piece) (s : string) : bool :=
  matchHere ps s
  || match s with
     | String _ s' => searchFrom ps s'
     | EmptyString => false
     end.

Definition RegExp_test (src s : string) : result bool :=
  letR ps := parseRegExp src in inr (searchFrom ps s).

(* ===================================================================== *)
(** ** Pattern filter *)
(* ===================================================================== *)

Record SnapshotOptions : Type := mkOptions {
  optMessage : option string;
  includePatterns : option (list string);
  excludePatterns : option (list string)
}.

(** [options = {}] *)
Definition noOptions : SnapshotOptions := mkOptions None None None.

Definition defaultExcludes : list string :=
  ["node_modules"; ".git"; ".vscode"; "out"; "dist"; "*.log"].

(** The source handed to [new RegExp]: [*] becomes [.*], then [?] becomes [.]. *)
Definition regexSource (pattern : string) : string :=
  replaceAll "?" "." (replaceAll "*" ".*" pattern).

Section Filter.

(** [test src s] is [new RegExp(src).test(s)]. *)
Variable test : string -> string -> result bool.

Definition matchesPattern (filePath pattern : string) : result bool :=
  test (regexSource pattern) filePath.

(** The [for ... of] loop over the exclude patterns and [Array.some] over
    the include patterns: both stop at the first match, and a pattern
    that throws ends them. *)
Fixpoint anyMatches (filePath : string) (patterns : list string) : result bool :=
  match patterns with
  | [] => inr false
  | pattern :: rest =>
      letR m := matchesPattern filePath pattern in
      if m then inr true else anyMatches filePath rest
  end.

Definition shouldIncludeFile (filePath : string) (options : SnapshotOptions)
  : result bool :=
  let excludes :=
    defaultExcludes ++
    match excludePatterns options with Some l => l | None => [] end in
  letR excluded := anyMatches filePath excludes in
  if excluded then inr false
  else
    match includePatterns options with
    | Some (p :: ps) => anyMatches filePath (p :: ps)
    | _ => inr true
    end.

End Filter.

(* ===================================================================== *)
(** ** Paths *)
(* ===================================================================== *)

(** An absolute, normalised path: its segments from the root. *)
Definition path : Type := list string.

(** [s.split("/")] *)
Fixpoint splitSlash (s : string) : list string :=
  match s with
  | EmptyString => [""]
  | String c s' =>
      if Ascii.eqb c "/" then "" :: splitSlash s'
      else
        match splitSlash s' with
        | [] => [String c ""]
        | seg :: segs => String c seg :: segs
        end
  end.

(** One step of POSIX path normalisation below an absolute base: empty
    and [.] segments vanish, [..] climbs (and stays at the root). *)
Definition pushSegment (stack : path) (seg : string) : path :=
  if String.eqb seg "" then stack
  else if String.eqb seg "." then stack
  else if String.eqb seg ".." then removelast stack
  else stack ++ [seg].

(** A segment that is pushed as it is. *)
Definition ordinarySegment (seg : string) : bool :=
  negb (String.eqb seg "") && negb (String.eqb seg ".") && negb (String.eqb seg "..").

(** [path.join(base, rel)] for an absolute [base]. *)
Definition pathJoin (base : path) (rel : string) : path :=
  fold_left pushSegment (splitSlash rel) base.

(** [path.join(relativePath, entry.name)] for the relative paths of the
    scan: [relativePath] is [''] at the root and a name read from a
    directory has no separator and is neither [.] nor [..], so that the
    join is the concatenation with one [/]. *)
Definition joinRel (relativePath name : string) : string :=
  match relativePath with
  | EmptyString => name
  | _ => relativePath ++ "/" ++ name
  end.

Definition joinSegs (segs : list string) : string := fold_left joinRel segs "".

(** What a directory can hold as a name. The backslash is left out as
    well: the archive library reads it as a separator. *)
Definition validName (name : string) : bool :=
  negb (String.eqb name "") && negb (String.eqb name ".")
  && negb (String.eqb name "..")
  && negb (contains "/" name) && negb (contains "\" name).

(* ===================================================================== *)
(** ** Files, directories and what a file holds *)
(* ===================================================================== *)

Record SnapshotMetadata : Type := mkMetadata {
  id : string;
  timestamp : Z;
  message : option string;
  fileCount : nat;
  size : Z;
  workspacePath : path
}.

(** File content. The two serialisers of the code are kept symbolic:
    [ZipBuffer es] is the buffer [AdmZip.toBuffer()] returns for the
    entries [es], [JsonDoc l] the text [JSON.stringify(l, null, 2)]; both
    are read back as what was written.  [Bytes s] is any other content. *)
Inductive data : Type :=
| Bytes (s : string)
| ZipBuffer (entries : list (string * data))
| JsonDoc (records : list SnapshotMetadata).

(** An [AdmZip] object in memory: its entries, in insertion order. *)
Definition AdmZip : Type := list (string * data).

(** A directory entry: a file that can be read, an entry that is not a
    directory and cannot be read ([readFile] throws), or a directory with
    its entries in [readdir] order. Directories themselves can always be
    listed. *)
Inductive node : Type :=
| File (content : data)
| Unreadable
| Dir (entries : list (string * node)).

(** The disk: the entries of the root directory. *)
Definition fs : Type := list (string * node).

(* ===================================================================== *)
(** ** Directory scan *)
(* ===================================================================== *)

(** The two things [addFilesToZip] updates while it walks. *)
Record scan : Type := mkScan {
  zip : AdmZip;
  count : nat
}.

(** [zip.addFile(name, content); fileCount++]. The archive library
    writes [/] for every [\] of the name and replaces an entry of the
    same name, while [fileCount] counts every call; here the entry is
    appended under the name given. The two agree where no name of the
    tree holds a separator and no directory lists a name twice
    ([wfDisk]). *)
Definition addFile (name : string) (content : data) (st : scan) : scan :=
  mkScan (zip st ++ [(name, content)]) (S (count st)).

(** [for (const x of l) { ... }] with a body that may throw. *)
Fixpoint forEach {A S : Type} (body : A -> S -> result S) (l : list A) (s : S)
  : result S :=
  match l with
  | [] => inr s
  | a :: l' => letR s' := body a s in forEach body l' s'
  end.

Section Scan.

Variable test : string -> string -> result bool.
Variable options : SnapshotOptions.

(** One iteration of the loop of [addDirectory], for the entry [name]
    of the directory whose relative path is [relativePath]. *)
Fixpoint addEntry (relativePath : string) (name : string) (n : node) (st : scan)
  {struct n} : result scan :=
  let relativeFilePath := joinRel relativePath name in
  if String.eqb name ".snapshots" then inr st
  else
    letR ok := shouldIncludeFile test relativeFilePath options in
    if ok then
      match n with
      | Dir entries =>
          forEach (fun e => addEntry relativeFilePath (fst e) (snd e)) entries st
      | File content => inr (addFile relativeFilePath content st)
      | Unreadable => inr st   (* readFile throws: the file is skipped *)
      end
    else inr st.

Definition addDirectory (entries : list (string * node)) (relativePath : string)
  (st : scan) : result scan :=
  forEach (fun e => addEntry relativePath (fst e) (snd e)) entries st.

End Scan.

(* ===================================================================== *)
(** ** The disk *)
(* ===================================================================== *)

Fixpoint findEntry (name : string) (es : list (string * node)) : option node :=
  match es with
  | [] => None
  | (n, x) :: es' => if String.eqb n name then Some x else findEntry name es'
  end.

(** Replace the entry called [name], or add it at the end. *)
Fixpoint setEntry (name : string) (x : node) (es : list (string * node))
  : list (string * node) :=
  match es with
  | [] => [(name, x)]
  | (n, y) :: es' =>
      if String.eqb n name then (name, x) :: es' else (n, y) :: setEntry name x es'
  end.

Fixpoint removeEntry (name : string) (es : list (string * node))
  : list (string * node) :=
  match es with
  | [] => []
  | (n, y) :: es' =>
      if String.eqb n name then es' else (n, y) :: removeEntry name es'
  end.

Fixpoint lookupNode (p : path) (n : node) : option node :=
  match p with
  | [] => Some n
  | name :: p' =>
      match n with
      | Dir es =>
          match findEntry name es with
          | Some x => lookupNode p' x
          | None => None
          end
      | _ => None
      end
  end.

Definition lookup (p : path) (disk : fs) : option node := lookupNode p (Dir disk).

(** The content of the readable file at [p], if there is one. *)
Definition fileAt (p : path) (disk : fs) : option data :=
  match lookup p disk with
  | Some (File d) => Some d
  | _ => None
  end.

(** Write a file at [p]. With [parents] the missing directories above it
    are made first (the archive library's [writeFileTo]); without, they
    must exist ([fs.writeFile]). *)
Fixpoint putFile (parents : bool) (p : path) (d : data) (es : fs) : result fs :=
  match p with
  | [] => inl EISDIR
  | name :: p' =>
      match p' with
      | [] =>
          match findEntry name es with
          | Some (Dir _) => inl EISDIR
          | Some Unreadable => inl EACCES
          | _ => inr (setEntry name (File d) es)
          end
      | _ =>
          match findEntry name es with
          | Some (Dir sub) =>
              letR sub' := putFile parents p' d sub in
              inr (setEntry name (Dir sub') es)
          | Some _ => inl ENOTDIR
          | None =>
              if parents then
                letR sub' := putFile parents p' d [] in
                inr (setEntry name (Dir sub') es)
              else inl ENOENT
          end
      end
  end.

(** [fs.mkdir(p, { recursive: true })] *)
Fixpoint mkdirp (p : path) (es : fs) : result fs :=
  match p with
  | [] => inr es
  | name :: p' =>
      match findEntry name es with
      | Some (Dir sub) =>
          letR sub' := mkdirp p' sub in inr (setEntry name (Dir sub') es)
      | Some _ => inl (match p' with [] => EEXIST | _ => ENOTDIR end)
      | None =>
          letR sub' := mkdirp p' [] in inr (setEntry name (Dir sub') es)
      end
  end.

(** [fs.unlink(p)] *)
Fixpoint unlinkFile (p : path) (es : fs) : result fs :=
  match p with
  | [] => inl EISDIR
  | name :: p' =>
      match p' with
      | [] =>
          match findEntry name es with
          | Some (Dir _) => inl EISDIR
          | Some _ => inr (removeEntry name es)
          | None => inl ENOENT
          end
      | _ =>
          match findEntry name es with
          | Some (Dir sub) =>
              letR sub' := unlinkFile p' sub in
              inr (setEntry name (Dir sub') es)
          | Some _ => inl ENOTDIR
          | None => inl ENOENT
          end
      end
  end.

(* ===================================================================== *)
(** ** Calls that read or change the disk *)
(* ===================================================================== *)

Definition IO (A : Type) : Type := fs -> result A * fs.

Definition ret {A} (a : A) : IO A := fun disk => (inr a, disk).

Definition throw {A} (e : exn) : IO A := fun disk => (inl e, disk).

Definition bind {A B} (m : IO A) (k : A -> IO B) : IO B :=
  fun disk =>
    match m disk with
    | (inr a, disk') => k a disk'
    | (inl e, disk') => (inl e, disk')
    end.

(** [try { m } catch (e) { handler }] *)
Definition tryCatch {A} (m : IO A) (handler : exn -> IO A) : IO A :=
  fun disk =>
    match m disk with
    | (inl e, disk') => handler e disk'
    | r => r
    end.

(** A call that changes the whole disk or throws and leaves it alone. *)
Definition change (f : fs -> result fs) : IO unit :=
  fun disk =>
    match f disk with
    | inr disk' => (inr tt, disk')
    | inl e => (inl e, disk)
    end.

(** A call that only reads. *)
Definition inspect {A} (f : fs -> result A) : IO A :=
  fun disk => (f disk, disk).

Declare Scope io_scope.
Delimit Scope io_scope with io.
Notation "x <- m ;; k" := (bind m (fun x => k))
  (at level 61, m at next level, right associativity) : io_scope.
Notation "m ;; k" := (bind m (fun _ => k))
  (at level 61, right associativity) : io_scope.
Open Scope io_scope.

Definition fs_access (p : path) : IO unit :=
  inspect (fun disk =>
    match lookup p disk with Some _ => inr tt | None => inl ENOENT end).

Definition fs_mkdir_recursive (p : path) : IO unit := change (mkdirp p).

Definition fs_writeFile (p : path) (d : data) : IO unit := change (putFile false p d).

Definition fs_unlink (p : path) : IO unit := change (unlinkFile p).

Definition fs_readFile (p : path) : IO data :=
  inspect (fun disk =>
    match lookup p disk with
    | Some (File d) => inr d
    | Some Unreadable => inl EACCES
    | Some (Dir _) => inl EISDIR
    | None => inl ENOENT
    end).

Definition fs_readdir (p : path) : IO (list (string * node)) :=
  inspect (fun disk =>
    match lookup p disk with
    | Some (Dir es) => inr es
    | Some _ => inl ENOTDIR
    | None => inl ENOENT
    end).

Fixpoint forEachIO {A : Type} (body : A -> IO unit) (l : list A) : IO unit :=
  match l with
  | [] => ret tt
  | a :: l' => body a ;; forEachIO body l'
  end.

(* ===================================================================== *)
(** ** The archive library

    adm-zip is a dependency, not code of the repository; what the storage
    code uses of it is modelled here: an archive object is its list of
    entries, [toBuffer] and the constructor on a file are inverse to each
    other, and [extractAllTo] writes every entry below the target after
    making the entry name canonical (backslashes are separators, the name
    is normalised as if rooted, so that [..] cannot climb out). *)
(* ===================================================================== *)

Fixpoint lastAscii (s : string) : option ascii :=
  match s with
  | EmptyString => None
  | String c s' =>
      match s' with
      | EmptyString => Some c
      | _ => lastAscii s'
      end
  end.

Definition canonical (entryName : string) : path :=
  fold_left pushSegment (splitSlash (replaceAll "\" "/" entryName)) [].

Definition isDirectoryEntry (entryName : string) : bool :=
  match lastAscii entryName with
  | Some c => Ascii.eqb c "/" || Ascii.eqb c "\"
  | None => false
  end.

(** [new AdmZip(zipPath)] *)
Definition openZip (zipPath : path) : IO AdmZip :=
  inspect (fun disk =>
    match lookup zipPath disk with
    | Some (File (ZipBuffer es)) => inr es
    | Some (File _) => inl ZipInvalidFormat
    | Some Unreadable => inl EACCES
    | Some (Dir _) => inl EISDIR
    | None => inl ZipInvalidFilename
    end).

(** One entry of [extractAllTo(targetPath, true)]: a directory entry is
    made, a file entry is written over whatever file is there; a
    directory in its place is left alone. *)
Definition extractEntry (targetPath : path) (e : string * data) : IO unit :=
  let dest := targetPath ++ canonical (fst e) in
  if isDirectoryEntry (fst e) then fs_mkdir_recursive dest
  else
    change (fun disk =>
      match lookup dest disk with
      | Some (Dir _) => inr disk
      | _ => putFile true dest (snd e) disk
      end).

(** [zip.extractAllTo(targetPath, true)] *)
Definition extractAllTo (zip : AdmZip) (targetPath : path) : IO unit :=
  forEachIO (extractEntry targetPath) zip.

(* ===================================================================== *)
(** ** SnapshotStorage *)
(* ===================================================================== *)

(** [snapshots.sort((a, b) => b.timestamp - a.timestamp)]: the stable
    sort, newest first. *)
Fixpoint insertNewestFirst (x : SnapshotMetadata) (l : list SnapshotMetadata)
  : list SnapshotMetadata :=
  match l with
  | [] => [x]
  | y :: l' =>
      if (timestamp y <=? timestamp x)%Z then x :: y :: l'
      else y :: insertNewestFirst x l'
  end.

Definition sortNewestFirst (l : list SnapshotMetadata) : list SnapshotMetadata :=
  fold_right insertNewestFirst [] l.

(** The constructor: [this.snapshotsDir = path.join(workspaceRoot, snapshotsPath)]. *)
Definition newSnapshotStorage (workspaceRoot : path) (snapshotsPath : string) : path :=
  pathJoin workspaceRoot snapshotsPath.

Definition defaultSnapshotsPath : string := ".snapshots".

Section Storage.

(** [test src s] is [new RegExp(src).test(s)]; [byteLength d] is the size
    [fs.stat] reports for a file holding [d]. *)
Variable test : string -> string -> result bool.
Variable byteLength : data -> Z.

(** [this.snapshotsDir] *)
Variable snapshotsDir : path.

Definition zipPathOf (snapshotId : string) : path :=
  pathJoin snapshotsDir (snapshotId ++ ".zip").

Definition metadataPath : path := pathJoin snapshotsDir "metadata.json".

Definition ensureSnapshotsDir : IO unit :=
  tryCatch (fs_access snapshotsDir) (fun _ => fs_mkdir_recursive snapshotsDir).

Definition addFilesToZip (zip0 : AdmZip) (rootPath : path) (options : SnapshotOptions)
  : IO scan :=
  entries <- fs_readdir rootPath ;;
  inspect (fun _ => addDirectory test options entries "" (mkScan zip0 0)).

(** [JSON.parse] gives back the records of a document [saveMetadata]
    wrote and throws on what is not a JSON text; the catch turns every
    failure into the empty list. A text of another origin is read here as
    one that does not parse. That is so of a text [JSON.parse] rejects;
    a text that parses to something else ([null], an object) is returned
    by the code as it is. [indexGivesArray] below names the index
    documents on which the code and this definition agree. *)
Definition listSnapshots : IO (list SnapshotMetadata) :=
  tryCatch
    (d <- fs_readFile metadataPath ;;
     match d with
     | JsonDoc l => ret l
     | _ => throw SyntaxError        (* JSON.parse *)
     end)
    (fun _ => ret []).

Definition saveMetadata (snapshots : list SnapshotMetadata) : IO unit :=
  fs_writeFile metadataPath (JsonDoc snapshots).

Definition updateMetadata (newMetadata : SnapshotMetadata) : IO unit :=
  snapshots <- listSnapshots ;;
  saveMetadata (sortNewestFirst (snapshots ++ [newMetadata])).

Definition snapshotIdAt (timestamp : Z) : string := "snapshot_" ++ decimal timestamp.

(** [(await fs.stat(p)).size]; the size of what is not a readable file is
    not modelled. *)
Definition fs_stat_size (p : path) : IO Z :=
  inspect (fun disk =>
    match lookup p disk with
    | Some (File d) => inr (byteLength d)
    | Some _ => inr 0%Z
    | None => inl ENOENT
    end).

Definition saveSnapshot (now : Z) (workspaceRoot : path) (options : SnapshotOptions)
  : IO SnapshotMetadata :=
  ensureSnapshotsDir ;;
  let timestamp := now in
  let snapshotId := snapshotIdAt timestamp in
  let zipPath := zipPathOf snapshotId in
  st <- addFilesToZip [] workspaceRoot options ;;
  fs_writeFile zipPath (ZipBuffer (zip st)) ;;
  size <- fs_stat_size zipPath ;;
  let metadata :=
    mkMetadata snapshotId timestamp (optMessage options) (count st)
               size workspaceRoot in
  updateMetadata metadata ;;
  ret metadata.

Definition loadSnapshot (snapshotId : string) : IO data :=
  fs_readFile (zipPathOf snapshotId).

Definition backupIdAt (now : Z) : string := "backup_" ++ decimal now.

Definition restoreSnapshot (now : Z) (snapshotId : string) (targetPath : path)
  (createBackup : bool) : IO unit :=
  let zipPath := zipPathOf snapshotId in
  (if createBackup then
     let backupZipPath := zipPathOf (backupIdAt now) in
     st <- addFilesToZip [] targetPath noOptions ;;
     fs_writeFile backupZipPath (ZipBuffer (zip st))
   else ret tt) ;;
  zip <- openZip zipPath ;;
  extractAllTo zip targetPath.

Definition deleteSnapshot (snapshotId : string) : IO unit :=
  tryCatch (fs_unlink (zipPathOf snapshotId)) (fun _ => ret tt) ;;
  snapshots <- listSnapshots ;;
  saveMetadata (filter (fun s => negb (String.eqb (id s) snapshotId)) snapshots).

Definition getSnapshotMetadata (snapshotId : string) : IO (option SnapshotMetadata) :=
  snapshots <- listSnapshots ;;
  ret (find (fun s => String.eqb (id s) snapshotId) snapshots).

End Storage.

(* ===================================================================== *)
(** ** Vocabulary of the properties *)
(* ===================================================================== *)

(** The glob of the specification, read as a match of the whole path:
    [*] is any run of characters, [?] is exactly one character, any other
    character is itself. *)
Fixpoint globWhole (q : string) : string -> bool :=
  match q with
  | EmptyString => fun p => match p with EmptyString => true | _ => false end
  | String c q' =>
      if Ascii.eqb c "*" then
        fix run (p : string) : bool :=
          globWhole q' p
          || match p with
             | String _ p' => run p'
             | EmptyString => false
             end
      else if Ascii.eqb c "?" then
        fun p => match p with String _ p' => globWhole q' p' | EmptyString => false end
      else
        fun p =>
          match p with
          | String x p' => Ascii.eqb x c && globWhole q' p'
          | EmptyString => false
          end
  end.

Fixpoint noLineTerminator (s : string) : bool :=
  match s with
  | EmptyString => true
  | String c s' => negb (isLineTerminator c) && noLineTerminator s'
  end.

(** What a pattern means to [matchesPattern] once it is a regular
    expression: [*] is a run of characters free of line terminators, [?]
    and [.] are one such character, an ordinary character is itself. *)
Inductive globMatches : string -> string -> Prop :=
| gm_end : globMatches "" ""
| gm_star q run s :
    noLineTerminator run = true ->
    globMatches q s ->
    globMatches (String "*" q) (run ++ s)
| gm_one c q x s :
    c = "?"%char \/ c = "."%char ->
    isLineTerminator x = false ->
    globMatches q s ->
    globMatches (String c q) (String x s)
| gm_chr c q s :
    c <> "*"%char -> c <> "?"%char -> c <> "."%char ->
    globMatches q s ->
    globMatches (String c q) (String c s).

(** A pattern without regular-expression metacharacters of its own. *)
Fixpoint plainPattern (q : string) : bool :=
  match q with
  | EmptyString => true
  | String c q' => (Ascii.eqb c "?" || negb (isSpecial c)) && plainPattern q'
  end.

(** The pieces [new RegExp(regexSource q)] stands for. *)
Fixpoint compileGlob (q : string) : list piece :=
  match q with
  | EmptyString => []
  | String c q' =>
      (if Ascii.eqb c "*" then Star AnyChar
       else if Ascii.eqb c "?" then One AnyChar
       else One (atomOf c)) :: compileGlob q'
  end.

Section ScanVocabulary.

Variable test : string -> string -> result bool.
Variable options : SnapshotOptions.

(** The scan goes into (or takes) the entry [name] of the directory at
    [relativePath]: it is not called [.snapshots] and passes the filter. *)
Definition entryAccepted (relativePath name : string) : Prop :=
  name <> ".snapshots"
  /\ shouldIncludeFile test (joinRel relativePath name) options = inr true.

(** [capturedIn rel es p d]: scanning the entries [es] of the directory at
    relative path [rel] adds the archive entry [p] with content [d]. *)
Inductive capturedIn : string -> list (string * node) -> string -> data -> Prop :=
| captured_file rel es name d :
    In (name, File d) es ->
    entryAccepted rel name ->
    capturedIn rel es (joinRel rel name) d
| captured_below rel es name sub p d :
    In (name, Dir sub) es ->
    entryAccepted rel name ->
    capturedIn (joinRel rel name) sub p d ->
    capturedIn rel es p d.

(** Every step of the walk from [relativePath] down the segments is one
    the scan takes. *)
Fixpoint walkAccepted (relativePath : string) (segs : list string) : bool :=
  match segs with
  | [] => true
  | name :: segs' =>
      negb (String.eqb name ".snapshots")
      && match shouldIncludeFile test (joinRel relativePath name) options with
         | inr true => true
         | _ => false
         end
      && walkAccepted (joinRel relativePath name) segs'
  end.

(** What one entry contributes. *)
Definition capturedEntry (rel name : string) (n : node) (p : string) (d : data)
  : Prop :=
  entryAccepted rel name
  /\ match n with
     | File c => p = joinRel rel name /\ d = c
     | Unreadable => False
     | Dir sub => capturedIn (joinRel rel name) sub p d
     end.

End ScanVocabulary.

(** The scan went from [st] to [st']: it added the entries [captured]
    describes and counted them. *)
Definition scanAdds (st st' : scan) (captured : string -> data -> Prop) : Prop :=
  exists added,
    zip st' = zip st ++ added
    /\ count st' = count st + List.length added
    /\ forall p d, In (p, d) added <-> captured p d.

Fixpoint distinctNames (l : list string) : bool :=
  match l with
  | [] => true
  | x :: l' => negb (existsb (String.eqb x) l') && distinctNames l'
  end.

(** A directory as a file system has it: no two entries of one directory
    share a name ([uniqueNode]) and every name is valid ([namedNode]). *)
Fixpoint uniqueNode (n : node) : bool :=
  match n with
  | Dir es =>
      distinctNames (map fst es) && forallb (fun e => uniqueNode (snd e)) es
  | _ => true
  end.

Fixpoint namedNode (n : node) : bool :=
  match n with
  | Dir es => forallb (fun e => validName (fst e) && namedNode (snd e)) es
  | _ => true
  end.

Definition uniqueDisk (disk : fs) : bool := uniqueNode (Dir disk).

Definition wfDisk (disk : fs) : bool := uniqueNode (Dir disk) && namedNode (Dir disk).

Definition isPrefix (a b : path) : Prop := exists c, b = a ++ c.

(** What is at a path, without the content of directories. *)
Inductive kind : Type :=
| KFile (d : data)
| KUnreadable
| KDir
| KAbsent.

Definition kindOf (o : option node) : kind :=
  match o with
  | Some (File d) => KFile d
  | Some Unreadable => KUnreadable
  | Some (Dir _) => KDir
  | None => KAbsent
  end.

Definition kindAt (p : path) (disk : fs) : kind := kindOf (lookup p disk).

(** What [listSnapshots] returns on a disk. *)
Definition listed (snapshotsDir : path) (disk : fs) : list SnapshotMetadata :=
  match fst (listSnapshots snapshotsDir disk) with
  | inr l => l
  | inl _ => []
  end.

Definition newerOrSame (a b : SnapshotMetadata) : Prop :=
  (timestamp b <= timestamp a)%Z.

(** Sorted by timestamp, descending. *)
Definition newestFirst (l : list SnapshotMetadata) : Prop := Sorted newerOrSame l.

(** [m] keeps the invariant, whether it returns or throws, and what it
    returns satisfies [Q]. *)
Definition keeps (Inv : fs -> Prop) {A} (m : IO A) (Q : A -> Prop) : Prop :=
  forall disk, Inv disk ->
    Inv (snd (m disk)) /\ forall a, fst (m disk) = inr a -> Q a.

(** The disk has no duplicate names and the index document is sorted. *)
Definition indexSorted (snapshotsDir : path) (disk : fs) : Prop :=
  uniqueDisk disk = true /\ newestFirst (listed snapshotsDir disk).

Inductive operation : Type :=
| Save (now : Z) (workspaceRoot : path) (options : SnapshotOptions)
| Delete (snapshotId : string).

Section Runs.

Variable test : string -> string -> result bool.
Variable byteLength : data -> Z.
Variable snapshotsDir : path.

(** One call by the command layer, which catches what the call throws:
    whatever the call did to the disk before failing stays done. *)
Definition perform (o : operation) (disk : fs) : fs :=
  match o with
  | Save now workspaceRoot options =>
      snd (saveSnapshot test byteLength snapshotsDir now workspaceRoot options disk)
  | Delete snapshotId => snd (deleteSnapshot snapshotsDir snapshotId disk)
  end.

Definition performAll (ops : list operation) (disk : fs) : fs :=
  fold_left (fun d o => perform o d) ops disk.

End Runs.

(** The storage directory exists and the index document can be written:
    what [deleteSnapshot] needs for its [saveMetadata] to go through. *)
Definition storageReady (snapshotsDir : path) (disk : fs) : bool :=
  uniqueDisk disk
  && match kindAt snapshotsDir disk with KDir => true | _ => false end
  && match kindAt (metadataPath snapshotsDir) disk with
     | KAbsent | KFile _ => true
     | _ => false
     end.

(** An archive entry that stands for a readable file of the tree [T]. *)
Definition entryOf (T : list (string * node)) (e : string * data) : Prop :=
  isDirectoryEntry (fst e) = false
  /\ canonical (fst e) <> []
  /\ lookupNode (canonical (fst e)) (Dir T) = Some (File (snd e)).

(** While the entries of a capture of [T] are extracted into [target]:
    the target is a directory, below it there are only files already
    extracted and directories of [T], and what was extracted is there. *)
Definition extractInv (T : list (string * node)) (target : path)
  (done : list (string * data)) (disk : fs) : Prop :=
  (exists sub, lookup target disk = Some (Dir sub))
  /\ (forall q n, q <> [] -> lookup (target ++ q) disk = Some n ->
        match n with
        | File d => exists p, In (p, d) done /\ canonical p = q
        | Dir _ => exists sub, lookupNode q (Dir T) = Some (Dir sub)
        | Unreadable => False
        end)
  /\ (forall p d, In (p, d) done -> fileAt (target ++ canonical p) disk = Some d).

(* ===================================================================== *)
(** ** Sample disks and sessions *)
(* ===================================================================== *)

(** A byte count for the examples: the text length of plain content, and
    a nominal size for the two serialised forms. *)
Definition nominalLength (d : data) : Z :=
  match d with
  | Bytes s => Z.of_nat (String.length s)
  | ZipBuffer es => 22 + Z.of_nat (List.length es)
  | JsonDoc l => 2 + Z.of_nat (List.length l)
  end.

Definition sampleDisk : fs :=
  [("ws", Dir [("a.txt", File (Bytes "0123456789"));
               ("b.log", File (Bytes "12345"));
               ("src", Dir [("a.ts", File (Bytes "let a"))])])].

Definition sampleStorage : path := newSnapshotStorage ["ws"] defaultSnapshotsPath.

(** A short session for the examples: three captures out of order in
    time, then one deletion. *)
Definition sampleOps : list operation :=
  [Save 1000 ["ws"] noOptions; Save 3000 ["ws"] noOptions;
   Save 2000 ["ws"] noOptions; Delete "snapshot_1000"].

(** A user who asks for the TypeScript sources only. *)
Definition onlyTs : SnapshotOptions := mkOptions None (Some ["a.ts"]) None.

(** A storage configured with a directory of another name. *)
Definition snapsStorage : path := newSnapshotStorage ["ws"] "snaps".

(** The sample workspace after one capture at time 1000, and after a
    second one at time 2000. *)
Definition sampleSave (now : Z) : IO SnapshotMetadata :=
  saveSnapshot RegExp_test nominalLength sampleStorage now ["ws"] noOptions.

Definition diskAfterSampleSave : fs := snd (sampleSave 1000 sampleDisk).

Definition diskAfterSecondSave : fs := snd (sampleSave 2000 diskAfterSampleSave).

Definition sampleRecord (now : Z) : SnapshotMetadata :=
  mkMetadata (snapshotIdAt now) now None 2 24 ["ws"].

(** The container is removed by hand. *)
Definition diskWithoutContainer : fs :=
  snd (fs_unlink (zipPathOf sampleStorage "snapshot_1000") diskAfterSampleSave).

(** A container with an entry that names a path above the target. *)
Definition diskWithCraftedContainer : fs :=
  [("ws", Dir [(".snapshots",
                Dir [("crafted.zip",
                      File (ZipBuffer [("../evil.txt", Bytes "x")]))]);
               ("target", Dir [])])].

(** The sample workspace next to an empty directory to restore into. *)
Definition roundTripDisk : fs := ("target", Dir []) :: sampleDisk.

Definition roundTripDiskAfterSave : fs := snd (sampleSave 1000 roundTripDisk).

(** A workspace with one text file of ten bytes and one log of five. *)
Definition twoFilesDisk : fs :=
  [("ws", Dir [("a.txt", File (Bytes "0123456789"));
               ("b.log", File (Bytes "12345"))])].

(* ===================================================================== *)
(** ** Utils

    The helpers of the [Utils] class that work on paths, times, the disk
    and plain strings.  Paths are absolute and normalised, as everywhere
    here; [Date.now()] is an argument; a number is an integer in the
    range where the arithmetic of the runtime is exact. *)
(* ===================================================================== *)

(** [(await fs.stat(p)).isDirectory()] *)
Definition fs_stat_isDirectory (p : path) : IO bool :=
  inspect (fun disk =>
    match lookup p disk with
    | Some (Dir _) => inr true
    | Some _ => inr false
    | None => inl ENOENT
    end).

Module Utils.

(** [path.relative(from, to)], segment by segment: the common directories
    are dropped, every directory left of [from] is climbed with [..],
    then what is left of [to] is walked down. *)
Fixpoint relativeSegments (from to : path) : list string :=
  match from, to with
  | f :: from', t :: to' =>
      if String.eqb f t then relativeSegments from' to'
      else map (fun _ => "..") from ++ to
  | _, _ => map (fun _ => "..") from ++ to
  end.

Definition getRelativePath (filePath workspaceRoot : path) : string :=
  String.concat "/" (relativeSegments workspaceRoot filePath).

(** [path.isAbsolute] *)
Definition isAbsolute (p : string) : bool := String.prefix "/" p.

Definition isWithinWorkspace (filePath workspaceRoot : path) : bool :=
  let relativePath := getRelativePath filePath workspaceRoot in
  negb (String.prefix ".." relativePath) && negb (isAbsolute relativePath).

(** [`${n} unit${n > 1 ? 's' : ''} ago`] *)
Definition ago (n : Z) (unit : string) : string :=
  decimal n ++ " " ++ unit ++ (if (1 <? n)%Z then "s" else "") ++ " ago".

Definition formatRelativeTime (now timestamp : Z) : string :=
  let diff := (now - timestamp)%Z in
  let seconds := (diff / 1000)%Z in
  let minutes := (seconds / 60)%Z in
  let hours := (minutes / 60)%Z in
  let days := (hours / 24)%Z in
  if (0 <? days)%Z then ago days "day"
  else if (0 <? hours)%Z then ago hours "hour"
  else if (0 <? minutes)%Z then ago minutes "minute"
  else "Just now".

Definition fileExists (filePath : path) : IO bool :=
  tryCatch (fs_access filePath ;; ret true) (fun _ => ret false).

Definition directoryExists (dirPath : path) : IO bool :=
  tryCatch (fs_stat_isDirectory dirPath) (fun _ => ret false).

(** The [Error] thrown on failure quotes its cause in its message; it is
    represented by the cause. *)
Definition ensureDirectory (dirPath : path) : IO unit :=
  tryCatch (fs_mkdir_recursive dirPath) (fun error => throw error).

Section Retry.

Context {A E : Type}.

(** [fn i] is what the call of [fn] in the iteration [i] of the loop does:
    it returns a value or throws.  The waits between attempts are
    returned next to the outcome, in milliseconds; [inl None] is the
    [throw lastError] with nothing caught. *)
Variable fn : Z -> E + A.
Variable maxRetries baseDelay : Z.

Fixpoint retryLoop (iterations : nat) (i : Z) (lastError : option E)
  : (option E + A) * list Z :=
  match iterations with
  | O => (inl lastError, [])
  | S iterations' =>
      match fn i with
      | inr a => (inr a, [])
      | inl error =>
          if (i =? maxRetries)%Z then (inl (Some error), [])
          else
            let delay := (baseDelay * 2 ^ i)%Z in
            let (outcome, delays) := retryLoop iterations' (i + 1) (Some error) in
            (outcome, delay :: delays)
      end
  end.

(** [for (let i = 0; i <= maxRetries; i++)] *)
Definition retry : (option E + A) * list Z :=
  retryLoop (Z.to_nat (maxRetries + 1)) 0 None.

End Retry.

Definition doubleQuote : ascii := Ascii.ascii_of_nat 34.

(** The class of the first [replace]: the characters [<], [>], [:], the
    double quote, [/], the backslash, [|], [?] and the star. *)
Definition isReserved (c : ascii) : bool :=
  contains c "<>:/\|?*" || Ascii.eqb c doubleQuote.

(** [\s] on code units below 256: tab, line feed, vertical tab, form
    feed, carriage return, space and no-break space. *)
Definition isWhiteSpace (c : ascii) : bool :=
  let n := Ascii.nat_of_ascii c in
  ((9 <=? n)%nat && (n <=? 13)%nat) || (n =? 32)%nat || (n =? 160)%nat.

(** [s.replace(/[class]/g, by)] *)
Fixpoint replaceEach (class : ascii -> bool) (by_ : ascii) (s : string) : string :=
  match s with
  | EmptyString => EmptyString
  | String c s' => String (if class c then by_ else c) (replaceEach class by_ s')
  end.

(** [s.replace(/[class]+/g, by)]: every maximal run becomes one [by];
    [inRun] says that the character before was of the class. *)
Fixpoint replaceRuns (class : ascii -> bool) (by_ : ascii) (inRun : bool) (s : string)
  : string :=
  match s with
  | EmptyString => EmptyString
  | String c s' =>
      if class c then
        if inRun then replaceRuns class by_ true s'
        else String by_ (replaceRuns class by_ true s')
      else String c (replaceRuns class by_ false s')
  end.

Definition sanitizeFilename (filename : string) : string :=
  String.substring 0 255
    (replaceRuns isWhiteSpace "_" false (replaceEach isReserved "_" filename)).

(** One element of a pattern anchored at both ends: a class of characters
    taken once, or once or more. *)
Inductive item : Type :=
| Once (class : ascii -> bool)
| Many (class : ascii -> bool).

Fixpoint matchItems (items : list item) : string -> bool :=
  match items with
  | [] => fun s => match s with EmptyString => true | _ => false end
  | Once class :: rest =>
      fun s =>
        match s with
        | String c s' => class c && matchItems rest s'
        | EmptyString => false
        end
  | Many class :: rest =>
      fix many (s : string) : bool :=
        match s with
        | String c s' => class c && (matchItems rest s' || many s')
        | EmptyString => false
        end
  end.

(** The class [[^\s@]] *)
Definition notSpaceOrAt (c : ascii) : bool :=
  negb (isWhiteSpace c) && negb (Ascii.eqb c "@").

(** [/^[^\s@]+@[^\s@]+\.[^\s@]+$/] *)
Definition emailRegex : list item :=
  [Many notSpaceOrAt; Once (Ascii.eqb "@"); Many notSpaceOrAt;
   Once (Ascii.eqb "."); Many notSpaceOrAt].

Definition isValidEmail (email : string) : bool := matchItems emailRegex email.

End Utils.

(* ===================================================================== *)
(** ** LicenseKeyManager

    The key checks that stand before the Pro commands.  The salt drawn
    by [randomBytes] is an argument, and so is the index drawn for each
    character of a demo key; the SHA-256 digest is a function that is
    left open. *)
(* ===================================================================== *)

(** [s.split(sep)] for a one-character separator. *)
Fixpoint splitOn (sep : ascii) (s : string) : list string :=
  match s with
  | EmptyString => [""]
  | String c s' =>
      if Ascii.eqb c sep then "" :: splitOn sep s'
      else
        match splitOn sep s' with
        | [] => [String c ""]
        | seg :: segs => String c seg :: segs
        end
  end.

Fixpoint allChars (f : ascii -> bool) (s : string) : bool :=
  match s with
  | EmptyString => true
  | String c s' => f c && allChars f s'
  end.

(** How often a character occurs in a string. *)
Fixpoint occurrences (c : ascii) (s : string) : nat :=
  match s with
  | EmptyString => 0
  | String x s' => (if Ascii.eqb x c then 1 else 0) + occurrences c s'
  end.

Module LicenseKeyManager.

(** One position of the key pattern: a given character, or [[A-Z0-9]]. *)
Inductive charClass : Type :=
| Exactly (c : ascii)
| UpperOrDigit.

Definition isUpperOrDigit (c : ascii) : bool :=
  let n := Ascii.nat_of_ascii c in
  ((65 <=? n)%nat && (n <=? 90)%nat) || ((48 <=? n)%nat && (n <=? 57)%nat).

Definition classMatches (k : charClass) (c : ascii) : bool :=
  match k with
  | Exactly x => Ascii.eqb x c
  | UpperOrDigit => isUpperOrDigit c
  end.

(** A pattern anchored at both ends in which every position takes one
    character. *)
Fixpoint matchesAll (pattern : list charClass) (s : string) : bool :=
  match pattern, s with
  | [], EmptyString => true
  | k :: pattern', String c s' => classMatches k c && matchesAll pattern' s'
  | _, _ => false
  end.

Definition group : list charClass := repeat UpperOrDigit 4.

(** [/^SNAP-[A-Z0-9]{4}-[A-Z0-9]{4}-[A-Z0-9]{4}-[A-Z0-9]{4}$/] *)
Definition keyPattern : list charClass :=
  map Exactly (list_ascii_of_string "SNAP-")
  ++ group ++ [Exactly "-"] ++ group ++ [Exactly "-"] ++ group
  ++ [Exactly "-"] ++ group.

Definition validateKeyFormat (key : string) : bool := matchesAll keyPattern key.

(** [const [salt, hash] = encryptedKey.split(':')]: both must be there
    and not empty. *)
Definition decryptKey (encryptedKey : string) : option string :=
  match splitOn ":" encryptedKey with
  | salt :: hash :: _ =>
      if String.eqb salt "" || String.eqb hash "" then None else Some "VALID_KEY"
  | _ => None
  end.

Definition isProEnabled (storedKey : string) : bool :=
  if String.eqb storedKey "" then false
  else
    match decryptKey storedKey with
    | Some _ => validateKeyFormat (hd "" (splitOn ":" storedKey))
    | None => false
    end.

Record LicenseKey : Type := mkLicenseKey {
  key : string;
  encrypted : string;
  isValid : bool;
  features : list string
}.

Section Hashing.

(** [createHash('sha256').update(text).digest('hex')] *)
Variable sha256hex : string -> string.

(** [salt] is what [generateSalt()] drew. *)
Definition encryptKey (salt licenseKey : string) : string :=
  salt ++ ":" ++ sha256hex (licenseKey ++ salt).

Definition validateKey (salt key : string) : LicenseKey :=
  let isValid := validateKeyFormat key in
  mkLicenseKey key
    (if isValid then encryptKey salt key else "")
    isValid
    (if isValid then ["timeline-chart"; "markdown-export"; "auto-clean"] else []).

End Hashing.

Definition isLowerHexDigit (c : ascii) : bool :=
  let n := Ascii.nat_of_ascii c in
  ((48 <=? n)%nat && (n <=? 57)%nat) || ((97 <=? n)%nat && (n <=? 102)%nat).

(** What [randomBytes(16).toString('hex')] can be: 32 lower-case
    hexadecimal digits. *)
Definition isSalt (salt : string) : bool :=
  (String.length salt =? 32)%nat && allChars isLowerHexDigit salt.

Definition chars : string := "ABCDEFGHIJKLMNOPQRSTUVWXYZ0123456789".

(** [chars.charAt(index)] *)
Definition charAt (index : nat) (s : string) : string :=
  match String.get index s with
  | Some c => String c ""
  | None => ""
  end.

(** [draw i j] is [Math.floor(Math.random() * chars.length)] for the
    character [j] of the group [i]. *)
Definition generateDemoKey (draw : nat -> nat -> nat) : string :=
  fold_left
    (fun (result : string) i =>
       fold_left (fun (result : string) j => (result ++ charAt (draw i j) chars)%string)
                 (seq 0 4)
                 (if (0 <? i)%nat then (result ++ "-")%string else result))
    (seq 0 4) "SNAP-"%string.

End LicenseKeyManager.

(* ===================================================================== *)
(** ** The commands of the extension

    What the command layer ([CodeSnapshotJournal]) hands to the storage
    and how [autoClean] drives it.  What the user answers to a dialog is
    an argument; messages shown are not modelled.  The telemetry manager
    writes its own document after a command; what it holds is left
    open. *)
(* ===================================================================== *)

Module Journal.

Record ExtensionConfig : Type := mkConfig {
  snapshotsPath : string;
  maxSnapshotSize : Z;
  autoCleanDays : Z;
  includePatterns : list string;
  excludePatterns : list string
}.

(** The settings of the editor under [codeSnapshotJournal]: a key the
    user has not set is [None]. *)
Record Settings : Type := mkSettings {
  setSnapshotsPath : option string;
  setMaxSnapshotSize : option Z;
  setAutoCleanDays : option Z;
  setIncludePatterns : option (list string);
  setExcludePatterns : option (list string)
}.

Definition noSettings : Settings := mkSettings None None None None None.

(** [config.get(key, defaultValue)] *)
Definition get {A} (o : option A) (defaultValue : A) : A :=
  match o with
  | Some a => a
  | None => defaultValue
  end.

Definition getConfig (settings : Settings) : ExtensionConfig :=
  mkConfig
    (get (setSnapshotsPath settings) ".snapshots")
    (get (setMaxSnapshotSize settings) 100%Z)
    (get (setAutoCleanDays settings) 30%Z)
    (get (setIncludePatterns settings) [])
    (get (setExcludePatterns settings)
       ["node_modules"; ".git"; ".vscode"; "out"; "dist"; "*.log"]).

(** The options [createSnapshot] passes to [saveSnapshot] for the
    message the user typed. *)
Definition snapshotOptions (config : ExtensionConfig) (message : string)
  : SnapshotOptions :=
  mkOptions
    (if String.eqb message "" then None else Some message)
    (match includePatterns config with
     | [] => None
     | patterns => Some patterns
     end)
    (Some (excludePatterns config)).

(** [new TelemetryManager(workspaceRoot)] *)
Definition telemetryFileOf (workspaceRoot : path) : path :=
  workspaceRoot ++ [".snapshots"; "telemetry.json"].

(** [saveTelemetry()], which follows every tracked event: whatever goes
    wrong is caught. *)
Definition saveTelemetry (telemetryFile : path) (document : data) : IO unit :=
  tryCatch
    (fs_mkdir_recursive (removelast telemetryFile) ;;
     fs_writeFile telemetryFile document)
    (fun _ => ret tt).

Section Commands.

(** [this.storage], the telemetry document's path and what is written
    there. *)
Variable storage : path.
Variable telemetryFile : path.
Variable document : data.

Definition autoClean (storedKey : string) (config : ExtensionConfig) (now : Z)
  (confirmed : bool) : IO unit :=
  if negb (LicenseKeyManager.isProEnabled storedKey) then ret tt
  else
    tryCatch
      (snapshots <- listSnapshots storage ;;
       let cutoffTime := (now - autoCleanDays config * 24 * 60 * 60 * 1000)%Z in
       let oldSnapshots :=
         filter (fun s => (timestamp s <? cutoffTime)%Z) snapshots in
       match oldSnapshots with
       | [] => ret tt
       | _ =>
           (if confirmed then
              forEachIO (fun snapshot => deleteSnapshot storage (id snapshot))
                        oldSnapshots
            else ret tt) ;;
           saveTelemetry telemetryFile document
       end)
      (fun _ => ret tt).

End Commands.

End Journal.

(* ===================================================================== *)
(** ** Vocabulary of the properties of whole calls *)
(* ===================================================================== *)

(** Every pattern the filter may hand to [new RegExp] under [options]. *)
Definition patternsOf (options : SnapshotOptions) : list string :=
  defaultExcludes
  ++ match excludePatterns options with Some l => l | None => [] end
  ++ match includePatterns options with Some l => l | None => [] end.

(** From the root down to [p], everything is a directory or is not
    there: [mkdir -p p] can go through. *)
Definition dirsOrAbsent (p : path) (disk : fs) : bool :=
  forallb (fun k =>
             match kindAt (firstn k p) disk with
             | KDir | KAbsent => true
             | _ => false
             end)
          (seq 0 (S (List.length p))).

(** [p] is a file that can be written over, or is free. *)
Definition fileOrAbsent (p : path) (disk : fs) : bool :=
  match kindAt p disk with
  | KFile _ | KAbsent => true
  | _ => false
  end.

(** The tree without the entries that cannot be read. *)
Fixpoint readableOnly (n : node) : node :=
  match n with
  | Dir es =>
      Dir ((fix entries (l : list (string * node)) : list (string * node) :=
              match l with
              | [] => []
              | (_, Unreadable) :: l' => entries l'
              | (name, x) :: l' => (name, readableOnly x) :: entries l'
              end) es)
  | x => x
  end.

Definition readableEntries (es : list (string * node)) : list (string * node) :=
  match readableOnly (Dir es) with
  | Dir es' => es'
  | _ => []
  end.

(** A workspace with two entries that cannot be read, one of them in a
    subdirectory. *)
Definition lockedEntries : list (string * node) :=
  [("a.txt", File (Bytes "0123456789"));
   ("secret.key", Unreadable);
   ("src", Dir [("held.db", Unreadable); ("a.ts", File (Bytes "let a"))])].

(** Two thunks for the examples of [Utils.retry]: one that throws twice
    and then returns, one that always throws, with the number of the
    call in what it throws. *)
Definition busyTwice (i : Z) : string + Z :=
  if (i <? 2)%Z then inl "busy" else inr 7%Z.

Definition alwaysThrows (i : Z) : Z + Z := inl (100 + i)%Z.

(** Indices for the sixteen characters of a demo key. *)
Definition sampleDraw (i j : nat) : nat := (7 * i + j) mod 36.

(** A stored value that passes the licence check, and a time thirty days
    and a second and a half after the epoch of the sample captures. *)
Definition sampleStoredKey : string := "SNAP-AB12-CD34-EF56-GH78:digest".

Definition cleanupTime : Z := 2592001500.

(** The sample workspace after one capture, with an archive of the
    user's own next to the storage directory. *)
Definition diskWithOwnArchive : fs :=
  match putFile false ["ws"; "notes.zip"] (Bytes "mine") diskAfterSampleSave with
  | inr disk => disk
  | inl _ => diskAfterSampleSave
  end.

(** The glob read character by character and matched against a stretch of
    the path: [*] is a run of characters free of line terminators, [?] is
    one such character, any other character, [.] included, is itself. *)
Inductive globLiteral : string -> string -> Prop :=
| gl_end : globLiteral "" ""
| gl_star q run s :
    noLineTerminator run = true ->
    globLiteral q s ->
    globLiteral (String "*" q) (run ++ s)
| gl_one q x s :
    isLineTerminator x = false ->
    globLiteral q s ->
    globLiteral (String "?" q) (String x s)
| gl_chr c q s :
    c <> "*"%char -> c <> "?"%char ->
    globLiteral q s ->
    globLiteral (String c q) (String c s).

(** A character a JSON text can begin with: white space or the first
    character of a value. *)
Definition canBeginJson (c : ascii) : bool :=
  contains c " {[-0123456789tfn"
  || Ascii.eqb c Utils.doubleQuote
  || Ascii.eqb c (Ascii.ascii_of_nat 9)
  || Ascii.eqb c (Ascii.ascii_of_nat 10)
  || Ascii.eqb c (Ascii.ascii_of_nat 13).

(** A text [JSON.parse] is sure to reject: the empty text, or one whose
    first character cannot begin a JSON text. *)
Definition notJsonText (s : string) : bool :=
  match s with
  | EmptyString => true
  | String c _ => negb (canBeginJson c)
  end.

(** The index document gives [listSnapshots] an array of records: it is
    absent, unreadable or a directory, it is what [saveMetadata] wrote, it
    is an archive, or it is a text [JSON.parse] is sure to reject
    ([notJsonText]). A text of another origin that does parse ([null], an
    object, an array of other values) makes [listSnapshots] return that
    value, and the calls that go on to filter, search or extend it throw
    a TypeError; [listSnapshots] above reads every text as one that does
    not parse, which is right of the texts admitted here only. *)
Definition indexGivesArray (snapshotsDir : path) (disk : fs) : bool :=
  match lookup (metadataPath snapshotsDir) disk with
  | Some (File (Bytes s)) => notJsonText s
  | _ => true
  end.

(* ===================================================================== *)
(** * Properties *)
(* ===================================================================== *)

(* ===================================================================== *)
(** ** Pattern matching *)
(* ===================================================================== *)

Example default_excludes_layout :
  shouldIncludeFile RegExp_test "src/layout.css" noOptions = inr false.
Proof. reflexivity. Qed.

Example default_excludes_log :
  shouldIncludeFile RegExp_test "b.log" noOptions = inr false.
Proof. reflexivity. Qed.

Example default_accepts_a_txt :
  shouldIncludeFile RegExp_test "a.txt" noOptions = inr true.
Proof. reflexivity. Qed.

Lemma append_assoc (a b c : string) : ((a ++ b) ++ c = a ++ (b ++ c))%string.
Proof. induction a as [|x a IH]; simpl; [reflexivity|]. now rewrite IH. Qed.

Lemma replaceAll_app c by_ a b :
  replaceAll c by_ (a ++ b) = (replaceAll c by_ a ++ replaceAll c by_ b)%string.
Proof.
  induction a as [|x a IH]; simpl; [reflexivity|].
  destruct (Ascii.eqb x c); simpl; rewrite IH.
  - symmetry. apply append_assoc.
  - reflexivity.
Qed.

Lemma regexSource_cons c q :
  regexSource (String c q) =
  if Ascii.eqb c "*" then String "." (String "*" (regexSource q))
  else if Ascii.eqb c "?" then String "." (regexSource q)
  else String c (regexSource q).
Proof.
  unfold regexSource. simpl.
  destruct (Ascii.eqb_spec c "*") as [->|Hs]; [reflexivity|].
  simpl. destruct (Ascii.eqb c "?"); reflexivity.
Qed.

Lemma regexSource_no_leading_star q :
  match regexSource q with
  | String x _ => Ascii.eqb x "*" = false
  | EmptyString => True
  end.
Proof.
  destruct q as [|c q]; [exact I|].
  rewrite regexSource_cons.
  destruct (Ascii.eqb_spec c "*") as [->|Hs]; [reflexivity|].
  destruct (Ascii.eqb_spec c "?") as [->|Hq]; [reflexivity|].
  apply Ascii.eqb_neq. exact Hs.
Qed.

Lemma parse_regexSource q :
  plainPattern q = true ->
  parseRegExp (regexSource q) = inr (compileGlob q).
Proof.
  induction q as [|c q IH]; intros Hp; [reflexivity|].
  simpl in Hp. apply andb_prop in Hp as [Hc Hq]. specialize (IH Hq).
  rewrite regexSource_cons. simpl compileGlob.
  destruct (Ascii.eqb_spec c "*") as [->|Hs].
  - simpl. rewrite IH. reflexivity.
  - destruct (Ascii.eqb_spec c "?") as [->|Hqm].
    + pose proof (regexSource_no_leading_star q) as Hl.
      cbn [parseRegExp]. cbn [Ascii.eqb Bool.eqb isSpecial contains orb].
      destruct (regexSource q) as [|x r] eqn:Hr.
      * simpl in IH. injection IH as <-. reflexivity.
      * rewrite Hl. rewrite IH. reflexivity.
    + pose proof (regexSource_no_leading_star q) as Hl.
      assert (Hsp : isSpecial c = false).
      { destruct (Ascii.eqb_spec c "?"); [contradiction|].
        simpl in Hc. destruct (isSpecial c); [discriminate|reflexivity]. }
      cbn [parseRegExp].
      destruct (Ascii.eqb_spec c "*"); [contradiction|]. rewrite Hsp.
      destruct (regexSource q) as [|x r] eqn:Hr.
      * simpl in IH. injection IH as <-. reflexivity.
      * rewrite Hl. rewrite IH. reflexivity.
Qed.

Lemma matchHere_star a ps s :
  matchHere (Star a :: ps) s =
  matchHere ps s
  || match s with
     | String c s' => atomMatches a c && matchHere (Star a :: ps) s'
     | EmptyString => false
     end.
Proof. destruct s; reflexivity. Qed.

Lemma globMatches_star_cons q x s :
  isLineTerminator x = false ->
  globMatches (String "*" q) s ->
  globMatches (String "*" q) (String x s).
Proof.
  intros Hx H. inversion H as [ | q' run s' Hrun Hs | ? ? ? ? H2 | ]; subst.
  - change (String x (run ++ s'))%string with ((String x run) ++ s')%string.
    apply gm_star; [|assumption]. simpl. now rewrite Hx, Hrun.
  - destruct H2 as [E|E]; discriminate E.
  - congruence.
Qed.

(** [matchHere] on the compiled pattern: some prefix is a glob match. *)
Lemma matchHere_compileGlob q :
  forall s,
    matchHere (compileGlob q) s = true <->
    exists mid rest, s = (mid ++ rest)%string /\ globMatches q mid.
Proof.
  induction q as [|c q IH]; intros s.
  - simpl. split; [intros _|reflexivity].
    exists ""%string, s. split; [reflexivity|constructor].
  - simpl compileGlob.
    destruct (Ascii.eqb_spec c "*") as [->|Hs].
    + induction s as [|x s IHs].
      * rewrite matchHere_star, orb_false_r, IH. split.
        -- intros (mid & rest & E & Hm). exists mid, rest. split; [exact E|].
           change mid with (""%string ++ mid)%string. now apply gm_star.
        -- intros (mid & rest & E & Hm).
           destruct mid; [|discriminate E]. destruct rest; [|discriminate E].
           inversion Hm as [ | q' run s' Hrun Hs' E1 | ? ? ? ? H2 | ]; subst.
           ++ destruct run; [|discriminate]. simpl in *. subst.
              exists ""%string, ""%string. split; [reflexivity|assumption].
        all: try (destruct H2; discriminate).
      * rewrite matchHere_star. rewrite orb_true_iff, andb_true_iff. split.
        -- intros [H|[Hx H]].
           ++ apply IH in H as (mid & rest & E & Hm). exists mid, rest.
              split; [exact E|]. change mid with (""%string ++ mid)%string.
              now apply gm_star.
           ++ apply IHs in H as (mid & rest & E & Hm). subst s.
              exists (String x mid), rest. split; [reflexivity|].
              apply globMatches_star_cons; [|assumption].
              simpl in Hx. now destruct (isLineTerminator x).
        -- intros (mid & rest & E & Hm).
           inversion Hm as [ | q' run s' Hrun Hs' E1 | ? ? ? ? H2 | ]; subst.
           ++ destruct run as [|y run].
              ** left. apply IH. exists s', rest. split; [exact E|assumption].
              ** right. simpl in E. injection E as -> ->. simpl in Hrun.
                 apply andb_prop in Hrun as [Hy Hrun]. split; [simpl; exact Hy|].
                 apply IHs. exists (run ++ s')%string, rest.
                 split; [now rewrite append_assoc|]. now apply gm_star.
           ++ destruct H2; discriminate.
           ++ congruence.
    + assert (Hone : forall a, (forall x, atomMatches a x = true <->
                 ((c = "?"%char \/ c = "."%char) /\ isLineTerminator x = false)
                 \/ (c <> "?"%char /\ c <> "."%char /\ x = c)) ->
               matchHere (One a :: compileGlob q) s = true <->
               exists mid rest, s = (mid ++ rest)%string /\ globMatches (String c q) mid).
      { intros a Ha. simpl. destruct s as [|x s].
        - split; [discriminate|]. intros (mid & rest & E & Hm).
          destruct mid; [|discriminate E]. inversion Hm; congruence.
        - rewrite andb_true_iff, Ha, IH. split.
          + intros [Hx (mid & rest & E & Hm)]. subst s.
            exists (String x mid), rest. split; [reflexivity|].
            destruct Hx as [[Hc Hx]|(H1 & H2 & ->)].
            * now apply gm_one.
            * now apply gm_chr.
          + intros (mid & rest & E & Hm).
            inversion Hm as [ | | c' q' x' s' Hc Hx Hs' | c' q' s' H1 H2 H3 Hs' ]; subst.
            * congruence.
            * simpl in E. injection E as -> ->. split; [left; now split|].
              now exists s', rest.
            * simpl in E. injection E as -> ->. split; [right; now repeat split|].
              now exists s', rest. }
      destruct (Ascii.eqb_spec c "?") as [->|Hq].
      * apply Hone. intros x. simpl. split.
        -- intros H. left. split; [now left|]. now destruct (isLineTerminator x).
        -- intros [[_ H]|(H & _)]; [now rewrite H|congruence].
      * apply Hone. intros x. unfold atomOf.
        destruct (Ascii.eqb_spec c ".") as [->|Hd]; simpl.
        -- split.
           ++ intros H. left. split; [now right|]. now destruct (isLineTerminator x).
           ++ intros [[_ H]|(_ & H & _)]; [now rewrite H|congruence].
        -- split.
           ++ intros H. apply Ascii.eqb_eq in H. subst x. right. now repeat split.
           ++ intros [[[H|H] _]|(_ & _ & ->)]; [congruence|congruence|apply Ascii.eqb_refl].
Qed.

Lemma searchFrom_spec ps s :
  searchFrom ps s = true <->
  exists pre rest, s = (pre ++ rest)%string /\ matchHere ps rest = true.
Proof.
  induction s as [|x s IH]; simpl.
  - rewrite orb_false_r. split.
    + intros H. now exists ""%string, ""%string.
    + intros (pre & rest & E & H). destruct pre; [|discriminate]. simpl in E. now subst.
  - rewrite orb_true_iff, IH. split.
    + intros [H|(pre & rest & E & H)].
      * now exists ""%string, (String x s).
      * subst s. now exists (String x pre), rest.
    + intros (pre & rest & E & H). destruct pre as [|y pre].
      * simpl in E. subst rest. now left.
      * simpl in E. injection E as -> ->. right. now exists pre, rest.
Qed.

(** C5 as stated fails: the pattern is searched for inside the path.
    [out] is found in [layout.css], and [.git] in [agit], where the [.]
    of the pattern stands for the [a]; neither is the whole path. *)
Lemma matchesPattern_whole_path_counterexample :
  matchesPattern RegExp_test "layout.css" "out" = inr true
  /\ globWhole "out" "layout.css" = false
  /\ matchesPattern RegExp_test "agit" ".git" = inr true
  /\ globWhole ".git" "agit" = false.
Proof. repeat split. Qed.

(** What [matchesPattern] computes for a pattern [q] without other
    regular-expression metacharacters, in terms of the regular expression
    built from it. *)
Lemma matchesPattern_regex_glob (p q : string) :
  plainPattern q = true ->
  (exists b, matchesPattern RegExp_test p q = inr b)
  /\ (matchesPattern RegExp_test p q = inr true <->
      exists pre mid post,
        p = (pre ++ mid ++ post)%string /\ globMatches q mid).
Proof.
  intros Hq. unfold matchesPattern, RegExp_test.
  rewrite (parse_regexSource q Hq). simpl. split; [eauto|].
  split.
  - intros H. injection H as H. apply searchFrom_spec in H as (pre & rest & E & H).
    apply matchHere_compileGlob in H as (mid & post & E' & Hm).
    exists pre, mid, post. subst. now split.
  - intros (pre & mid & post & E & Hm). f_equal. apply searchFrom_spec.
    exists pre, (mid ++ post)%string. split; [exact E|].
    apply matchHere_compileGlob. now exists mid, post.
Qed.

Lemma globLiteral_globMatches q s : globLiteral q s -> globMatches q s.
Proof.
  induction 1 as [ | q run s Hr _ IH | q x s Hx _ IH | c q s H1 H2 _ IH ].
  - constructor.
  - now apply gm_star.
  - apply gm_one; auto.
  - destruct (Ascii.eqb_spec c ".") as [->|Hd].
    + apply gm_one; auto.
    + now apply gm_chr.
Qed.

Lemma globMatches_globLiteral q s :
  contains "." q = false -> globMatches q s -> globLiteral q s.
Proof.
  intros Hq H. induction H as [ | q run s Hr _ IH | c q x s Hc Hx _ IH | c q s H1 H2 H3 _ IH ].
  - constructor.
  - simpl in Hq. apply gl_star; auto.
  - simpl in Hq. apply orb_false_iff in Hq as [Hc' Hq].
    destruct Hc as [->| ->]; [|discriminate Hc'].
    apply gl_one; auto.
  - simpl in Hq. apply orb_false_iff in Hq as [_ Hq].
    apply gl_chr; auto.
Qed.

(** C5 (amended): for a pattern [q] of [*], [?] and ordinary characters,
    [matchesPattern p q] answers. It answers [true] whenever some
    substring of [p] matches [q], where [*] stands for any run of
    characters other than line terminators, [?] for exactly one such
    character, and any other character for itself; and for a pattern
    without [.] it answers [true] only then. *)
Theorem matchesPattern_substring_glob (p q : string) :
  plainPattern q = true ->
  (exists b, matchesPattern RegExp_test p q = inr b)
  /\ ((exists pre mid post,
         p = (pre ++ mid ++ post)%string /\ globLiteral q mid) ->
      matchesPattern RegExp_test p q = inr true)
  /\ (contains "." q = false ->
      matchesPattern RegExp_test p q = inr true ->
      exists pre mid post,
        p = (pre ++ mid ++ post)%string /\ globLiteral q mid).
Proof.
  intros Hq. destruct (matchesPattern_regex_glob p q Hq) as [Hb Hiff].
  split; [exact Hb|]. split.
  - intros (pre & mid & post & E & Hm). apply Hiff.
    exists pre, mid, post. split; [exact E|]. now apply globLiteral_globMatches.
  - intros Hd H. apply Hiff in H as (pre & mid & post & E & Hm).
    exists pre, mid, post. split; [exact E|]. now apply globMatches_globLiteral.
Qed.

Lemma matchesPattern_substring_glob_witness :
  plainPattern "*.log" = true
  /\ (exists b, matchesPattern RegExp_test "logs/app.log" "*.log" = inr b)
  /\ ((exists pre mid post,
         "logs/app.log" = (pre ++ mid ++ post)%string /\ globLiteral "*.log" mid) ->
      matchesPattern RegExp_test "logs/app.log" "*.log" = inr true)
  /\ (contains "." "*.log" = false ->
      matchesPattern RegExp_test "logs/app.log" "*.log" = inr true ->
      exists pre mid post,
        "logs/app.log" = (pre ++ mid ++ post)%string /\ globLiteral "*.log" mid).
Proof.
  split; [reflexivity|].
  apply (matchesPattern_substring_glob "logs/app.log" "*.log"). reflexivity.
Defined.

(* ===================================================================== *)
(** ** The filter *)
(* ===================================================================== *)

Section FilterFacts.

Variable test : string -> string -> result bool.

Lemma anyMatches_app fp l1 l2 :
  anyMatches test fp (l1 ++ l2) =
  letR b := anyMatches test fp l1 in
  if b then inr true else anyMatches test fp l2.
Proof.
  induction l1 as [|x l1 IH]; simpl; [reflexivity|].
  destruct (matchesPattern test fp x) as [e|[|]]; simpl; auto.
Qed.

Lemma anyMatches_true_elim fp l :
  anyMatches test fp l = inr true ->
  exists pat, In pat l /\ matchesPattern test fp pat = inr true.
Proof.
  induction l as [|x l IH]; simpl; [discriminate|].
  destruct (matchesPattern test fp x) as [e|[|]] eqn:E; simpl; try discriminate.
  - intros _. exists x. auto.
  - intros H. destruct (IH H) as (pat & Hin & Hm). exists pat. auto.
Qed.

Lemma anyMatches_true_intro fp l pat :
  (forall x, In x l -> exists b, matchesPattern test fp x = inr b) ->
  In pat l -> matchesPattern test fp pat = inr true ->
  anyMatches test fp l = inr true.
Proof.
  induction l as [|x l IH]; simpl; intros Hall Hin Hm; [contradiction|].
  destruct (Hall x (or_introl eq_refl)) as [b Hb]. rewrite Hb. simpl.
  destruct b; [reflexivity|].
  destruct Hin as [->|Hin]; [congruence|].
  apply IH; auto.
Qed.

(** Whatever the options say, a path one of the default patterns matches
    is refused, as long as the engine answers on the default patterns. *)
Lemma shouldIncludeFile_default_excluded fp options pat :
  (forall x, In x defaultExcludes -> exists b, matchesPattern test fp x = inr b) ->
  In pat defaultExcludes -> matchesPattern test fp pat = inr true ->
  shouldIncludeFile test fp options = inr false.
Proof.
  intros Hall Hin Hm. unfold shouldIncludeFile.
  rewrite anyMatches_app.
  rewrite (anyMatches_true_intro fp defaultExcludes pat Hall Hin Hm).
  reflexivity.
Qed.

(** With include patterns, a path none of them matches is not accepted. *)
Lemma shouldIncludeFile_needs_include fp options p ps :
  includePatterns options = Some (p :: ps) ->
  (forall pat, In pat (p :: ps) -> matchesPattern test fp pat <> inr true) ->
  shouldIncludeFile test fp options <> inr true.
Proof.
  intros Hinc Hno H. unfold shouldIncludeFile in H. rewrite Hinc in H.
  destruct (anyMatches test fp _) as [e|[|]]; cbn [bindR] in H; try discriminate.
  apply anyMatches_true_elim in H as (pat & Hin & Hm).
  exact (Hno pat Hin Hm).
Qed.

End FilterFacts.

Lemma RegExp_test_answers_defaults fp x :
  In x defaultExcludes -> exists b, matchesPattern RegExp_test fp x = inr b.
Proof.
  intros Hin. unfold matchesPattern, RegExp_test.
  assert (Hp : plainPattern x = true).
  { simpl in Hin. repeat (destruct Hin as [<-|Hin]; [reflexivity|]). contradiction. }
  rewrite (parse_regexSource x Hp). simpl. eauto.
Qed.

(* ===================================================================== *)
(** ** What the scan captures *)
(* ===================================================================== *)

Lemma node_ind' (P : node -> Prop) :
  (forall d, P (File d)) ->
  P Unreadable ->
  (forall es, Forall (fun e => P (snd e)) es -> P (Dir es)) ->
  forall n, P n.
Proof.
  intros Hf Hu Hd.
  refine (fix IH (n : node) : P n :=
            match n with
            | File d => Hf d
            | Unreadable => Hu
            | Dir es =>
                Hd es ((fix go (l : list (string * node))
                         : Forall (fun e => P (snd e)) l :=
                          match l with
                          | [] => Forall_nil _
                          | e :: l' => Forall_cons e (IH (snd e)) (go l')
                          end) es)
            end).
Qed.

Section ScanFacts.

Variable test : string -> string -> result bool.
Variable options : SnapshotOptions.

Lemma addDirectory_cons name n es rel st :
  addDirectory test options ((name, n) :: es) rel st =
  letR st' := addEntry test options rel name n st in
  addDirectory test options es rel st'.
Proof. reflexivity. Qed.

Lemma addEntry_unfold rel name n st :
  addEntry test options rel name n st =
  if String.eqb name ".snapshots" then inr st
  else
    letR ok := shouldIncludeFile test (joinRel rel name) options in
    if ok then
      match n with
      | Dir entries => addDirectory test options entries (joinRel rel name) st
      | File content => inr (addFile (joinRel rel name) content st)
      | Unreadable => inr st
      end
    else inr st.
Proof. destruct n; reflexivity. Qed.

Lemma capturedIn_iff rel es p d :
  capturedIn test options rel es p d <->
  exists name n, In (name, n) es /\ capturedEntry test options rel name n p d.
Proof.
  split.
  - intros H. destruct H as [rel es name d Hin Hacc|rel es name sub p d Hin Hacc Hsub].
    + exists name, (File d). split; [exact Hin|]. split; [exact Hacc|]. now split.
    + exists name, (Dir sub). split; [exact Hin|]. split; [exact Hacc|exact Hsub].
  - intros (name & n & Hin & Hacc & Hn). destruct n as [c| |sub].
    + destruct Hn as [-> ->]. now apply captured_file.
    + contradiction.
    + now apply captured_below with name sub.
Qed.

Lemma scanAdds_nothing st (captured : string -> data -> Prop) :
  (forall p d, ~ captured p d) -> scanAdds st st captured.
Proof.
  intros H. exists []. rewrite app_nil_r, Nat.add_0_r. repeat split; auto.
  - intros [].
  - intros Hc. exact (H _ _ Hc).
Qed.

Lemma addDirectory_from_entries es :
  Forall (fun e => forall rel name st st',
            addEntry test options rel name (snd e) st = inr st' ->
            scanAdds st st' (capturedEntry test options rel name (snd e))) es ->
  forall rel st st',
    addDirectory test options es rel st = inr st' ->
    scanAdds st st' (capturedIn test options rel es).
Proof.
  induction 1 as [|[name n] es Hn Hes IH]; intros rel st st' Hrun.
  - injection Hrun as <-. apply scanAdds_nothing.
    intros p d Hc. apply capturedIn_iff in Hc as (? & ? & [] & _).
  - rewrite addDirectory_cons in Hrun.
    destruct (addEntry test options rel name n st) as [e|st1] eqn:E1;
      [discriminate|]. simpl in Hrun.
    destruct (Hn rel name st st1 E1) as (a1 & Hz1 & Hc1 & Hin1).
    destruct (IH rel st1 st' Hrun) as (a2 & Hz2 & Hc2 & Hin2).
    exists (a1 ++ a2). repeat split.
    + rewrite Hz2, Hz1. now rewrite app_assoc.
    + rewrite Hc2, Hc1, length_app. lia.
    + intros Hin. apply capturedIn_iff. apply in_app_or in Hin as [Hin|Hin].
      * exists name, n. split; [now left|]. now apply Hin1.
      * apply Hin2, capturedIn_iff in Hin as (name' & n' & Hin & Hc).
        exists name', n'. split; [now right|assumption].
    + intros Hc. apply capturedIn_iff in Hc as (name' & n' & [E|Hin] & Hc).
      * injection E as <- <-. apply in_or_app. left. now apply Hin1.
      * apply in_or_app. right. apply Hin2, capturedIn_iff. now exists name', n'.
Qed.

Lemma addEntry_scanAdds n :
  forall rel name st st',
    addEntry test options rel name n st = inr st' ->
    scanAdds st st' (capturedEntry test options rel name n).
Proof.
  induction n as [c| |sub IH] using node_ind'; intros rel name st st' Hrun;
    rewrite addEntry_unfold in Hrun;
    (destruct (String.eqb_spec name ".snapshots") as [Hn|Hn];
     [injection Hrun as <-; apply scanAdds_nothing;
      intros p d [[Hne _] _]; contradiction|]);
    (destruct (shouldIncludeFile test (joinRel rel name) options) as [e|[|]] eqn:Hok;
     cbn [bindR] in Hrun;
     [discriminate| |
      injection Hrun as <-; apply scanAdds_nothing;
      intros p d [[_ Ht] _]; congruence]).
  - injection Hrun as <-. exists [(joinRel rel name, c)]. simpl.
    split; [reflexivity|]. split; [lia|]. intros p d. split.
    + intros [E|[]]. injection E as <- <-. split; [now split|now split].
    + intros (_ & -> & ->). now left.
  - injection Hrun as <-. apply scanAdds_nothing. intros p d [_ []].
  - destruct (addDirectory_from_entries sub IH _ _ _ Hrun) as (added & Hz & Hc & Hin).
    exists added. split; [exact Hz|]. split; [exact Hc|]. intros p d. split.
    + intros H. split; [now split|]. now apply Hin.
    + intros [_ H]. now apply Hin.
Qed.

(** The entries a scan adds are those [capturedIn] describes, and
    [fileCount] counts them. *)
Lemma addDirectory_scanAdds es rel st st' :
  addDirectory test options es rel st = inr st' ->
  scanAdds st st' (capturedIn test options rel es).
Proof.
  apply addDirectory_from_entries.
  apply Forall_forall. intros e _ rel' name st0 st1. apply addEntry_scanAdds.
Qed.

(** Every entry of the archive passed the filter under its own name. *)
Lemma capturedIn_accepted rel es p d :
  capturedIn test options rel es p d ->
  shouldIncludeFile test p options = inr true.
Proof.
  induction 1 as [rel es name d Hin [_ Hacc]|]; assumption.
Qed.

End ScanFacts.

(* ===================================================================== *)
(** ** The disk *)
(* ===================================================================== *)

Lemma findEntry_In name es x : findEntry name es = Some x -> In (name, x) es.
Proof.
  induction es as [|[n y] es IH]; simpl; [discriminate|].
  destruct (String.eqb_spec n name) as [->|Hn].
  - intros H. injection H as ->. now left.
  - intros H. right. auto.
Qed.

Lemma findEntry_setEntry name n x es :
  findEntry n (setEntry name x es) =
  if String.eqb name n then Some x else findEntry n es.
Proof.
  induction es as [|[m y] es IH]; simpl.
  - reflexivity.
  - destruct (String.eqb_spec m name) as [->|Hm]; simpl.
    + destruct (String.eqb name n); reflexivity.
    + destruct (String.eqb_spec m n) as [->|Hmn].
      * destruct (String.eqb_spec name n); [congruence|reflexivity].
      * exact IH.
Qed.

Lemma findEntry_setEntry_same name x es :
  findEntry name (setEntry name x es) = Some x.
Proof. rewrite findEntry_setEntry. now rewrite String.eqb_refl. Qed.

Lemma findEntry_setEntry_other name n x es :
  n <> name -> findEntry n (setEntry name x es) = findEntry n es.
Proof.
  intros H. rewrite findEntry_setEntry.
  destruct (String.eqb_spec name n); [congruence|reflexivity].
Qed.

Lemma findEntry_removeEntry_other name n es :
  n <> name -> findEntry n (removeEntry name es) = findEntry n es.
Proof.
  intros H. induction es as [|[m y] es IH]; simpl; [reflexivity|].
  destruct (String.eqb_spec m name) as [->|Hm]; simpl.
  - destruct (String.eqb_spec name n); [congruence|reflexivity].
  - now rewrite IH.
Qed.

Lemma lookup_nil disk : lookup [] disk = Some (Dir disk).
Proof. reflexivity. Qed.

Lemma lookup_cons n r disk :
  lookup (n :: r) disk =
  match findEntry n disk with
  | Some x => lookupNode r x
  | None => None
  end.
Proof. reflexivity. Qed.

Lemma lookupNode_below_file r n :
  r <> [] -> (forall es, n <> Dir es) -> lookupNode r n = None.
Proof.
  intros Hr Hn. destruct r as [|x r]; [contradiction|].
  destruct n; simpl; auto. now destruct (Hn entries).
Qed.

Lemma lookupNode_app p q n :
  lookupNode (p ++ q) n =
  match lookupNode p n with
  | Some m => lookupNode q m
  | None => None
  end.
Proof.
  revert n. induction p as [|x p IH]; intros n; simpl; [reflexivity|].
  destruct n; auto. destruct (findEntry x entries); auto.
Qed.

Lemma lookup_app p q disk :
  lookup (p ++ q) disk =
  match lookup p disk with
  | Some m => lookupNode q m
  | None => None
  end.
Proof. apply lookupNode_app. Qed.

Lemma isPrefix_nil p : isPrefix [] p.
Proof. now exists p. Qed.

Lemma isPrefix_cons x a b : isPrefix (x :: a) (x :: b) <-> isPrefix a b.
Proof.
  split; intros [c E].
  - exists c. now injection E.
  - exists c. simpl. now rewrite E.
Qed.

Lemma isPrefix_app_r a b : isPrefix a (a ++ b).
Proof. now exists b. Qed.

(** *** Writing a file *)

Lemma putFile_inv parents name p' d es es' :
  putFile parents (name :: p') d es = inr es' ->
  (p' = [] /\ es' = setEntry name (File d) es
   /\ (findEntry name es = None \/ exists c, findEntry name es = Some (File c)))
  \/ (p' <> [] /\ exists sub sub',
        (findEntry name es = Some (Dir sub)
         \/ (findEntry name es = None /\ sub = [] /\ parents = true))
        /\ putFile parents p' d sub = inr sub'
        /\ es' = setEntry name (Dir sub') es).
Proof.
  destruct p' as [|y p'].
  - simpl. intros H. left. split; [reflexivity|].
    destruct (findEntry name es) as [[c| |sub]|] eqn:E; try discriminate;
      injection H as <-; split; eauto.
  - intros H. right. split; [discriminate|].
    change (match findEntry name es with
            | Some (Dir sub) =>
                letR sub' := putFile parents (y :: p') d sub in
                inr (setEntry name (Dir sub') es)
            | Some _ => inl ENOTDIR
            | None =>
                if parents then
                  letR sub' := putFile parents (y :: p') d [] in
                  inr (setEntry name (Dir sub') es)
                else inl ENOENT
            end = inr es') in H.
    destruct (findEntry name es) as [[c| |sub]|] eqn:E; try discriminate.
    + destruct (putFile parents (y :: p') d sub) as [e|sub'] eqn:Es; [discriminate|].
      injection H as <-. exists sub, sub'. auto.
    + destruct parents; [|discriminate].
      destruct (putFile true (y :: p') d []) as [e|sub'] eqn:Es; [discriminate|].
      injection H as <-. exists [], sub'. auto.
Qed.

(** The file is there afterwards. *)
Lemma putFile_lookup_same parents p d :
  forall es es',
    putFile parents p d es = inr es' -> lookup p es' = Some (File d).
Proof.
  induction p as [|name p IH]; intros es es' H; [discriminate|].
  apply putFile_inv in H as [(-> & -> & _)|(Hp & sub & sub' & _ & Hsub & ->)];
    rewrite lookup_cons, findEntry_setEntry_same.
  - reflexivity.
  - exact (IH _ _ Hsub).
Qed.

(** Only the path written and the directories above it change. *)
Lemma putFile_lookup_other parents p d :
  forall es es' r,
    putFile parents p d es = inr es' ->
    ~ isPrefix r p ->
    lookup r es' = lookup r es.
Proof.
  induction p as [|name p IH]; intros es es' r H Hr; [discriminate|].
  destruct r as [|n r]; [destruct Hr; apply isPrefix_nil|].
  rewrite !lookup_cons.
  destruct (String.eqb_spec n name) as [->|Hn].
  - assert (Hr' : ~ isPrefix r p) by (intros Hp; apply Hr; now apply isPrefix_cons).
    apply putFile_inv in H as [(-> & -> & Hf)|(Hp & sub & sub' & Hf & Hsub & ->)];
      rewrite findEntry_setEntry_same.
    + assert (r <> []) by (intros ->; apply Hr'; apply isPrefix_nil).
      rewrite lookupNode_below_file by (auto; discriminate).
      destruct Hf as [->|[c ->]]; [reflexivity|].
      now rewrite lookupNode_below_file by (auto; discriminate).
    + change (lookupNode r (Dir sub')) with (lookup r sub').
      rewrite (IH _ _ _ Hsub Hr').
      destruct Hf as [->|(-> & -> & _)]; [reflexivity|].
      destruct r as [|x r]; [destruct Hr'; apply isPrefix_nil|reflexivity].
  - apply putFile_inv in H as [(-> & -> & Hf)|(Hp & sub & sub' & Hf & Hsub & ->)];
      now rewrite findEntry_setEntry_other.
Qed.

(** The directories above the file are directories afterwards. *)
Lemma putFile_lookup_above parents p d :
  forall es es' r,
    putFile parents p d es = inr es' ->
    isPrefix r p -> r <> p ->
    exists sub, lookup r es' = Some (Dir sub).
Proof.
  induction p as [|name p IH]; intros es es' r H Hr Hne; [discriminate|].
  destruct r as [|n r]; [rewrite lookup_nil; eauto|].
  destruct Hr as [c E]. simpl in E. injection E as <- E.
  assert (Hr' : isPrefix r p) by (now exists c).
  assert (Hne' : r <> p) by congruence.
  rewrite lookup_cons.
  apply putFile_inv in H as [(-> & -> & Hf)|(Hp & sub & sub' & Hf & Hsub & ->)];
    rewrite findEntry_setEntry_same.
  - destruct r; [congruence|]. destruct c; discriminate.
  - exact (IH _ _ _ Hsub Hr' Hne').
Qed.

Lemma fileAt_lookup p disk d :
  fileAt p disk = Some d <-> lookup p disk = Some (File d).
Proof.
  unfold fileAt. destruct (lookup p disk) as [[c| |sub]|]; split; congruence.
Qed.

Lemma putFile_fileAt_same parents p d es es' :
  putFile parents p d es = inr es' -> fileAt p es' = Some d.
Proof. intros H. apply fileAt_lookup. eapply putFile_lookup_same; eauto. Qed.

(** Every other file keeps its content. *)
Lemma putFile_fileAt_other parents p d es es' r :
  putFile parents p d es = inr es' -> r <> p -> fileAt r es' = fileAt r es.
Proof.
  intros H Hne.
  assert (Hdec : isPrefix r p \/ ~ isPrefix r p).
  { clear. revert p. induction r as [|x r IH]; intros p.
    - left. apply isPrefix_nil.
    - destruct p as [|y p].
      + right. intros [c E]. discriminate.
      + destruct (String.eqb_spec x y) as [->|Hxy].
        * destruct (IH p) as [Hp|Hp].
          -- left. now apply isPrefix_cons.
          -- right. intros Hq. apply Hp. now apply isPrefix_cons in Hq.
        * right. intros [c E]. simpl in E. congruence. }
  destruct Hdec as [Hp|Hp].
  - destruct (putFile_lookup_above _ _ _ _ _ _ H Hp Hne) as [sub Hsub].
    unfold fileAt. rewrite Hsub.
    (* before: the prefix was a directory or absent *)
    clear Hsub sub. revert es es' r H Hp Hne.
    induction p as [|name p IH]; intros es es' r H Hr Hne; [discriminate|].
    destruct r as [|n r]; [reflexivity|].
    destruct Hr as [c E]. simpl in E. injection E as <- E.
    assert (Hr' : isPrefix r p) by (now exists c).
    assert (Hne' : r <> p) by congruence.
    rewrite lookup_cons.
    apply putFile_inv in H as [(-> & -> & Hf)|(Hq & sub & sub' & Hf & Hsub & ->)].
    + destruct r; [congruence|]. destruct c; discriminate.
    + destruct Hf as [->|(-> & _)]; [|reflexivity].
      exact (IH _ _ _ Hsub Hr' Hne').
  - unfold fileAt. now rewrite (putFile_lookup_other _ _ _ _ _ _ H Hp).
Qed.

Lemma isPrefix_dec r p : isPrefix r p \/ ~ isPrefix r p.
Proof.
  revert p. induction r as [|x r IH]; intros p.
  - left. apply isPrefix_nil.
  - destruct p as [|y p].
    + right. intros [c E]. discriminate.
    + destruct (String.eqb_spec x y) as [->|Hxy].
      * destruct (IH p) as [Hp|Hp].
        -- left. now apply isPrefix_cons.
        -- right. intros Hq. apply Hp. now apply isPrefix_cons in Hq.
      * right. intros [c E]. simpl in E. congruence.
Qed.

Lemma path_eq_dec (a b : path) : a = b \/ a <> b.
Proof. destruct (list_eq_dec string_dec a b); auto. Qed.

(** When writing with parents succeeds: nothing but directories above
    the path, and no directory or unreadable entry at it. *)
Lemma putFile_parents_succeeds p d :
  forall es,
    p <> [] ->
    (forall r n, isPrefix r p -> r <> p -> lookup r es = Some n ->
                 exists sub, n = Dir sub) ->
    (forall n, lookup p es = Some n -> exists c, n = File c) ->
    exists es', putFile true p d es = inr es'.
Proof.
  induction p as [|name p IH]; intros es Hne Habove Hat; [contradiction|].
  destruct p as [|y p].
  - simpl. specialize (Hat). rewrite lookup_cons in Hat.
    destruct (findEntry name es) as [[c| |sub]|] eqn:E; eauto.
    + destruct (Hat _ eq_refl) as [c Hc]. discriminate.
    + destruct (Hat _ eq_refl) as [c Hc]. discriminate.
  - change (exists es',
      match findEntry name es with
      | Some (Dir sub) =>
          letR sub' := putFile true (y :: p) d sub in
          inr (setEntry name (Dir sub') es)
      | Some _ => inl ENOTDIR
      | None =>
          letR sub' := putFile true (y :: p) d [] in
          inr (setEntry name (Dir sub') es)
      end = inr es').
    assert (Hsub : forall sub,
               (findEntry name es = Some (Dir sub)
                \/ (findEntry name es = None /\ sub = [])) ->
               exists sub', putFile true (y :: p) d sub = inr sub').
    { intros sub Hf. apply IH; [discriminate| |].
      - intros r n Hr Hrne Hl. destruct Hf as [Hf|(Hf & ->)].
        + apply (Habove (name :: r) n).
          * now apply isPrefix_cons.
          * congruence.
          * rewrite lookup_cons, Hf. exact Hl.
        + destruct r; [|discriminate]. injection Hl as <-. eauto.
      - intros n Hl. destruct Hf as [Hf|(Hf & ->)]; [|discriminate].
        apply Hat. rewrite lookup_cons, Hf. exact Hl. }
    destruct (findEntry name es) as [[c| |sub]|] eqn:E.
    + destruct (Habove [name] (File c)) as [sub Hs]; try discriminate.
      * exists (y :: p). reflexivity.
      * rewrite lookup_cons, E. reflexivity.
    + destruct (Habove [name] Unreadable) as [sub Hs]; try discriminate.
      * exists (y :: p). reflexivity.
      * rewrite lookup_cons, E. reflexivity.
    + destruct (Hsub sub (or_introl eq_refl)) as [sub' ->]. simpl. eauto.
    + destruct (Hsub [] (or_intror (conj eq_refl eq_refl))) as [sub' ->]. simpl. eauto.
Qed.

(** [fs.writeFile] succeeds in an existing directory when no directory
    or unreadable entry has the name. *)
Lemma putFile_succeeds q name d :
  forall es sub,
    lookup q es = Some (Dir sub) ->
    (forall n, lookup (q ++ [name]) es = Some n -> exists c, n = File c) ->
    exists es', putFile false (q ++ [name]) d es = inr es'.
Proof.
  induction q as [|x q IH]; intros es sub Hq Hat.
  - simpl in *. rewrite lookup_cons in Hat.
    destruct (findEntry name es) as [[c| |s]|] eqn:E; eauto.
    + destruct (Hat _ eq_refl) as [c Hc]. discriminate.
    + destruct (Hat _ eq_refl) as [c Hc]. discriminate.
  - rewrite lookup_cons in Hq. rewrite <- app_comm_cons in *.
    destruct (findEntry x es) as [n|] eqn:E; [|discriminate].
    assert (exists s, n = Dir s) as [s ->].
    { destruct n as [c| |s]; eauto.
      - destruct q; discriminate.
      - destruct q; discriminate. }
    change (lookupNode q (Dir s)) with (lookup q s) in Hq.
    destruct (IH s sub Hq) as [s' Hs'].
    { intros n Hl. apply Hat. rewrite lookup_cons, E. exact Hl. }
    exists (setEntry x (Dir s') es).
    destruct (q ++ [name]) as [|y l] eqn:El; [destruct q; discriminate|].
    change (match findEntry x es with
            | Some (Dir sub) =>
                letR sub' := putFile false (y :: l) d sub in
                inr (setEntry x (Dir sub') es)
            | Some _ => inl ENOTDIR
            | None => inl ENOENT
            end = inr (setEntry x (Dir s') es)).
    rewrite E, Hs'. reflexivity.
Qed.

(** *** Making directories *)

Lemma mkdirp_inv name p' es es' :
  mkdirp (name :: p') es = inr es' ->
  exists sub sub',
    (findEntry name es = Some (Dir sub) \/ (findEntry name es = None /\ sub = []))
    /\ mkdirp p' sub = inr sub'
    /\ es' = setEntry name (Dir sub') es.
Proof.
  simpl. destruct (findEntry name es) as [[c| |sub]|] eqn:E; try discriminate.
  - destruct (mkdirp p' sub) as [e|sub'] eqn:Es; [discriminate|].
    intros H. injection H as <-. exists sub, sub'. auto.
  - destruct (mkdirp p' []) as [e|sub'] eqn:Es; [discriminate|].
    intros H. injection H as <-. exists [], sub'. auto.
Qed.

Lemma mkdirp_lookup_other p :
  forall es es' r,
    mkdirp p es = inr es' -> ~ isPrefix r p -> lookup r es' = lookup r es.
Proof.
  induction p as [|name p IH]; intros es es' r H Hr.
  - injection H as <-. reflexivity.
  - destruct r as [|n r]; [destruct Hr; apply isPrefix_nil|].
    rewrite !lookup_cons.
    apply mkdirp_inv in H as (sub & sub' & Hf & Hsub & ->).
    destruct (String.eqb_spec n name) as [->|Hn].
    + assert (Hr' : ~ isPrefix r p) by (intros Hp; apply Hr; now apply isPrefix_cons).
      rewrite findEntry_setEntry_same.
      change (lookupNode r (Dir sub')) with (lookup r sub').
      rewrite (IH _ _ _ Hsub Hr').
      destruct Hf as [->|(-> & ->)]; [reflexivity|].
      destruct r as [|x r]; [destruct Hr'; apply isPrefix_nil|reflexivity].
    + now rewrite findEntry_setEntry_other.
Qed.

Lemma mkdirp_lookup_above p :
  forall es es' r,
    mkdirp p es = inr es' -> isPrefix r p ->
    exists sub, lookup r es' = Some (Dir sub).
Proof.
  induction p as [|name p IH]; intros es es' r H Hr.
  - injection H as <-. destruct Hr as [c E]. destruct r; [|discriminate].
    rewrite lookup_nil. eauto.
  - destruct r as [|n r]; [rewrite lookup_nil; eauto|].
    destruct Hr as [c E]. simpl in E. injection E as <- E.
    apply mkdirp_inv in H as (sub & sub' & Hf & Hsub & ->).
    rewrite lookup_cons, findEntry_setEntry_same.
    apply (IH _ _ _ Hsub). now exists c.
Qed.

Lemma mkdirp_prefix_not_file p :
  forall es es' r d,
    mkdirp p es = inr es' -> isPrefix r p -> lookup r es <> Some (File d).
Proof.
  induction p as [|name p IH]; intros es es' r d H Hr.
  - destruct Hr as [c E]. destruct r; [|discriminate]. discriminate.
  - destruct r as [|n r]; [discriminate|].
    destruct Hr as [c E]. simpl in E. injection E as <- E.
    apply mkdirp_inv in H as (sub & sub' & Hf & Hsub & ->).
    rewrite lookup_cons. destruct Hf as [->|(-> & ->)]; [|discriminate].
    apply (IH _ _ _ _ Hsub). now exists c.
Qed.

(** Making directories changes no file. *)
Lemma mkdirp_fileAt p es es' r :
  mkdirp p es = inr es' -> fileAt r es' = fileAt r es.
Proof.
  intros H. destruct (isPrefix_dec r p) as [Hp|Hp].
  - destruct (mkdirp_lookup_above _ _ _ _ H Hp) as [sub Hs].
    unfold fileAt. rewrite Hs.
    destruct (lookup r es) as [[c| |s]|] eqn:E; auto.
    exfalso. exact (mkdirp_prefix_not_file _ _ _ _ _ H Hp E).
  - unfold fileAt. now rewrite (mkdirp_lookup_other _ _ _ _ H Hp).
Qed.


(** *** Removing a file *)

Lemma unlinkFile_inv name p' es es' :
  unlinkFile (name :: p') es = inr es' ->
  (p' = [] /\ es' = removeEntry name es
   /\ exists n, findEntry name es = Some n /\ forall sub, n <> Dir sub)
  \/ (p' <> [] /\ exists sub sub',
        findEntry name es = Some (Dir sub)
        /\ unlinkFile p' sub = inr sub'
        /\ es' = setEntry name (Dir sub') es).
Proof.
  destruct p' as [|y p'].
  - simpl. intros H. left. split; [reflexivity|].
    destruct (findEntry name es) as [[c| |sub]|] eqn:E; try discriminate;
      injection H as <-; split; auto; eexists; split; eauto; discriminate.
  - intros H. right. split; [discriminate|].
    change (match findEntry name es with
            | Some (Dir sub) =>
                letR sub' := unlinkFile (y :: p') sub in
                inr (setEntry name (Dir sub') es)
            | Some _ => inl ENOTDIR
            | None => inl ENOENT
            end = inr es') in H.
    destruct (findEntry name es) as [[c| |sub]|] eqn:E; try discriminate.
    destruct (unlinkFile (y :: p') sub) as [e|sub'] eqn:Es; [discriminate|].
    injection H as <-. exists sub, sub'. auto.
Qed.

(** *** Directories without duplicate names *)

Lemma uniqueNode_Dir es :
  uniqueNode (Dir es) =
  distinctNames (map fst es) && forallb (fun e => uniqueNode (snd e)) es.
Proof. reflexivity. Qed.

Lemma findEntry_None_names name es :
  findEntry name es = None -> existsb (String.eqb name) (map fst es) = false.
Proof.
  induction es as [|[n x] es IH]; simpl; [reflexivity|].
  rewrite (String.eqb_sym name n).
  destruct (String.eqb n name); [discriminate|]. exact IH.
Qed.

Lemma names_None_findEntry name es :
  existsb (String.eqb name) (map fst es) = false -> findEntry name es = None.
Proof.
  induction es as [|[n x] es IH]; simpl; [reflexivity|].
  rewrite (String.eqb_sym name n).
  destruct (String.eqb n name); [discriminate|]. exact IH.
Qed.

Lemma existsb_snoc (f : string -> bool) l x :
  existsb f (l ++ [x]) = existsb f l || f x.
Proof. rewrite existsb_app. simpl. now rewrite orb_false_r. Qed.

Lemma distinctNames_snoc l name :
  distinctNames l = true ->
  existsb (String.eqb name) l = false ->
  distinctNames (l ++ [name]) = true.
Proof.
  induction l as [|x l IH]; simpl; intros Hd Hn; [reflexivity|].
  apply andb_prop in Hd as [Hx Hd]. apply orb_false_elim in Hn as [Hnx Hn].
  rewrite existsb_snoc, (String.eqb_sym x name), Hnx, orb_false_r, Hx.
  simpl. auto.
Qed.

Lemma map_fst_setEntry name x es :
  map fst (setEntry name x es) =
  match findEntry name es with
  | Some _ => map fst es
  | None => map fst es ++ [name]
  end.
Proof.
  induction es as [|[n y] es IH]; simpl; [reflexivity|].
  destruct (String.eqb_spec n name) as [->|Hn]; simpl; [reflexivity|].
  rewrite IH. now destruct (findEntry name es).
Qed.

Lemma distinctNames_setEntry name x es :
  distinctNames (map fst es) = true ->
  distinctNames (map fst (setEntry name x es)) = true.
Proof.
  intros H. rewrite map_fst_setEntry.
  destruct (findEntry name es) eqn:E; [exact H|].
  apply distinctNames_snoc; [exact H|]. now apply findEntry_None_names.
Qed.

Lemma forallb_setEntry (f : string * node -> bool) name x es :
  forallb f es = true -> f (name, x) = true ->
  forallb f (setEntry name x es) = true.
Proof.
  intros H Hx. induction es as [|[n y] es IH]; simpl in *.
  - now rewrite Hx.
  - apply andb_prop in H as [Hy H].
    destruct (String.eqb n name); simpl.
    + now rewrite Hx, H.
    + now rewrite Hy, IH.
Qed.

Lemma existsb_removeEntry name m es :
  existsb (String.eqb m) (map fst es) = false ->
  existsb (String.eqb m) (map fst (removeEntry name es)) = false.
Proof.
  induction es as [|[n y] es IH]; simpl; [reflexivity|].
  intros H. apply orb_false_elim in H as [Hm H].
  destruct (String.eqb n name); simpl; [exact H|]. now rewrite Hm, IH.
Qed.

Lemma distinctNames_removeEntry name es :
  distinctNames (map fst es) = true ->
  distinctNames (map fst (removeEntry name es)) = true.
Proof.
  induction es as [|[n y] es IH]; simpl; [reflexivity|].
  intros H. apply andb_prop in H as [Hn H].
  destruct (String.eqb n name); simpl; [exact H|].
  rewrite IH by exact H. rewrite andb_true_r.
  apply negb_true_iff. apply existsb_removeEntry. now apply negb_true_iff.
Qed.

Lemma forallb_removeEntry (f : string * node -> bool) name es :
  forallb f es = true -> forallb f (removeEntry name es) = true.
Proof.
  induction es as [|[n y] es IH]; simpl; [reflexivity|].
  intros H. apply andb_prop in H as [Hy H].
  destruct (String.eqb n name); simpl; [exact H|]. now rewrite Hy, IH.
Qed.

Lemma findEntry_removeEntry_same name es :
  distinctNames (map fst es) = true ->
  findEntry name (removeEntry name es) = None.
Proof.
  induction es as [|[n y] es IH]; simpl; [reflexivity|].
  intros H. apply andb_prop in H as [Hn H].
  destruct (String.eqb_spec n name) as [->|Hne]; simpl.
  - apply names_None_findEntry. now apply negb_true_iff.
  - destruct (String.eqb_spec n name); [contradiction|]. auto.
Qed.

Lemma forallb_findEntry (f : string * node -> bool) name es n :
  forallb f es = true -> findEntry name es = Some n -> f (name, n) = true.
Proof.
  intros H E. apply findEntry_In in E.
  rewrite forallb_forall in H. exact (H _ E).
Qed.

Lemma uniqueNode_child name es n :
  uniqueNode (Dir es) = true -> findEntry name es = Some n -> uniqueNode n = true.
Proof.
  rewrite uniqueNode_Dir. intros H E. apply andb_prop in H as [_ H].
  exact (forallb_findEntry (fun e => uniqueNode (snd e)) name es n H E).
Qed.

Lemma uniqueNode_setEntry name x es :
  uniqueNode (Dir es) = true -> uniqueNode x = true ->
  uniqueNode (Dir (setEntry name x es)) = true.
Proof.
  rewrite !uniqueNode_Dir. intros H Hx. apply andb_prop in H as [Hd Hf].
  rewrite distinctNames_setEntry by exact Hd.
  now rewrite (forallb_setEntry (fun e => uniqueNode (snd e))).
Qed.

Lemma uniqueNode_removeEntry name es :
  uniqueNode (Dir es) = true -> uniqueNode (Dir (removeEntry name es)) = true.
Proof.
  rewrite !uniqueNode_Dir. intros H. apply andb_prop in H as [Hd Hf].
  rewrite distinctNames_removeEntry by exact Hd.
  now rewrite (forallb_removeEntry (fun e => uniqueNode (snd e))).
Qed.

Lemma putFile_unique parents p d :
  forall es es',
    uniqueDisk es = true -> putFile parents p d es = inr es' ->
    uniqueDisk es' = true.
Proof.
  unfold uniqueDisk.
  induction p as [|name p IH]; intros es es' Hu H; [discriminate|].
  apply putFile_inv in H as [(-> & -> & _)|(Hp & sub & sub' & Hf & Hsub & ->)].
  - now apply uniqueNode_setEntry.
  - apply uniqueNode_setEntry; [exact Hu|].
    apply (IH sub); [|exact Hsub].
    destruct Hf as [Hf|(_ & -> & _)]; [|reflexivity].
    exact (uniqueNode_child _ _ _ Hu Hf).
Qed.

Lemma mkdirp_unique p :
  forall es es',
    uniqueDisk es = true -> mkdirp p es = inr es' -> uniqueDisk es' = true.
Proof.
  unfold uniqueDisk.
  induction p as [|name p IH]; intros es es' Hu H.
  - now injection H as <-.
  - apply mkdirp_inv in H as (sub & sub' & Hf & Hsub & ->).
    apply uniqueNode_setEntry; [exact Hu|].
    apply (IH sub); [|exact Hsub].
    destruct Hf as [Hf|(_ & ->)]; [|reflexivity].
    exact (uniqueNode_child _ _ _ Hu Hf).
Qed.

Lemma unlinkFile_unique p :
  forall es es',
    uniqueDisk es = true -> unlinkFile p es = inr es' -> uniqueDisk es' = true.
Proof.
  unfold uniqueDisk.
  induction p as [|name p IH]; intros es es' Hu H; [discriminate|].
  apply unlinkFile_inv in H as [(-> & -> & _)|(Hp & sub & sub' & Hf & Hsub & ->)].
  - now apply uniqueNode_removeEntry.
  - apply uniqueNode_setEntry; [exact Hu|].
    apply (IH sub); [|exact Hsub].
    exact (uniqueNode_child _ _ _ Hu Hf).
Qed.

(** On a disk without duplicate names, removing a file changes nothing
    at any other path. *)
Lemma unlinkFile_kindAt_other p :
  forall es es' r,
    uniqueDisk es = true ->
    unlinkFile p es = inr es' -> r <> p -> kindAt r es' = kindAt r es.
Proof.
  unfold uniqueDisk.
  induction p as [|name p IH]; intros es es' r Hu H Hne; [discriminate|].
  destruct r as [|n r]; [reflexivity|].
  unfold kindAt. rewrite !lookup_cons.
  destruct (String.eqb_spec n name) as [->|Hn].
  - apply unlinkFile_inv in H as [(-> & -> & x & Hx & Hnd)|(Hp & sub & sub' & Hf & Hsub & ->)].
    + rewrite uniqueNode_Dir in Hu. apply andb_prop in Hu as [Hd _].
      rewrite (findEntry_removeEntry_same _ _ Hd), Hx.
      assert (r <> []) by congruence.
      now rewrite lookupNode_below_file.
    + rewrite findEntry_setEntry_same, Hf.
      assert (Hne' : r <> p) by congruence.
      apply (IH sub sub' r (uniqueNode_child _ _ _ Hu Hf) Hsub Hne').
  - apply unlinkFile_inv in H as [(-> & -> & _)|(Hp & sub & sub' & Hf & Hsub & ->)].
    + now rewrite findEntry_removeEntry_other.
    + now rewrite findEntry_setEntry_other.
Qed.

Lemma fileAt_kindAt p disk : fileAt p disk =
  match kindAt p disk with KFile d => Some d | _ => None end.
Proof.
  unfold fileAt, kindAt. now destruct (lookup p disk) as [[c| |sub]|].
Qed.

Lemma unlinkFile_fileAt_other p es es' r :
  uniqueDisk es = true ->
  unlinkFile p es = inr es' -> r <> p -> fileAt r es' = fileAt r es.
Proof.
  intros Hu H Hne. rewrite !fileAt_kindAt.
  now rewrite (unlinkFile_kindAt_other p es es' r Hu H Hne).
Qed.

(* ===================================================================== *)
(** ** Paths and names *)
(* ===================================================================== *)

Lemma splitSlash_nonempty s : splitSlash s <> [].
Proof.
  destruct s as [|c s]; simpl; [discriminate|].
  destruct (Ascii.eqb c "/"); [discriminate|].
  destruct (splitSlash s); discriminate.
Qed.

Lemma splitSlash_plain s : contains "/" s = false -> splitSlash s = [s].
Proof.
  induction s as [|c s IH]; simpl; [reflexivity|].
  intros H. apply orb_false_elim in H as [Hc Hs].
  rewrite Hc, (IH Hs). reflexivity.
Qed.

Lemma splitSlash_app_slash a b :
  splitSlash (a ++ String "/" b) = splitSlash a ++ splitSlash b.
Proof.
  induction a as [|c a IH]; simpl; [reflexivity|].
  destruct (Ascii.eqb c "/"); rewrite IH; [reflexivity|].
  destruct (splitSlash a) eqn:E; [now destruct (splitSlash_nonempty a)|reflexivity].
Qed.

(** Appending slash-free text extends the last segment. *)
Lemma splitSlash_app_plain a b :
  contains "/" b = false ->
  exists init last,
    splitSlash a = init ++ [last]
    /\ splitSlash (a ++ b) = init ++ [(last ++ b)%string].
Proof.
  intros Hb. induction a as [|c a (init & last & E1 & E2)]; simpl.
  - exists [], ""%string. split; [reflexivity|]. now apply splitSlash_plain.
  - destruct (Ascii.eqb c "/").
    + exists ("" :: init)%string, last. simpl. now rewrite E1, E2.
    + rewrite E1, E2. destruct init as [|i init]; simpl.
      * exists [], (String c last). split; reflexivity.
      * exists (String c i :: init), last. split; reflexivity.
Qed.

Lemma lastAscii_app_nonempty a b :
  b <> ""%string -> lastAscii (a ++ b) = lastAscii b.
Proof.
  intros Hb. induction a as [|c a IH]; simpl; [reflexivity|].
  destruct (a ++ b)%string eqn:E; [|exact IH].
  destruct a; simpl in E; [contradiction|discriminate].
Qed.

Lemma lastAscii_contains s c : lastAscii s = Some c -> contains c s = true.
Proof.
  induction s as [|x s IH]; simpl; [discriminate|].
  destruct s as [|y s].
  - intros H. injection H as ->. now rewrite Ascii.eqb_refl.
  - intros H. rewrite (IH H). apply orb_true_r.
Qed.

Lemma pushSegment_ordinary stack seg :
  ordinarySegment seg = true -> pushSegment stack seg = stack ++ [seg].
Proof.
  unfold ordinarySegment, pushSegment. intros H.
  apply andb_prop in H as [H H3]. apply andb_prop in H as [H1 H2].
  apply negb_true_iff in H1, H2, H3. now rewrite H1, H2, H3.
Qed.

Lemma validName_ordinary name : validName name = true -> ordinarySegment name = true.
Proof.
  unfold validName, ordinarySegment. intros H.
  apply andb_prop in H as [H _]. apply andb_prop in H as [H _]. exact H.
Qed.

Lemma validName_no_slash name : validName name = true -> contains "/" name = false.
Proof.
  unfold validName. intros H.
  apply andb_prop in H as [H _]. apply andb_prop in H as [_ H].
  now apply negb_true_iff.
Qed.

Lemma validName_no_backslash name :
  validName name = true -> contains "\" name = false.
Proof.
  unfold validName. intros H. apply andb_prop in H as [_ H]. now apply negb_true_iff.
Qed.

Lemma validName_nonempty name : validName name = true -> name <> ""%string.
Proof. intros H ->. discriminate. Qed.

Lemma ordinary_of_last seg c :
  lastAscii seg = Some c -> c <> "."%char -> ordinarySegment seg = true.
Proof.
  intros H Hc. unfold ordinarySegment.
  destruct (String.eqb_spec seg "") as [->|_]; [discriminate|].
  destruct (String.eqb_spec seg ".") as [->|_]; [simpl in H; congruence|].
  destruct (String.eqb_spec seg "..") as [->|_]; [simpl in H; congruence|].
  reflexivity.
Qed.

(** A path joined with a plain name is the path with the name added. *)
Lemma pathJoin_plain base name :
  contains "/" name = false -> ordinarySegment name = true ->
  pathJoin base name = base ++ [name].
Proof.
  intros Hs Ho. unfold pathJoin. rewrite (splitSlash_plain _ Hs). simpl.
  now apply pushSegment_ordinary.
Qed.

(** Whatever the text before it, a join that ends in slash-free text with
    an ordinary last character ends in a segment with that text. *)
Lemma pathJoin_suffix base s suffix c :
  contains "/" suffix = false ->
  lastAscii suffix = Some c -> c <> "."%char ->
  exists q last, pathJoin base (s ++ suffix) = q ++ [(last ++ suffix)%string].
Proof.
  intros Hs Hl Hc.
  destruct (splitSlash_app_plain s suffix Hs) as (init & last & _ & E).
  unfold pathJoin. rewrite E, fold_left_app. simpl.
  exists (fold_left pushSegment init base), last.
  apply pushSegment_ordinary. apply ordinary_of_last with c; [|exact Hc].
  rewrite lastAscii_app_nonempty; [exact Hl|]. intros ->. discriminate.
Qed.

Lemma decimal_no_slash z : contains "/" (decimal z) = false.
Proof.
  unfold decimal.
  assert (Hu : forall u, contains "/" (NilEmpty.string_of_uint u) = false).
  { induction u; simpl; auto. }
  destruct (Z.to_int z); simpl; auto.
Qed.

Lemma contains_app c a b : contains c (a ++ b) = contains c a || contains c b.
Proof.
  induction a as [|x a IH]; simpl; [reflexivity|].
  now rewrite IH, orb_assoc.
Qed.

Section StoragePaths.

Variable snapshotsDir : path.

Lemma metadataPath_eq : metadataPath snapshotsDir = snapshotsDir ++ ["metadata.json"].
Proof. reflexivity. Qed.

Lemma zipPathOf_snapshot now :
  zipPathOf snapshotsDir (snapshotIdAt now) =
  snapshotsDir ++ [(snapshotIdAt now ++ ".zip")%string].
Proof.
  apply pathJoin_plain.
  - unfold snapshotIdAt. rewrite !contains_app, decimal_no_slash. reflexivity.
  - reflexivity.
Qed.

Lemma zipPathOf_backup now :
  zipPathOf snapshotsDir (backupIdAt now) =
  snapshotsDir ++ [(backupIdAt now ++ ".zip")%string].
Proof.
  apply pathJoin_plain.
  - unfold backupIdAt. rewrite !contains_app, decimal_no_slash. reflexivity.
  - reflexivity.
Qed.

(** No container is the index document. *)
Lemma zipPathOf_not_metadata snapshotId :
  zipPathOf snapshotsDir snapshotId <> metadataPath snapshotsDir.
Proof.
  unfold zipPathOf. rewrite metadataPath_eq.
  destruct (pathJoin_suffix snapshotsDir snapshotId ".zip" "p")
    as (q & last & ->); try reflexivity; try discriminate.
  intros E. apply app_inj_tail in E as [_ E]. apply (f_equal lastAscii) in E.
  rewrite lastAscii_app_nonempty in E by discriminate. discriminate.
Qed.

End StoragePaths.

(* ===================================================================== *)
(** ** Invariants of calls on the disk *)
(* ===================================================================== *)

Section Keeps.

Variable Inv : fs -> Prop.

Lemma keeps_ret {A} (a : A) (Q : A -> Prop) : Q a -> keeps Inv (ret a) Q.
Proof. intros H disk Hi. simpl. split; [exact Hi|]. intros a' E. now injection E as <-. Qed.

Lemma keeps_bind {A B} (m : IO A) (k : A -> IO B) (Q : A -> Prop) (R : B -> Prop) :
  keeps Inv m Q -> (forall a, Q a -> keeps Inv (k a) R) -> keeps Inv (bind m k) R.
Proof.
  intros Hm Hk disk Hi. unfold bind. destruct (Hm disk Hi) as [Hi' Hq].
  destruct (m disk) as [[e|a] disk']; simpl in *.
  - split; [exact Hi'|discriminate].
  - exact (Hk a (Hq a eq_refl) disk' Hi').
Qed.

Lemma keeps_tryCatch {A} (m : IO A) (h : exn -> IO A) (Q : A -> Prop) :
  keeps Inv m Q -> (forall e, keeps Inv (h e) Q) -> keeps Inv (tryCatch m h) Q.
Proof.
  intros Hm Hh disk Hi. unfold tryCatch. destruct (Hm disk Hi) as [Hi' Hq].
  destruct (m disk) as [[e|a] disk']; simpl in *.
  - exact (Hh e disk' Hi').
  - split; [exact Hi'|exact Hq].
Qed.

Lemma keeps_inspect {A} (f : fs -> result A) (Q : A -> Prop) :
  (forall disk a, Inv disk -> f disk = inr a -> Q a) -> keeps Inv (inspect f) Q.
Proof. intros H disk Hi. simpl. split; [exact Hi|]. intros a E. eauto. Qed.

Lemma keeps_change (f : fs -> result fs) :
  (forall disk disk', Inv disk -> f disk = inr disk' -> Inv disk') ->
  keeps Inv (change f) (fun _ => True).
Proof.
  intros H disk Hi. unfold change. destruct (f disk) as [e|disk'] eqn:E; simpl.
  - split; [exact Hi|discriminate].
  - split; [eauto|trivial].
Qed.

End Keeps.

(* ===================================================================== *)
(** ** The index *)
(* ===================================================================== *)

Lemma listSnapshots_listed sd disk :
  listSnapshots sd disk = (inr (listed sd disk), disk).
Proof.
  unfold listed, listSnapshots, tryCatch, bind, fs_readFile, inspect.
  destruct (lookup (metadataPath sd) disk) as [[[s|es|l]| |sub]|]; reflexivity.
Qed.

Lemma listed_fileAt sd disk :
  listed sd disk =
  match fileAt (metadataPath sd) disk with
  | Some (JsonDoc l) => l
  | _ => []
  end.
Proof.
  unfold listed, listSnapshots, tryCatch, bind, fs_readFile, inspect, fileAt.
  destruct (lookup (metadataPath sd) disk) as [[[s|es|l]| |sub]|]; reflexivity.
Qed.

Lemma insertNewestFirst_sorted x l :
  newestFirst l -> newestFirst (insertNewestFirst x l).
Proof.
  unfold newestFirst. induction l as [|y l IH]; intros Hs; simpl.
  - repeat constructor.
  - destruct (Z.leb_spec (timestamp y) (timestamp x)) as [Hle|Hlt].
    + constructor; [exact Hs|]. constructor. exact Hle.
    + inversion Hs as [|? ? Hs' Hhd]; subst. constructor; [auto|].
      destruct l as [|z l]; simpl.
      * constructor. unfold newerOrSame. lia.
      * destruct (Z.leb_spec (timestamp z) (timestamp x)).
        -- constructor. unfold newerOrSame. lia.
        -- constructor. now inversion Hhd.
Qed.

Lemma sortNewestFirst_sorted l : newestFirst (sortNewestFirst l).
Proof.
  induction l as [|x l IH]; simpl; [constructor|].
  now apply insertNewestFirst_sorted.
Qed.

Lemma insertNewestFirst_perm x l : Permutation (x :: l) (insertNewestFirst x l).
Proof.
  induction l as [|y l IH]; simpl; [reflexivity|].
  destruct (timestamp y <=? timestamp x)%Z; [reflexivity|].
  rewrite perm_swap. now constructor.
Qed.

Lemma sortNewestFirst_perm l : Permutation l (sortNewestFirst l).
Proof.
  induction l as [|x l IH]; simpl; [constructor|].
  rewrite <- insertNewestFirst_perm. now constructor.
Qed.

Lemma newerOrSame_trans a b c : newerOrSame a b -> newerOrSame b c -> newerOrSame a c.
Proof. unfold newerOrSame. lia. Qed.

Lemma newestFirst_filter (f : SnapshotMetadata -> bool) l :
  newestFirst l -> newestFirst (filter f l).
Proof.
  unfold newestFirst. intros H.
  apply Sorted_StronglySorted in H; [|exact newerOrSame_trans].
  apply StronglySorted_Sorted.
  induction H as [|x l Hs IH Hall]; simpl; [constructor|].
  destruct (f x); [|exact IH].
  constructor; [exact IH|].
  rewrite Forall_forall in *. intros y Hy. apply filter_In in Hy as [Hy _]. auto.
Qed.

Section IndexOrder.

Variable test : string -> string -> result bool.
Variable byteLength : data -> Z.
Variable snapshotsDir : path.

Lemma keeps_mkdir p : keeps (indexSorted snapshotsDir) (fs_mkdir_recursive p) (fun _ => True).
Proof.
  apply keeps_change. intros disk disk' [Hu Hs] H. split.
  - exact (mkdirp_unique _ _ _ Hu H).
  - rewrite listed_fileAt in *. now rewrite (mkdirp_fileAt _ _ _ _ H).
Qed.

Lemma keeps_writeFile_other p d :
  p <> metadataPath snapshotsDir ->
  keeps (indexSorted snapshotsDir) (fs_writeFile p d) (fun _ => True).
Proof.
  intros Hp. apply keeps_change. intros disk disk' [Hu Hs] H. split.
  - exact (putFile_unique _ _ _ _ _ Hu H).
  - rewrite listed_fileAt in *.
    rewrite (putFile_fileAt_other _ _ _ _ _ _ H); auto.
Qed.

Lemma keeps_unlink_other p :
  p <> metadataPath snapshotsDir ->
  keeps (indexSorted snapshotsDir) (fs_unlink p) (fun _ => True).
Proof.
  intros Hp. apply keeps_change. intros disk disk' [Hu Hs] H. split.
  - exact (unlinkFile_unique _ _ _ Hu H).
  - rewrite listed_fileAt in *.
    rewrite (unlinkFile_fileAt_other _ _ _ _ Hu H); auto.
Qed.

Lemma keeps_listSnapshots :
  keeps (indexSorted snapshotsDir) (listSnapshots snapshotsDir) newestFirst.
Proof.
  intros disk [Hu Hs]. rewrite listSnapshots_listed. simpl.
  split; [now split|]. intros l E. now injection E as <-.
Qed.

Lemma keeps_saveMetadata l :
  newestFirst l ->
  keeps (indexSorted snapshotsDir) (saveMetadata snapshotsDir l) (fun _ => True).
Proof.
  intros Hl. apply keeps_change. intros disk disk' [Hu Hs] H. split.
  - exact (putFile_unique _ _ _ _ _ Hu H).
  - rewrite listed_fileAt. now rewrite (putFile_fileAt_same _ _ _ _ _ H).
Qed.

Lemma keeps_any_inspect {A} (f : fs -> result A) :
  keeps (indexSorted snapshotsDir) (inspect f) (fun _ => True).
Proof. apply keeps_inspect. trivial. Qed.

Lemma keeps_saveSnapshot now workspaceRoot options :
  keeps (indexSorted snapshotsDir)
    (saveSnapshot test byteLength snapshotsDir now workspaceRoot options)
    (fun _ => True).
Proof.
  unfold saveSnapshot.
  apply keeps_bind with (Q := fun _ => True).
  { apply keeps_tryCatch; [apply keeps_any_inspect|]. intros e. apply keeps_mkdir. }
  intros _ _. apply keeps_bind with (Q := fun _ => True).
  { unfold addFilesToZip. apply keeps_bind with (Q := fun _ => True);
      [apply keeps_any_inspect|]. intros es _. apply keeps_any_inspect. }
  intros st _. apply keeps_bind with (Q := fun _ => True).
  { apply keeps_writeFile_other. apply zipPathOf_not_metadata. }
  intros _ _. apply keeps_bind with (Q := fun _ => True).
  { apply keeps_any_inspect. }
  intros sz _. apply keeps_bind with (Q := fun _ => True).
  { unfold updateMetadata. apply keeps_bind with (Q := newestFirst).
    - apply keeps_listSnapshots.
    - intros l _. apply keeps_saveMetadata. apply sortNewestFirst_sorted. }
  intros _ _. now apply keeps_ret.
Qed.

Lemma keeps_deleteSnapshot snapshotId :
  keeps (indexSorted snapshotsDir) (deleteSnapshot snapshotsDir snapshotId) (fun _ => True).
Proof.
  unfold deleteSnapshot.
  apply keeps_bind with (Q := fun _ => True).
  { apply keeps_tryCatch.
    - apply keeps_unlink_other. apply zipPathOf_not_metadata.
    - intros e. now apply keeps_ret. }
  intros _ _. apply keeps_bind with (Q := newestFirst).
  { apply keeps_listSnapshots. }
  intros l Hl. apply keeps_saveMetadata. now apply newestFirst_filter.
Qed.

Lemma perform_indexSorted o disk :
  indexSorted snapshotsDir disk ->
  indexSorted snapshotsDir (perform test byteLength snapshotsDir o disk).
Proof.
  intros Hi. destruct o as [now root options|snapshotId]; simpl.
  - apply (keeps_saveSnapshot now root options disk Hi).
  - apply (keeps_deleteSnapshot snapshotId disk Hi).
Qed.

Lemma performAll_indexSorted ops :
  forall disk,
    indexSorted snapshotsDir disk ->
    indexSorted snapshotsDir (performAll test byteLength snapshotsDir ops disk).
Proof.
  induction ops as [|o ops IH]; intros disk Hi; simpl; [exact Hi|].
  apply IH. now apply perform_indexSorted.
Qed.

End IndexOrder.

(** C6: starting from an empty index, after any sequence of saveSnapshot
    and deleteSnapshot calls (those that throw included), listSnapshots
    returns its records sorted by timestamp, newest first. *)
Theorem listSnapshots_newest_first test byteLength snapshotsDir ops disk :
  uniqueDisk disk = true ->
  listed snapshotsDir disk = [] ->
  exists l,
    fst (listSnapshots snapshotsDir
           (performAll test byteLength snapshotsDir ops disk)) = inr l
    /\ newestFirst l.
Proof.
  intros Hu He. rewrite listSnapshots_listed. simpl. eexists. split; [reflexivity|].
  apply (performAll_indexSorted test byteLength snapshotsDir ops disk).
  split; [exact Hu|]. rewrite He. constructor.
Qed.

Lemma listSnapshots_newest_first_witness :
  uniqueDisk sampleDisk = true
  /\ listed sampleStorage sampleDisk = []
  /\ exists l,
       fst (listSnapshots sampleStorage
              (performAll RegExp_test nominalLength sampleStorage sampleOps sampleDisk))
       = inr l
       /\ newestFirst l.
Proof.
  split; [reflexivity|]. split; [reflexivity|].
  apply (listSnapshots_newest_first RegExp_test nominalLength sampleStorage
           sampleOps sampleDisk); reflexivity.
Defined.

Example sampleOps_listed :
  map id (listed sampleStorage
            (performAll RegExp_test nominalLength sampleStorage sampleOps sampleDisk))
  = ["snapshot_3000"; "snapshot_2000"]%string.
Proof. reflexivity. Qed.

(* ===================================================================== *)
(** ** saveSnapshot, step by step *)
(* ===================================================================== *)

Lemma saveSnapshot_inv test byteLength sd now root options disk m disk' :
  saveSnapshot test byteLength sd now root options disk = (inr m, disk') ->
  exists disk0 entries st disk1,
    ensureSnapshotsDir sd disk = (inr tt, disk0)
    /\ lookup root disk0 = Some (Dir entries)
    /\ addDirectory test options entries "" (mkScan [] 0) = inr st
    /\ putFile false (zipPathOf sd (snapshotIdAt now)) (ZipBuffer (zip st)) disk0
       = inr disk1
    /\ m = mkMetadata (snapshotIdAt now) now (optMessage options) (count st)
             (byteLength (ZipBuffer (zip st))) root
    /\ putFile false (metadataPath sd)
         (JsonDoc (sortNewestFirst (listed sd disk1 ++ [m]))) disk1 = inr disk'.
Proof.
  unfold saveSnapshot, bind at 1.
  destruct (ensureSnapshotsDir sd disk) as [[e|[]] disk0] eqn:E0; [discriminate|].
  unfold bind at 1, addFilesToZip, bind at 1, fs_readdir, inspect.
  destruct (lookup root disk0) as [[c| |entries]|] eqn:El; try discriminate.
  destruct (addDirectory test options entries "" (mkScan [] 0)) as [e|st] eqn:Es;
    [discriminate|].
  unfold bind at 1, fs_writeFile, change.
  destruct (putFile false (zipPathOf sd (snapshotIdAt now)) (ZipBuffer (zip st)) disk0)
    as [e|disk1] eqn:Ew; [discriminate|].
  unfold bind at 1, fs_stat_size, inspect.
  assert (Hz := putFile_lookup_same _ _ _ _ _ Ew). rewrite Hz.
  unfold bind at 1, updateMetadata, bind at 1.
  rewrite listSnapshots_listed. unfold saveMetadata, fs_writeFile, change.
  match goal with
  | |- context [putFile false (metadataPath sd) ?d disk1] =>
      destruct (putFile false (metadataPath sd) d disk1) as [e|disk2] eqn:Em
  end; [discriminate|].
  unfold ret. intros H. injection H as <- <-.
  exists disk0, entries, st, disk1. repeat split; auto.
Qed.

(** After a capture that returned, the container holds what the scan
    collected. *)
Lemma saveSnapshot_container test byteLength sd now root options disk m disk' :
  saveSnapshot test byteLength sd now root options disk = (inr m, disk') ->
  exists disk0 entries st,
    ensureSnapshotsDir sd disk = (inr tt, disk0)
    /\ lookup root disk0 = Some (Dir entries)
    /\ addDirectory test options entries "" (mkScan [] 0) = inr st
    /\ id m = snapshotIdAt now
    /\ fileCount m = count st
    /\ fileAt (zipPathOf sd (id m)) disk' = Some (ZipBuffer (zip st)).
Proof.
  intros H. apply saveSnapshot_inv in H
    as (disk0 & entries & st & disk1 & E0 & El & Es & Ew & -> & Em).
  exists disk0, entries, st. repeat split; auto. simpl.
  rewrite (putFile_fileAt_other _ _ _ _ _ _ Em).
  - exact (putFile_fileAt_same _ _ _ _ _ Ew).
  - apply zipPathOf_not_metadata.
Qed.

(* ===================================================================== *)
(** ** Identifiers *)
(* ===================================================================== *)

Lemma decimal_inj a b : decimal a = decimal b -> a = b.
Proof.
  unfold decimal. intros H. apply DecimalZ.to_int_inj.
  assert (E : Some (Z.to_int a) = Some (Z.to_int b)).
  { rewrite <- (NilEmpty.isi (Z.to_int a)), <- (NilEmpty.isi (Z.to_int b)).
    now rewrite H. }
  now injection E.
Qed.

Lemma snapshotIdAt_inj a b : snapshotIdAt a = snapshotIdAt b <-> a = b.
Proof.
  split; [|now intros ->]. unfold snapshotIdAt. simpl. intros H.
  injection H as H. now apply decimal_inj.
Qed.

(** C7 as stated fails: two captures in the same millisecond get the same
    identifier, and the index then lists it twice. *)
Lemma saveSnapshot_same_timestamp_same_id :
  let save := saveSnapshot RegExp_test nominalLength sampleStorage 1000 ["ws"] noOptions in
  exists m1 disk1 m2 disk2,
    save sampleDisk = (inr m1, disk1)
    /\ save disk1 = (inr m2, disk2)
    /\ id m1 = id m2
    /\ map id (listed sampleStorage disk2) = ["snapshot_1000"; "snapshot_1000"]%string.
Proof.
  simpl. do 4 eexists. split; [vm_compute; reflexivity|].
  split; [vm_compute; reflexivity|]. split; reflexivity.
Qed.

(** C7 (amended): the identifier saveSnapshot gives a record is
    [snapshot_] followed by the creation timestamp in decimal, with no
    disambiguator; two captures get the same identifier exactly when
    they have the same creation timestamp. *)
Theorem saveSnapshot_id_is_timestamp
  test byteLength sd
  now1 root1 options1 disk1 m1 disk1'
  now2 root2 options2 disk2 m2 disk2' :
  saveSnapshot test byteLength sd now1 root1 options1 disk1 = (inr m1, disk1') ->
  saveSnapshot test byteLength sd now2 root2 options2 disk2 = (inr m2, disk2') ->
  id m1 = ("snapshot_" ++ decimal now1)%string
  /\ timestamp m1 = now1
  /\ id m2 = ("snapshot_" ++ decimal now2)%string
  /\ timestamp m2 = now2
  /\ (id m1 = id m2 <-> now1 = now2).
Proof.
  intros H1 H2.
  apply saveSnapshot_inv in H1 as (? & ? & ? & ? & _ & _ & _ & _ & -> & _).
  apply saveSnapshot_inv in H2 as (? & ? & ? & ? & _ & _ & _ & _ & -> & _).
  simpl. repeat split; auto.
  - intros H. now apply (snapshotIdAt_inj now1 now2).
  - now intros ->.
Qed.

Lemma saveSnapshot_id_is_timestamp_witness :
  sampleSave 1000 sampleDisk = (inr (sampleRecord 1000), diskAfterSampleSave)
  /\ sampleSave 2000 diskAfterSampleSave = (inr (sampleRecord 2000), diskAfterSecondSave)
  /\ id (sampleRecord 1000) = ("snapshot_" ++ decimal 1000)%string
  /\ timestamp (sampleRecord 1000) = 1000%Z
  /\ id (sampleRecord 2000) = ("snapshot_" ++ decimal 2000)%string
  /\ timestamp (sampleRecord 2000) = 2000%Z
  /\ (id (sampleRecord 1000) = id (sampleRecord 2000) <-> 1000%Z = 2000%Z).
Proof.
  assert (H1 : sampleSave 1000 sampleDisk = (inr (sampleRecord 1000), diskAfterSampleSave))
    by (vm_compute; reflexivity).
  assert (H2 : sampleSave 2000 diskAfterSampleSave
               = (inr (sampleRecord 2000), diskAfterSecondSave))
    by (vm_compute; reflexivity).
  split; [exact H1|]. split; [exact H2|].
  exact (saveSnapshot_id_is_timestamp RegExp_test nominalLength sampleStorage
           1000 ["ws"]%string noOptions sampleDisk (sampleRecord 1000) diskAfterSampleSave
           2000 ["ws"]%string noOptions diskAfterSampleSave (sampleRecord 2000)
           diskAfterSecondSave H1 H2).
Defined.

(* ===================================================================== *)
(** ** deleteSnapshot *)
(* ===================================================================== *)

Lemma storageReady_iff sd disk :
  storageReady sd disk = true <->
  uniqueDisk disk = true
  /\ (exists sub, lookup sd disk = Some (Dir sub))
  /\ (forall n, lookup (metadataPath sd) disk = Some n -> exists c, n = File c).
Proof.
  unfold storageReady, kindAt. rewrite !andb_true_iff. split.
  - intros [[Hu Hd] Hm]. split; [exact Hu|]. split.
    + destruct (lookup sd disk) as [[c| |sub]|]; try discriminate. eauto.
    + intros n E. rewrite E in Hm. destruct n; try discriminate. eauto.
  - intros (Hu & [sub Hd] & Hm). rewrite Hd. repeat split; auto.
    destruct (lookup (metadataPath sd) disk) as [n|]; [|reflexivity].
    destruct (Hm n eq_refl) as [c ->]. reflexivity.
Qed.

Lemma unlinkFile_target p :
  forall es es',
    unlinkFile p es = inr es' ->
    exists n, lookup p es = Some n /\ forall sub, n <> Dir sub.
Proof.
  induction p as [|name p IH]; intros es es' H; [discriminate|].
  rewrite lookup_cons.
  apply unlinkFile_inv in H as [(-> & -> & x & Hx & Hnd)|(Hp & sub & sub' & Hf & Hsub & ->)].
  - rewrite Hx. simpl. eauto.
  - rewrite Hf. exact (IH _ _ Hsub).
Qed.

(** The [try { unlink } catch {}] of [deleteSnapshot]: whether or not
    the container was there, the storage stays usable and the index
    document is as it was. *)
Lemma unlink_attempt_ready sd snapshotId disk :
  storageReady sd disk = true ->
  exists disk',
    tryCatch (fs_unlink (zipPathOf sd snapshotId)) (fun _ => ret tt) disk
    = (inr tt, disk')
    /\ storageReady sd disk' = true
    /\ listed sd disk' = listed sd disk.
Proof.
  intros Hr. unfold tryCatch, fs_unlink, change.
  destruct (unlinkFile (zipPathOf sd snapshotId) disk) as [e|disk'] eqn:E; simpl.
  - exists disk. auto.
  - exists disk'. split; [reflexivity|].
    pose proof Hr as Hr0. apply storageReady_iff in Hr as (Hu & [sub Hd] & Hm).
    assert (Hk : forall r, r <> zipPathOf sd snapshotId ->
                           kindAt r disk' = kindAt r disk).
    { intros r Hne. exact (unlinkFile_kindAt_other _ _ _ _ Hu E Hne). }
    split.
    + unfold storageReady. rewrite (unlinkFile_unique _ _ _ Hu E).
      rewrite !Hk.
      * unfold storageReady in Hr0. now rewrite Hu in Hr0.
      * intros Hc. symmetry in Hc. exact (zipPathOf_not_metadata sd snapshotId Hc).
      * intros Hc. destruct (unlinkFile_target _ _ _ E) as (n & Hn & Hnd).
        rewrite <- Hc, Hd in Hn. injection Hn as <-. now destruct (Hnd sub).
    + rewrite !listed_fileAt, !fileAt_kindAt, Hk; [reflexivity|].
      intros Hc. symmetry in Hc. exact (zipPathOf_not_metadata sd snapshotId Hc).
Qed.

Lemma deleteSnapshot_ready sd snapshotId disk :
  storageReady sd disk = true ->
  exists disk',
    deleteSnapshot sd snapshotId disk = (inr tt, disk')
    /\ storageReady sd disk' = true
    /\ listed sd disk'
       = filter (fun s => negb (String.eqb (id s) snapshotId)) (listed sd disk).
Proof.
  intros Hr. unfold deleteSnapshot, bind at 1.
  destruct (unlink_attempt_ready sd snapshotId disk Hr) as (disk1 & -> & Hr1 & Hl1).
  unfold bind at 1. rewrite listSnapshots_listed, Hl1.
  unfold saveMetadata, fs_writeFile, change.
  apply storageReady_iff in Hr1 as (Hu & [sub Hd] & Hm).
  destruct (putFile_succeeds sd "metadata.json"
              (JsonDoc (filter (fun s => negb (String.eqb (id s) snapshotId))
                          (listed sd disk))) disk1 sub Hd Hm) as [disk2 Hw].
  change (sd ++ ["metadata.json"]%string) with (metadataPath sd) in Hw.
  rewrite Hw. exists disk2. split; [reflexivity|]. split.
  - apply storageReady_iff. split; [exact (putFile_unique _ _ _ _ _ Hu Hw)|]. split.
    + apply (putFile_lookup_above _ _ _ _ _ sd Hw).
      * rewrite metadataPath_eq. apply isPrefix_app_r.
      * rewrite metadataPath_eq. intros Hc.
        apply (f_equal (@List.length string)) in Hc. rewrite length_app in Hc.
        simpl in Hc. lia.
    + intros n Hn. rewrite (putFile_lookup_same _ _ _ _ _ Hw) in Hn.
      injection Hn as <-. eauto.
  - rewrite listed_fileAt. now rewrite (putFile_fileAt_same _ _ _ _ _ Hw).
Qed.

Lemma filter_twice {A} (f : A -> bool) l : filter f (filter f l) = filter f l.
Proof.
  induction l as [|x l IH]; simpl; [reflexivity|].
  destruct (f x) eqn:E; simpl; [rewrite E|]; now rewrite IH.
Qed.

(** C9 as stated fails: where the storage directory does not exist,
    deleteSnapshot throws on the first call and on the second, because
    its write of the index fails. *)
Lemma deleteSnapshot_twice_counterexample :
  lookup sampleStorage sampleDisk = None
  /\ deleteSnapshot sampleStorage "snapshot_1000" sampleDisk = (inl ENOENT, sampleDisk)
  /\ deleteSnapshot sampleStorage "snapshot_1000"
       (snd (deleteSnapshot sampleStorage "snapshot_1000" sampleDisk))
     = (inl ENOENT, sampleDisk).
Proof. repeat split. Qed.

(** C9 (amended): on a storage whose directory exists and whose index
    document is absent, or is a file that holds what the storage wrote or
    content that [JSON.parse] rejects at its first character (an empty
    file included), deleteSnapshot with the same identifier succeeds
    twice in a row -- whether or not a container file for it is on disk,
    so also when the container had been removed by hand -- and after
    either call no record with that identifier is listed; the other
    records stay. *)
Theorem deleteSnapshot_twice sd snapshotId disk :
  storageReady sd disk = true ->
  indexGivesArray sd disk = true ->
  exists disk1 disk2,
    deleteSnapshot sd snapshotId disk = (inr tt, disk1)
    /\ deleteSnapshot sd snapshotId disk1 = (inr tt, disk2)
    /\ (forall m, In m (listed sd disk1) -> id m <> snapshotId)
    /\ (forall m, In m (listed sd disk2) -> id m <> snapshotId)
    /\ (forall m, id m <> snapshotId -> In m (listed sd disk) ->
                  In m (listed sd disk1) /\ In m (listed sd disk2)).
Proof.
  intros Hr _.
  destruct (deleteSnapshot_ready sd snapshotId disk Hr) as (disk1 & E1 & Hr1 & L1).
  destruct (deleteSnapshot_ready sd snapshotId disk1 Hr1) as (disk2 & E2 & Hr2 & L2).
  exists disk1, disk2. split; [exact E1|]. split; [exact E2|].
  rewrite L1 in L2. rewrite filter_twice in L2. rewrite L2, L1.
  assert (H : forall m,
             In m (filter (fun s => negb (String.eqb (id s) snapshotId)) (listed sd disk))
             <-> In m (listed sd disk) /\ id m <> snapshotId).
  { intros m. rewrite filter_In, negb_true_iff, String.eqb_neq. reflexivity. }
  repeat split; try (intros m Hin; now apply H in Hin); intros; apply H; auto.
Qed.

Lemma deleteSnapshot_twice_witness :
  storageReady sampleStorage diskWithoutContainer = true
  /\ indexGivesArray sampleStorage diskWithoutContainer = true
  /\ exists disk1 disk2,
       deleteSnapshot sampleStorage "snapshot_1000" diskWithoutContainer = (inr tt, disk1)
       /\ deleteSnapshot sampleStorage "snapshot_1000" disk1 = (inr tt, disk2)
       /\ (forall m, In m (listed sampleStorage disk1) -> id m <> "snapshot_1000"%string)
       /\ (forall m, In m (listed sampleStorage disk2) -> id m <> "snapshot_1000"%string)
       /\ (forall m, id m <> "snapshot_1000"%string ->
                     In m (listed sampleStorage diskWithoutContainer) ->
                     In m (listed sampleStorage disk1)
                     /\ In m (listed sampleStorage disk2)).
Proof.
  split; [reflexivity|]. split; [reflexivity|].
  apply (deleteSnapshot_twice sampleStorage "snapshot_1000" diskWithoutContainer);
    reflexivity.
Defined.

Example container_removed_by_hand :
  fileAt (zipPathOf sampleStorage "snapshot_1000") diskWithoutContainer = None
  /\ map id (listed sampleStorage diskWithoutContainer) = ["snapshot_1000"]%string
  /\ deleteSnapshot sampleStorage "snapshot_1000" diskWithoutContainer
     = (inr tt,
        [("ws", Dir [("a.txt", File (Bytes "0123456789"));
                     ("b.log", File (Bytes "12345"));
                     ("src", Dir [("a.ts", File (Bytes "let a"))]);
                     (".snapshots", Dir [("metadata.json", File (JsonDoc []))])])]).
Proof. repeat split. Qed.

(* ===================================================================== *)
(** ** Entry names and the paths they stand for *)
(* ===================================================================== *)

Lemma replaceAll_absent c by_ s : contains c s = false -> replaceAll c by_ s = s.
Proof.
  induction s as [|x s IH]; simpl; [reflexivity|].
  intros H. apply orb_false_elim in H as [Hx Hs]. now rewrite Hx, IH.
Qed.

Lemma canonical_joinRel rel name :
  validName name = true -> canonical (joinRel rel name) = canonical rel ++ [name].
Proof.
  intros Hv. unfold canonical, joinRel.
  pose proof (validName_no_slash _ Hv) as Hs.
  pose proof (validName_no_backslash _ Hv) as Hb.
  pose proof (validName_ordinary _ Hv) as Ho.
  destruct rel as [|c r].
  - rewrite (replaceAll_absent _ _ _ Hb), (splitSlash_plain _ Hs). simpl.
    now apply pushSegment_ordinary.
  - change (String c r ++ "/" ++ name)%string
      with (String c r ++ String "/" name)%string.
    rewrite replaceAll_app.
    change (replaceAll "\" "/" (String "/" name))
      with (String "/" (replaceAll "\" "/" name)).
    rewrite (replaceAll_absent _ _ _ Hb), splitSlash_app_slash, fold_left_app.
    rewrite (splitSlash_plain _ Hs). simpl. now apply pushSegment_ordinary.
Qed.

Lemma canonical_fold segs :
  forall rel,
    Forall (fun s => validName s = true) segs ->
    canonical (fold_left joinRel segs rel) = canonical rel ++ segs.
Proof.
  induction segs as [|s segs IH]; intros rel Hv; simpl.
  - now rewrite app_nil_r.
  - inversion Hv as [|? ? Hs Hrest]; subst.
    rewrite (IH _ Hrest), (canonical_joinRel _ _ Hs), <- app_assoc. reflexivity.
Qed.

Lemma canonical_joinSegs segs :
  Forall (fun s => validName s = true) segs -> canonical (joinSegs segs) = segs.
Proof. intros Hv. unfold joinSegs. now rewrite (canonical_fold _ _ Hv). Qed.

Lemma lastAscii_joinRel rel name :
  name <> ""%string -> lastAscii (joinRel rel name) = lastAscii name.
Proof.
  intros Hn. unfold joinRel. destruct rel as [|c r]; [reflexivity|].
  rewrite lastAscii_app_nonempty by discriminate.
  change ("/" ++ name)%string with (String "/" name). simpl.
  destruct name; [contradiction|reflexivity].
Qed.

Lemma isDirectoryEntry_joinRel rel name :
  validName name = true -> isDirectoryEntry (joinRel rel name) = false.
Proof.
  intros Hv. unfold isDirectoryEntry.
  rewrite (lastAscii_joinRel _ _ (validName_nonempty _ Hv)).
  destruct (lastAscii name) as [c|] eqn:E; [|reflexivity].
  apply lastAscii_contains in E.
  apply orb_false_intro; apply Ascii.eqb_neq; intros ->.
  - rewrite (validName_no_slash _ Hv) in E. discriminate.
  - rewrite (validName_no_backslash _ Hv) in E. discriminate.
Qed.

Lemma fold_joinRel_snoc segs name rel :
  fold_left joinRel (segs ++ [name]) rel = joinRel (fold_left joinRel segs rel) name.
Proof. now rewrite fold_left_app. Qed.

Lemma isDirectoryEntry_fold segs rel :
  segs <> [] -> Forall (fun s => validName s = true) segs ->
  isDirectoryEntry (fold_left joinRel segs rel) = false.
Proof.
  intros Hne Hv. destruct (exists_last Hne) as (init & name & ->).
  rewrite fold_joinRel_snoc. apply isDirectoryEntry_joinRel.
  rewrite Forall_forall in Hv. apply Hv. apply in_or_app. right. now left.
Qed.

(** *** Well-formed directories *)

Lemma namedNode_Dir es :
  namedNode (Dir es) = forallb (fun e => validName (fst e) && namedNode (snd e)) es.
Proof. reflexivity. Qed.

Lemma namedNode_child name es n :
  namedNode (Dir es) = true -> findEntry name es = Some n ->
  validName name = true /\ namedNode n = true.
Proof.
  rewrite namedNode_Dir. intros H E.
  pose proof (forallb_findEntry _ name es n H E) as Hn. simpl in Hn.
  now apply andb_prop in Hn.
Qed.

Lemma In_findEntry name x es :
  distinctNames (map fst es) = true -> In (name, x) es -> findEntry name es = Some x.
Proof.
  induction es as [|[n y] es IH]; simpl; [contradiction|].
  intros Hd Hin. apply andb_prop in Hd as [Hn Hd].
  destruct Hin as [E|Hin].
  - injection E as -> ->. now rewrite String.eqb_refl.
  - destruct (String.eqb_spec n name) as [->|Hne]; [|auto].
    exfalso. apply negb_true_iff in Hn.
    assert (Hex : existsb (String.eqb name) (map fst es) = true).
    { apply existsb_exists. exists name. split; [|apply String.eqb_refl].
      apply in_map_iff. now exists (name, x). }
    congruence.
Qed.

Lemma uniqueNode_lookup p :
  forall n m, uniqueNode n = true -> lookupNode p n = Some m -> uniqueNode m = true.
Proof.
  induction p as [|x p IH]; intros n m Hu H; simpl in H.
  - now injection H as <-.
  - destruct n as [c| |es]; try discriminate.
    destruct (findEntry x es) as [y|] eqn:E; [|discriminate].
    exact (IH y m (uniqueNode_child _ _ _ Hu E) H).
Qed.

Lemma namedNode_lookup p :
  forall n m,
    namedNode n = true -> lookupNode p n = Some m ->
    namedNode m = true /\ Forall (fun s => validName s = true) p.
Proof.
  induction p as [|x p IH]; intros n m Hn H; simpl in H.
  - injection H as <-. auto.
  - destruct n as [c| |es]; try discriminate.
    destruct (findEntry x es) as [y|] eqn:E; [|discriminate].
    destruct (namedNode_child _ _ _ Hn E) as [Hx Hy].
    destruct (IH y m Hy H) as [Hm Hp]. auto.
Qed.

Lemma namedNode_setEntry name x es :
  namedNode (Dir es) = true -> validName name = true -> namedNode x = true ->
  namedNode (Dir (setEntry name x es)) = true.
Proof.
  rewrite !namedNode_Dir. intros H Hn Hx.
  apply forallb_setEntry; [exact H|]. simpl. now rewrite Hn, Hx.
Qed.

Lemma mkdirp_named p :
  forall es es',
    Forall (fun s => validName s = true) p ->
    namedNode (Dir es) = true -> mkdirp p es = inr es' ->
    namedNode (Dir es') = true.
Proof.
  induction p as [|name p IH]; intros es es' Hv Hn H.
  - now injection H as <-.
  - inversion Hv as [|? ? Hname Hp]; subst.
    apply mkdirp_inv in H as (sub & sub' & Hf & Hsub & ->).
    apply namedNode_setEntry; auto.
    apply (IH sub); auto.
    destruct Hf as [Hf|(_ & ->)]; [|reflexivity].
    now destruct (namedNode_child _ _ _ Hn Hf).
Qed.

(* ===================================================================== *)
(** ** Captured entries as paths of the tree *)
(* ===================================================================== *)

Section CapturedPaths.

Variable test : string -> string -> result bool.
Variable options : SnapshotOptions.

Lemma walkAccepted_cons rel name segs :
  walkAccepted test options rel (name :: segs) = true <->
  entryAccepted test options rel name
  /\ walkAccepted test options (joinRel rel name) segs = true.
Proof.
  simpl. unfold entryAccepted. rewrite !andb_true_iff, negb_true_iff, String.eqb_neq.
  destruct (shouldIncludeFile test (joinRel rel name) options) as [e|[|]];
    split; intros H; try tauto; try (destruct H as [[_ H] _]; discriminate);
    destruct H as [[_ H] _]; discriminate.
Qed.

(** On a well-formed directory, a captured entry is a readable file of
    the tree, named by the segments that lead to it, each step accepted. *)
Lemma capturedIn_path rel es p d :
  capturedIn test options rel es p d ->
  uniqueNode (Dir es) = true -> namedNode (Dir es) = true ->
  exists segs,
    segs <> []
    /\ Forall (fun s => validName s = true) segs
    /\ p = fold_left joinRel segs rel
    /\ walkAccepted test options rel segs = true
    /\ lookupNode segs (Dir es) = Some (File d).
Proof.
  induction 1 as [rel es name d Hin Hacc|rel es name sub p d Hin Hacc Hsub IH];
    intros Hu Hn.
  - assert (Hf : findEntry name es = Some (File d)).
    { apply In_findEntry; [|exact Hin].
      rewrite uniqueNode_Dir in Hu. now apply andb_prop in Hu. }
    destruct (namedNode_child _ _ _ Hn Hf) as [Hv _].
    exists [name]. repeat split; auto; try discriminate.
    + apply walkAccepted_cons. now split.
    + simpl. now rewrite Hf.
  - assert (Hf : findEntry name es = Some (Dir sub)).
    { apply In_findEntry; [|exact Hin].
      rewrite uniqueNode_Dir in Hu. now apply andb_prop in Hu. }
    destruct (namedNode_child _ _ _ Hn Hf) as [Hv Hnsub].
    destruct (IH (uniqueNode_child _ _ _ Hu Hf) Hnsub)
      as (segs & Hne & Hvs & -> & Hw & Hl).
    exists (name :: segs). repeat split; auto; try discriminate.
    + apply walkAccepted_cons. now split.
    + simpl. now rewrite Hf.
Qed.

Lemma path_capturedIn segs :
  forall rel es d,
    segs <> [] ->
    walkAccepted test options rel segs = true ->
    lookupNode segs (Dir es) = Some (File d) ->
    capturedIn test options rel es (fold_left joinRel segs rel) d.
Proof.
  induction segs as [|name segs IH]; intros rel es d Hne Hw Hl; [contradiction|].
  apply walkAccepted_cons in Hw as [Hacc Hw]. simpl in Hl.
  destruct (findEntry name es) as [x|] eqn:E; [|discriminate].
  apply findEntry_In in E.
  destruct segs as [|s segs].
  - simpl in *. injection Hl as ->. now apply captured_file.
  - destruct x as [c| |sub]; try discriminate.
    apply captured_below with name sub; auto.
    apply IH; auto. discriminate.
Qed.

Lemma walkAccepted_app a b rel :
  walkAccepted test options rel (a ++ b) = true ->
  walkAccepted test options rel a = true.
Proof.
  revert rel. induction a as [|x a IH]; intros rel H; [reflexivity|].
  simpl app in H. apply walkAccepted_cons in H as [Hacc H].
  apply walkAccepted_cons. split; [exact Hacc|]. now apply IH.
Qed.

Lemma walkAccepted_last segs :
  forall rel,
    segs <> [] -> walkAccepted test options rel segs = true ->
    shouldIncludeFile test (fold_left joinRel segs rel) options = inr true.
Proof.
  induction segs as [|x segs IH]; intros rel Hne H; [contradiction|].
  apply walkAccepted_cons in H as [[_ Hacc] H].
  destruct segs as [|y segs]; [exact Hacc|].
  simpl. apply (IH (joinRel rel x)); [discriminate|exact H].
Qed.

End CapturedPaths.

(* ===================================================================== *)
(** ** Default excludes, pruning, and the storage directory *)
(* ===================================================================== *)

Lemma scan_from_empty test options es st :
  addDirectory test options es "" (mkScan [] 0) = inr st ->
  forall p d, In (p, d) (zip st) <-> capturedIn test options "" es p d.
Proof.
  intros H. destruct (addDirectory_scanAdds test options es "" _ _ H)
    as (added & Hz & _ & Hin).
  simpl in Hz. rewrite Hz. exact Hin.
Qed.

(** C4: a path that a default exclude pattern matches is refused by
    shouldIncludeFile whatever the options are, include patterns
    included, and no container written by saveSnapshot has an entry of
    that name. *)
Theorem default_excludes_always_apply test byteLength sd filePath pat :
  (forall x, In x defaultExcludes -> exists b, matchesPattern test filePath x = inr b) ->
  In pat defaultExcludes ->
  matchesPattern test filePath pat = inr true ->
  (forall options, shouldIncludeFile test filePath options = inr false)
  /\ (forall now root options disk m disk',
        saveSnapshot test byteLength sd now root options disk = (inr m, disk') ->
        exists es,
          fileAt (zipPathOf sd (id m)) disk' = Some (ZipBuffer es)
          /\ ~ In filePath (map fst es)).
Proof.
  intros Hall Hin Hm.
  assert (Hno : forall options, shouldIncludeFile test filePath options = inr false).
  { intros options. exact (shouldIncludeFile_default_excluded test filePath options pat Hall Hin Hm). }
  split; [exact Hno|].
  intros now root options disk m disk' Hs.
  apply saveSnapshot_container in Hs as (disk0 & entries & st & _ & _ & Hscan & _ & _ & Hz).
  exists (zip st). split; [exact Hz|].
  intros Hc. apply in_map_iff in Hc as ([p d] & Hp & Hpd). simpl in Hp. subst p.
  apply (scan_from_empty test options entries st Hscan) in Hpd.
  apply capturedIn_accepted in Hpd. rewrite (Hno options) in Hpd. discriminate.
Qed.

Lemma default_excludes_always_apply_witness :
  (forall x, In x defaultExcludes ->
             exists b, matchesPattern RegExp_test "src/.git/config" x = inr b)
  /\ In ".git"%string defaultExcludes
  /\ matchesPattern RegExp_test "src/.git/config" ".git" = inr true
  /\ (forall options, shouldIncludeFile RegExp_test "src/.git/config" options = inr false)
  /\ (forall now root options disk m disk',
        saveSnapshot RegExp_test nominalLength sampleStorage now root options disk
        = (inr m, disk') ->
        exists es,
          fileAt (zipPathOf sampleStorage (id m)) disk' = Some (ZipBuffer es)
          /\ ~ In "src/.git/config"%string (map fst es)).
Proof.
  assert (H1 : forall x, In x defaultExcludes ->
                 exists b, matchesPattern RegExp_test "src/.git/config" x = inr b).
  { intros x Hin. simpl in Hin.
    repeat (destruct Hin as [<-|Hin]; [eexists; reflexivity|]). contradiction. }
  assert (H2 : In ".git"%string defaultExcludes) by (simpl; auto).
  split; [exact H1|]. split; [exact H2|]. split; [reflexivity|].
  apply (default_excludes_always_apply RegExp_test nominalLength sampleStorage
           "src/.git/config" ".git" H1 H2). reflexivity.
Defined.

Example include_cannot_override_default_exclude :
  shouldIncludeFile RegExp_test ".git/config"
    (mkOptions None (Some [".git/*"]%string) None) = inr false.
Proof. reflexivity. Qed.

(** C10: with a non-empty list of include patterns, a directory whose
    relative path none of them matches is not entered by the scan: no
    file below it is in the archive, whatever the file's own path
    matches. *)
Theorem unmatched_directory_is_pruned
  test rootPath options disk st disk' p ps dirSegs rest d :
  wfDisk disk = true ->
  addFilesToZip test [] rootPath options disk = (inr st, disk') ->
  includePatterns options = Some (p :: ps) ->
  dirSegs <> [] ->
  (forall pat, In pat (p :: ps) ->
               matchesPattern test (joinSegs dirSegs) pat <> inr true) ->
  fileAt (rootPath ++ dirSegs ++ rest) disk = Some d ->
  ~ In (joinSegs (dirSegs ++ rest)) (map fst (zip st)).
Proof.
  intros Hwf Hscan Hinc Hne Hno Hfile Hc.
  unfold wfDisk in Hwf. apply andb_prop in Hwf as [Hu Hn].
  unfold addFilesToZip, bind, fs_readdir, inspect in Hscan.
  destruct (lookup rootPath disk) as [[c| |entries]|] eqn:El; try discriminate.
  destruct (addDirectory test options entries "" (mkScan [] 0)) as [e|st0] eqn:Es;
    [discriminate|].
  injection Hscan as <- <-.
  (* the file's segments are valid names *)
  apply fileAt_lookup in Hfile. rewrite lookup_app, El in Hfile.
  assert (Hue : uniqueNode (Dir entries) = true)
    by exact (uniqueNode_lookup _ _ _ Hu El).
  assert (Hne' : namedNode (Dir entries) = true)
    by exact (proj1 (namedNode_lookup _ _ _ Hn El)).
  destruct (namedNode_lookup _ _ _ Hne' Hfile) as [_ Hvalid].
  (* the entry found in the archive was reached by an accepted walk *)
  apply in_map_iff in Hc as ([q d'] & Hq & Hin). simpl in Hq. subst q.
  apply (scan_from_empty test options entries st0 Es) in Hin.
  apply capturedIn_path in Hin as (segs & Hsne & Hvs & Hp & Hw & _); auto.
  assert (Hsegs : segs = dirSegs ++ rest).
  { rewrite <- (canonical_joinSegs segs Hvs).
    rewrite <- (canonical_joinSegs (dirSegs ++ rest) Hvalid).
    now f_equal. }
  subst segs. apply walkAccepted_app in Hw.
  apply (walkAccepted_last test options dirSegs "" Hne) in Hw.
  exact (shouldIncludeFile_needs_include test _ options p ps Hinc Hno Hw).
Qed.

Lemma unmatched_directory_is_pruned_witness :
  wfDisk sampleDisk = true
  /\ addFilesToZip RegExp_test [] ["ws"]%string onlyTs sampleDisk
     = (inr (mkScan [] 0), sampleDisk)
  /\ includePatterns onlyTs = Some ["a.ts"]%string
  /\ shouldIncludeFile RegExp_test "src/a.ts" onlyTs = inr true
  /\ fileAt (["ws"] ++ ["src"] ++ ["a.ts"]) sampleDisk = Some (Bytes "let a")
  /\ ~ In (joinSegs (["src"] ++ ["a.ts"])) (map fst (zip (mkScan [] 0))).
Proof.
  split; [reflexivity|]. split; [reflexivity|]. split; [reflexivity|].
  split; [reflexivity|]. split; [reflexivity|].
  apply (unmatched_directory_is_pruned RegExp_test ["ws"]%string onlyTs sampleDisk
           (mkScan [] 0) sampleDisk "a.ts"%string [] ["src"]%string ["a.ts"]%string
           (Bytes "let a")).
  - reflexivity.
  - reflexivity.
  - reflexivity.
  - discriminate.
  - intros pat [<-|[]]. vm_compute. discriminate.
  - reflexivity.
Defined.

(** C8 fails on the code when the storage directory is configured with
    another name than [.snapshots]: the scan skips entries called
    [.snapshots] and nothing else, so the second capture of a storage
    kept in [snaps] packs the first container and the index document. *)
Lemma capture_packs_configured_storage_directory :
  let save now := saveSnapshot RegExp_test nominalLength snapsStorage now ["ws"]%string
                    noOptions in
  exists m1 disk1 m2 disk2,
    save 1000%Z sampleDisk = (inr m1, disk1)
    /\ save 2000%Z disk1 = (inr m2, disk2)
    /\ exists es,
         fileAt (zipPathOf snapsStorage (id m2)) disk2 = Some (ZipBuffer es)
         /\ map fst es
            = ["a.txt"; "src/a.ts"; "snaps/snapshot_1000.zip";
               "snaps/metadata.json"]%string.
Proof.
  simpl. do 4 eexists. split; [vm_compute; reflexivity|].
  split; [vm_compute; reflexivity|]. eexists. split; reflexivity.
Qed.

(** With the default name the storage directory is skipped. *)
Example capture_skips_default_storage_directory :
  let save now := saveSnapshot RegExp_test nominalLength sampleStorage now ["ws"]%string
                    noOptions in
  exists m1 disk1 m2 disk2,
    save 1000%Z sampleDisk = (inr m1, disk1)
    /\ save 2000%Z disk1 = (inr m2, disk2)
    /\ exists es,
         fileAt (zipPathOf sampleStorage (id m2)) disk2 = Some (ZipBuffer es)
         /\ map fst es = ["a.txt"; "src/a.ts"]%string.
Proof.
  simpl. do 4 eexists. split; [vm_compute; reflexivity|].
  split; [vm_compute; reflexivity|]. eexists. split; reflexivity.
Qed.

(* ===================================================================== *)
(** ** Extraction *)
(* ===================================================================== *)

Lemma isPrefix_app_cases r a b :
  isPrefix r (a ++ b) -> isPrefix r a \/ exists c, r = a ++ c /\ isPrefix c b.
Proof.
  revert r. induction a as [|x a IH]; intros r H.
  - right. exists r. auto.
  - destruct r as [|y r]; [left; apply isPrefix_nil|].
    destruct H as [c E]. simpl in E. injection E as <- E.
    destruct (IH r) as [Hp|(c' & -> & Hc)].
    + now exists c.
    + left. now apply isPrefix_cons.
    + right. exists c'. auto.
Qed.

Lemma lookupNode_prefix_dir r c n m :
  lookupNode (r ++ c) n = Some m -> c <> [] ->
  exists sub, lookupNode r n = Some (Dir sub).
Proof.
  rewrite lookupNode_app. intros H Hc.
  destruct (lookupNode r n) as [[d| |sub]|]; try discriminate; eauto;
    rewrite lookupNode_below_file in H by (auto; discriminate); discriminate.
Qed.

Lemma lookup_prefix_dir r c disk m :
  lookup (r ++ c) disk = Some m -> c <> [] ->
  exists sub, lookup r disk = Some (Dir sub).
Proof. apply lookupNode_prefix_dir. Qed.

Lemma lookup_below_empty target c disk :
  lookup target disk = Some (Dir []) -> c <> [] -> lookup (target ++ c) disk = None.
Proof.
  intros H Hc. rewrite lookup_app, H. destruct c; [contradiction|reflexivity].
Qed.

Lemma app_eq_self_nil {A} (a b : list A) : a ++ b = a -> b = [].
Proof.
  intros H. apply (app_inv_head a). now rewrite app_nil_r.
Qed.

(** Prefixes of a path in an existing directory are directories. *)
Lemma lookup_above_target target disk sub r n :
  lookup target disk = Some (Dir sub) -> isPrefix r target ->
  lookup r disk = Some n -> exists s, n = Dir s.
Proof.
  intros Ht [c ->] Hr. destruct c as [|x c].
  - rewrite app_nil_r in Ht. rewrite Ht in Hr. injection Hr as <-. eauto.
  - destruct (lookup_prefix_dir r (x :: c) disk _ Ht) as [s Hs]; [discriminate|].
    rewrite Hs in Hr. injection Hr as <-. eauto.
Qed.

Lemma extractEntry_consistent T target done e disk :
  extractInv T target done disk ->
  Forall (entryOf T) done ->
  entryOf T e ->
  exists disk',
    extractEntry target e disk = (inr tt, disk')
    /\ extractInv T target (done ++ [e]) disk'
    /\ (forall r, ~ isPrefix target r -> fileAt r disk' = fileAt r disk).
Proof.
  intros (Htgt & Hbelow & Hdone) Hall (Hnd & Hne & HT).
  destruct e as [p d]. simpl in *.
  set (segs := canonical p) in *. set (dest := target ++ segs).
  destruct Htgt as [sub Htgt].
  (* what is at the destination and above it *)
  assert (Hat : forall n, lookup dest disk = Some n -> exists c, n = File c).
  { intros n Hn. specialize (Hbelow segs n Hne Hn). destruct n as [c| |s]; eauto.
    - contradiction.
    - destruct Hbelow as [s' Hs']. congruence. }
  assert (Habove : forall r n, isPrefix r dest -> r <> dest ->
                         lookup r disk = Some n -> exists s, n = Dir s).
  { intros r n Hr Hrne Hn. apply isPrefix_app_cases in Hr as [Hr|(c & -> & [c' Hc])].
    - exact (lookup_above_target _ _ _ _ _ Htgt Hr Hn).
    - destruct c as [|x c].
      + rewrite app_nil_r in Hn. rewrite Htgt in Hn. injection Hn as <-. eauto.
      + assert (Hc' : c' <> []).
        { intros ->. apply Hrne. unfold dest. rewrite Hc. now rewrite app_nil_r. }
        specialize (Hbelow (x :: c) n ltac:(discriminate) Hn).
        destruct n as [c0| |s]; eauto; [|contradiction].
        destruct Hbelow as (p' & Hin & Hcan).
        rewrite Forall_forall in Hall. destruct (Hall _ Hin) as (_ & _ & HT').
        simpl in HT'. rewrite Hcan in HT'.
        rewrite Hc, lookupNode_app, HT' in HT.
        rewrite lookupNode_below_file in HT by (auto; discriminate). discriminate. }
  assert (Hdne : dest <> []).
  { unfold dest. intros E. apply app_eq_nil in E as [_ E]. contradiction. }
  destruct (putFile_parents_succeeds dest d disk Hdne Habove Hat) as [disk' Hw].
  exists disk'. split.
  { unfold extractEntry. simpl. fold segs. fold dest. rewrite Hnd.
    unfold change. destruct (lookup dest disk) as [n|] eqn:En.
    - destruct (Hat n eq_refl) as [c ->]. now rewrite Hw.
    - now rewrite Hw. }
  assert (Htd : isPrefix target dest) by apply isPrefix_app_r.
  assert (Htne : target <> dest).
  { unfold dest. intros E. symmetry in E. apply app_eq_self_nil in E. contradiction. }
  split; [split; [|split]|].
  - exact (putFile_lookup_above _ _ _ _ _ _ Hw Htd Htne).
  - intros q n Hq Hn.
    destruct (path_eq_dec (target ++ q) dest) as [E|Hneq].
    + apply app_inv_head in E. subst q. fold dest in Hn.
      rewrite (putFile_lookup_same _ _ _ _ _ Hw) in Hn. injection Hn as <-.
      exists p. split; [apply in_or_app; right; now left|reflexivity].
    + destruct (isPrefix_dec (target ++ q) dest) as [Hp|Hp].
      * destruct (putFile_lookup_above _ _ _ _ _ _ Hw Hp Hneq) as [s Hs].
        rewrite Hs in Hn. injection Hn as <-.
        destruct Hp as [c Hc]. unfold dest in Hc. rewrite <- app_assoc in Hc.
        apply app_inv_head in Hc.
        apply (lookupNode_prefix_dir q c (Dir T) (File d)).
        -- rewrite <- Hc. exact HT.
        -- intros ->. apply Hneq. unfold dest. rewrite Hc. now rewrite app_nil_r.
      * rewrite (putFile_lookup_other _ _ _ _ _ _ Hw Hp) in Hn.
        specialize (Hbelow q n Hq Hn). destruct n as [c| |s]; auto.
        destruct Hbelow as (p' & Hin & Hcan). exists p'. split; [|exact Hcan].
        apply in_or_app. now left.
  - intros p' d' Hin.
    destruct (path_eq_dec (target ++ canonical p') dest) as [E|Hneq].
    + rewrite E, (putFile_fileAt_same _ _ _ _ _ Hw). f_equal.
      apply app_inv_head in E.
      apply in_app_or in Hin as [Hin|[Hin|[]]].
      * rewrite Forall_forall in Hall. destruct (Hall _ Hin) as (_ & _ & HT').
        simpl in HT'. rewrite E in HT'. fold segs in HT'. congruence.
      * now injection Hin.
    + rewrite (putFile_fileAt_other _ _ _ _ _ _ Hw Hneq).
      apply in_app_or in Hin as [Hin|[Hin|[]]]; [now apply Hdone|].
      injection Hin as <- <-. now destruct Hneq.
  - intros r Hr. apply (putFile_fileAt_other _ _ _ _ _ _ Hw).
    intros ->. now apply Hr.
Qed.

Lemma extractAllTo_consistent T target es :
  forall done disk,
    Forall (entryOf T) (done ++ es) ->
    extractInv T target done disk ->
    exists disk',
      extractAllTo es target disk = (inr tt, disk')
      /\ extractInv T target (done ++ es) disk'
      /\ (forall r, ~ isPrefix target r -> fileAt r disk' = fileAt r disk).
Proof.
  induction es as [|e es IH]; intros done disk Hall Hinv.
  - exists disk. rewrite app_nil_r. auto.
  - assert (Hdone : Forall (entryOf T) done).
    { rewrite Forall_forall in *. intros x Hx. apply Hall. apply in_or_app. now left. }
    assert (He : entryOf T e).
    { rewrite Forall_forall in Hall. apply Hall. apply in_or_app. right. now left. }
    destruct (extractEntry_consistent T target done e disk Hinv Hdone He)
      as (disk1 & E1 & Hinv1 & Hout1).
    destruct (IH (done ++ [e]) disk1) as (disk2 & E2 & Hinv2 & Hout2).
    { now rewrite <- app_assoc. }
    { exact Hinv1. }
    exists disk2. split; [|split].
    + unfold extractAllTo in *. simpl. unfold bind. now rewrite E1.
    + now rewrite <- app_assoc in Hinv2.
    + intros r Hr. rewrite (Hout2 r Hr). exact (Hout1 r Hr).
Qed.

(** Extracting a capture of [T] into an empty directory: it succeeds,
    and the files below the target are exactly the entries. *)
Lemma extractAllTo_into_empty T target es disk :
  Forall (entryOf T) es ->
  lookup target disk = Some (Dir []) ->
  exists disk',
    extractAllTo es target disk = (inr tt, disk')
    /\ (forall q d, fileAt (target ++ q) disk' = Some d <->
                    exists p, In (p, d) es /\ canonical p = q)
    /\ (forall r, ~ isPrefix target r -> fileAt r disk' = fileAt r disk).
Proof.
  intros Hall Hempty.
  destruct (extractAllTo_consistent T target es [] disk) as (disk' & E & Hinv & Hout).
  - exact Hall.
  - split; [eauto|]. split.
    + intros q n Hq Hn. rewrite (lookup_below_empty _ _ _ Hempty Hq) in Hn. discriminate.
    + intros p d [].
  - exists disk'. split; [exact E|]. split; [|exact Hout].
    destruct Hinv as (Htgt & Hbelow & Hdone). simpl in *.
    intros q d. split.
    + intros Hf. apply fileAt_lookup in Hf. destruct q as [|x q].
      * rewrite app_nil_r in Hf. destruct Htgt as [s Hs]. congruence.
      * exact (Hbelow (x :: q) (File d) ltac:(discriminate) Hf).
    + intros (p & Hin & <-). now apply Hdone.
Qed.

(* ===================================================================== *)
(** ** Capture, then restore *)
(* ===================================================================== *)

Lemma ensureSnapshotsDir_ok sd disk disk0 :
  ensureSnapshotsDir sd disk = (inr tt, disk0) ->
  disk0 = disk \/ mkdirp sd disk = inr disk0.
Proof.
  unfold ensureSnapshotsDir, tryCatch, fs_access, inspect, fs_mkdir_recursive, change.
  destruct (lookup sd disk) as [n|].
  - intros H. injection H as <-. now left.
  - destruct (mkdirp sd disk) as [e|d]; [discriminate|].
    intros H. injection H as <-. now right.
Qed.

Lemma ensureSnapshotsDir_wf sd disk disk0 :
  wfDisk disk = true -> forallb validName sd = true ->
  ensureSnapshotsDir sd disk = (inr tt, disk0) ->
  wfDisk disk0 = true /\ forall r, fileAt r disk0 = fileAt r disk.
Proof.
  intros Hwf Hsd H. apply ensureSnapshotsDir_ok in H as [->|H]; [auto|].
  unfold wfDisk in *. apply andb_prop in Hwf as [Hu Hn]. split.
  - apply andb_true_intro. split; [exact (mkdirp_unique _ _ _ Hu H)|].
    apply (mkdirp_named sd disk disk0); auto.
    apply Forall_forall. rewrite forallb_forall in Hsd. exact Hsd.
  - intros r. exact (mkdirp_fileAt _ _ _ r H).
Qed.

Section RoundTrip.

Variable test : string -> string -> result bool.
Variable options : SnapshotOptions.

(** On a well-formed directory every entry of a scan stands for a file
    of the directory. *)
Lemma scan_entries_of_tree entries st :
  uniqueNode (Dir entries) = true -> namedNode (Dir entries) = true ->
  addDirectory test options entries "" (mkScan [] 0) = inr st ->
  Forall (entryOf entries) (zip st).
Proof.
  intros Hu Hn Hs. apply Forall_forall. intros [p d] Hin.
  apply (scan_from_empty test options entries st Hs) in Hin.
  apply capturedIn_path in Hin as (segs & Hne & Hv & -> & _ & Hl); auto.
  unfold entryOf. simpl. fold (joinSegs segs).
  rewrite (canonical_joinSegs segs Hv). repeat split; auto.
  now apply isDirectoryEntry_fold.
Qed.

(** The entries of a scan, read as paths of the directory. *)
Lemma scan_entries_paths entries st q d :
  uniqueNode (Dir entries) = true -> namedNode (Dir entries) = true ->
  addDirectory test options entries "" (mkScan [] 0) = inr st ->
  (exists p, In (p, d) (zip st) /\ canonical p = q) <->
  (q <> [] /\ walkAccepted test options "" q = true
   /\ lookupNode q (Dir entries) = Some (File d)).
Proof.
  intros Hu Hn Hs. split.
  - intros (p & Hin & <-).
    apply (scan_from_empty test options entries st Hs) in Hin.
    apply capturedIn_path in Hin as (segs & Hne & Hv & -> & Hw & Hl); auto.
    fold (joinSegs segs). rewrite (canonical_joinSegs segs Hv). auto.
  - intros (Hne & Hw & Hl).
    destruct (namedNode_lookup _ _ _ Hn Hl) as [_ Hv].
    exists (joinSegs q). split; [|now apply canonical_joinSegs].
    apply (scan_from_empty test options entries st Hs).
    now apply path_capturedIn.
Qed.

End RoundTrip.

(** C1 as stated fails: [src/a.ts] is accepted by the filter and is in
    the tree, but its directory [src] matches no include pattern, so it
    is neither packed nor restored. *)
Lemma round_trip_misses_accepted_path :
  shouldIncludeFile RegExp_test "src/a.ts" onlyTs = inr true
  /\ fileAt ["ws"; "src"; "a.ts"]%string roundTripDisk = Some (Bytes "let a")
  /\ exists m disk1 disk2,
       saveSnapshot RegExp_test nominalLength sampleStorage 1000 ["ws"]%string
         onlyTs roundTripDisk = (inr m, disk1)
       /\ restoreSnapshot RegExp_test sampleStorage 1001 (id m) ["target"]%string
            true disk1 = (inr tt, disk2)
       /\ fileAt ["target"; "src"; "a.ts"]%string disk2 = None.
Proof.
  split; [reflexivity|]. split; [reflexivity|].
  do 3 eexists. split; [vm_compute; reflexivity|].
  split; [vm_compute; reflexivity|reflexivity].
Qed.

(** C1 (amended): on a well-formed disk, restoring the container that
    saveSnapshot has just written into an empty target directory
    succeeds and leaves below the target exactly the readable files of
    the captured tree that the scan reaches -- those for which the file's
    own relative path and the relative path of every directory above it
    pass the filter, none of them being called [.snapshots] -- each with
    the content it had at capture; so every restored file's relative
    path is accepted by the filter. *)
Theorem capture_then_restore
  test byteLength sd now root options disk m disk1 now' target createBackup :
  wfDisk disk = true ->
  forallb validName sd = true ->
  saveSnapshot test byteLength sd now root options disk = (inr m, disk1) ->
  lookup target disk1 = Some (Dir []) ->
  (createBackup = true -> lookup (zipPathOf sd (backupIdAt now')) disk1 = None) ->
  exists disk2,
    restoreSnapshot test sd now' (id m) target createBackup disk1 = (inr tt, disk2)
    /\ (forall segs d,
          fileAt (target ++ segs) disk2 = Some d <->
          segs <> [] /\ walkAccepted test options "" segs = true
          /\ fileAt (root ++ segs) disk = Some d)
    /\ (forall segs d,
          fileAt (target ++ segs) disk2 = Some d ->
          shouldIncludeFile test (joinSegs segs) options = inr true).
Proof.
  intros Hwf Hsd Hsave Hempty Hfree.
  apply saveSnapshot_inv in Hsave
    as (disk0 & entries & st & diskZ & E0 & El & Es & Ew & -> & Em).
  destruct (ensureSnapshotsDir_wf sd disk disk0 Hwf Hsd E0) as [Hwf0 Hsame0].
  unfold wfDisk in Hwf0. apply andb_prop in Hwf0 as [Hu0 Hn0].
  assert (Hue : uniqueNode (Dir entries) = true)
    by exact (uniqueNode_lookup _ _ _ Hu0 El).
  assert (Hne : namedNode (Dir entries) = true)
    by exact (proj1 (namedNode_lookup _ _ _ Hn0 El)).
  simpl id.
  set (zipPath := zipPathOf sd (snapshotIdAt now)) in *.
  assert (Hzip : lookup zipPath disk1 = Some (File (ZipBuffer (zip st)))).
  { apply fileAt_lookup. rewrite (putFile_fileAt_other _ _ _ _ _ _ Em).
    - exact (putFile_fileAt_same _ _ _ _ _ Ew).
    - apply zipPathOf_not_metadata. }
  (* the disk on which the extraction starts *)
  assert (Hstart : exists diskR,
             (if createBackup then
                bind (addFilesToZip test [] target noOptions)
                  (fun st0 => fs_writeFile (zipPathOf sd (backupIdAt now'))
                                (ZipBuffer (zip st0)))
              else ret tt) disk1 = (inr tt, diskR)
             /\ lookup target diskR = Some (Dir [])
             /\ lookup zipPath diskR = Some (File (ZipBuffer (zip st)))).
  { destruct createBackup; [|exists disk1; auto].
    specialize (Hfree eq_refl).
    unfold bind, addFilesToZip, bind, fs_readdir, inspect. rewrite Hempty. simpl.
    unfold fs_writeFile, change.
    assert (Hzp : zipPath = sd ++ [(snapshotIdAt now ++ ".zip")%string])
      by apply zipPathOf_snapshot.
    rewrite zipPathOf_backup in *.
    assert (Hzip' := Hzip). rewrite Hzp in Hzip'.
    destruct (lookup_prefix_dir sd [(snapshotIdAt now ++ ".zip")%string] disk1 _ Hzip')
      as [sub Hsub]; [discriminate|].
    destruct (putFile_succeeds sd (backupIdAt now' ++ ".zip")%string
                (ZipBuffer []) disk1 sub Hsub) as [diskB Hb].
    { intros n Hn. rewrite Hfree in Hn. discriminate. }
    rewrite Hb. exists diskB. split; [reflexivity|].
    assert (Hnp : ~ isPrefix target (sd ++ [(backupIdAt now' ++ ".zip")%string])).
    { intros Hp. apply isPrefix_app_cases in Hp as [[c Hc]|(c & Hc & [c' Hc'])].
      - rewrite Hzp, Hc, <- app_assoc in Hzip.
        rewrite (lookup_below_empty _ _ _ Hempty) in Hzip; [discriminate|].
        destruct c; discriminate.
      - destruct c as [|x c].
        + rewrite app_nil_r in Hc. subst target.
          rewrite Hzp in Hzip.
          rewrite (lookup_below_empty _ _ _ Hempty) in Hzip; discriminate.
        + destruct c; [|destruct c'; discriminate].
          simpl in Hc'. injection Hc' as <- _. subst target.
          assert (E : Some (Dir []) = None) by (rewrite <- Hempty; exact Hfree).
          discriminate E. }
    split.
    - rewrite (putFile_lookup_other _ _ _ _ _ _ Hb Hnp). exact Hempty.
    - apply fileAt_lookup. rewrite (putFile_fileAt_other _ _ _ _ _ _ Hb).
      + now apply fileAt_lookup.
      + rewrite Hzp. intros E. apply app_inj_tail in E as [_ E]. discriminate. }
  destruct Hstart as (diskR & Estart & HemptyR & HzipR).
  destruct (extractAllTo_into_empty entries target (zip st) diskR
              (scan_entries_of_tree test options entries st Hue Hne Es) HemptyR)
    as (disk2 & Eext & Hfiles & _).
  exists disk2. split.
  { unfold restoreSnapshot. fold zipPath. unfold bind at 1. rewrite Estart.
    unfold bind, openZip, inspect. rewrite HzipR. exact Eext. }
  assert (Hiff : forall segs d,
             fileAt (target ++ segs) disk2 = Some d <->
             segs <> [] /\ walkAccepted test options "" segs = true
             /\ fileAt (root ++ segs) disk = Some d).
  { intros segs d. rewrite Hfiles.
    rewrite (scan_entries_paths test options entries st segs d Hue Hne Es).
    rewrite <- Hsame0, fileAt_lookup, lookup_app, El. reflexivity. }
  split; [exact Hiff|].
  intros segs d Hf. apply Hiff in Hf as (Hsne & Hw & _).
  exact (walkAccepted_last test options segs "" Hsne Hw).
Qed.

Lemma capture_then_restore_witness :
  wfDisk roundTripDisk = true
  /\ forallb validName sampleStorage = true
  /\ sampleSave 1000 roundTripDisk = (inr (sampleRecord 1000), roundTripDiskAfterSave)
  /\ lookup ["target"]%string roundTripDiskAfterSave = Some (Dir [])
  /\ exists disk2,
       restoreSnapshot RegExp_test sampleStorage 1001 (id (sampleRecord 1000))
         ["target"]%string true roundTripDiskAfterSave = (inr tt, disk2)
       /\ (forall segs d,
             fileAt (["target"]%string ++ segs) disk2 = Some d <->
             segs <> [] /\ walkAccepted RegExp_test noOptions "" segs = true
             /\ fileAt (["ws"]%string ++ segs) roundTripDisk = Some d)
       /\ (forall segs d,
             fileAt (["target"]%string ++ segs) disk2 = Some d ->
             shouldIncludeFile RegExp_test (joinSegs segs) noOptions = inr true).
Proof.
  assert (Hs : sampleSave 1000 roundTripDisk
               = (inr (sampleRecord 1000), roundTripDiskAfterSave))
    by (vm_compute; reflexivity).
  split; [reflexivity|]. split; [reflexivity|]. split; [exact Hs|].
  split; [reflexivity|].
  apply (capture_then_restore RegExp_test nominalLength sampleStorage 1000
           ["ws"]%string noOptions roundTripDisk (sampleRecord 1000)
           roundTripDiskAfterSave 1001 ["target"]%string true).
  - reflexivity.
  - reflexivity.
  - exact Hs.
  - reflexivity.
  - intros _. reflexivity.
Defined.

Example round_trip_sample :
  snd (restoreSnapshot RegExp_test sampleStorage 1001 "snapshot_1000"
         ["target"]%string false roundTripDiskAfterSave)
  = [("target", Dir [("a.txt", File (Bytes "0123456789"));
                     ("src", Dir [("a.ts", File (Bytes "let a"))])]);
     ("ws", Dir [("a.txt", File (Bytes "0123456789"));
                 ("b.log", File (Bytes "12345"));
                 ("src", Dir [("a.ts", File (Bytes "let a"))]);
                 (".snapshots",
                  Dir [("snapshot_1000.zip",
                        File (ZipBuffer [("a.txt", Bytes "0123456789");
                                         ("src/a.ts", Bytes "let a")]));
                       ("metadata.json",
                        File (JsonDoc [sampleRecord 1000]))])])]%string.
Proof. reflexivity. Qed.

(* ===================================================================== *)
(** ** Entry names that point above the target *)
(* ===================================================================== *)

Lemma mkdirp_succeeds p :
  forall es,
    (forall r n, isPrefix r p -> lookup r es = Some n -> exists s, n = Dir s) ->
    exists es', mkdirp p es = inr es'.
Proof.
  induction p as [|name p IH]; intros es H; simpl; [eauto|].
  assert (Hsub : forall sub,
             (findEntry name es = Some (Dir sub)
              \/ (findEntry name es = None /\ sub = [])) ->
             exists sub', mkdirp p sub = inr sub').
  { intros sub Hf. apply IH. intros r n Hr Hn. destruct Hf as [Hf|(Hf & ->)].
    - apply (H (name :: r) n); [now apply isPrefix_cons|].
      rewrite lookup_cons, Hf. exact Hn.
    - destruct r; [|discriminate]. injection Hn as <-. eauto. }
  destruct (findEntry name es) as [[c| |sub]|] eqn:E.
  - destruct (H [name] (File c)) as [s Hs]; try discriminate.
    + exists p. reflexivity.
    + rewrite lookup_cons, E. reflexivity.
  - destruct (H [name] Unreadable) as [s Hs]; try discriminate.
    + exists p. reflexivity.
    + rewrite lookup_cons, E. reflexivity.
  - destruct (Hsub sub (or_introl eq_refl)) as [sub' ->]. simpl. eauto.
  - destruct (Hsub [] (or_intror (conj eq_refl eq_refl))) as [sub' ->]. simpl. eauto.
Qed.

(** One entry only changes files below the target, whether it succeeds
    or throws. *)
Lemma extractEntry_outside target e disk r :
  ~ isPrefix target r ->
  fileAt r (snd (extractEntry target e disk)) = fileAt r disk.
Proof.
  intros Hr. unfold extractEntry.
  destruct (isDirectoryEntry (fst e)).
  - unfold fs_mkdir_recursive, change.
    destruct (mkdirp (target ++ canonical (fst e)) disk) as [x|disk'] eqn:E;
      [reflexivity|]. simpl. exact (mkdirp_fileAt _ _ _ r E).
  - unfold change.
    destruct (lookup (target ++ canonical (fst e)) disk) as [[c| |s]|];
      try reflexivity;
      (destruct (putFile true (target ++ canonical (fst e)) (snd e) disk)
         as [x|disk'] eqn:E; [reflexivity|]; simpl;
       apply (putFile_fileAt_other _ _ _ _ _ _ E);
       intros ->; apply Hr; apply isPrefix_app_r).
Qed.

Lemma extractAllTo_outside target es :
  forall disk r,
    ~ isPrefix target r ->
    fileAt r (snd (extractAllTo es target disk)) = fileAt r disk.
Proof.
  induction es as [|e es IH]; intros disk r Hr; [reflexivity|].
  unfold extractAllTo in *. simpl. unfold bind.
  pose proof (extractEntry_outside target e disk r Hr) as He.
  destruct (extractEntry target e disk) as [[x|[]] disk1]; simpl in *; [exact He|].
  rewrite (IH disk1 r Hr). exact He.
Qed.

(** Any one entry goes into an empty directory, whatever its name. *)
Lemma extractEntry_into_empty target name d disk :
  lookup target disk = Some (Dir []) ->
  exists disk', extractEntry target (name, d) disk = (inr tt, disk').
Proof.
  intros Hempty. unfold extractEntry. simpl.
  assert (Habove : forall r n, isPrefix r (target ++ canonical name) ->
                     r <> target ++ canonical name ->
                     lookup r disk = Some n -> exists s, n = Dir s).
  { intros r n Hr _ Hn. apply isPrefix_app_cases in Hr as [Hr|(c & -> & _)].
    - exact (lookup_above_target _ _ _ _ _ Hempty Hr Hn).
    - destruct c as [|x c].
      + rewrite app_nil_r in Hn. rewrite Hempty in Hn. injection Hn as <-. eauto.
      + rewrite (lookup_below_empty _ _ _ Hempty) in Hn; discriminate. }
  destruct (isDirectoryEntry name).
  - unfold fs_mkdir_recursive, change.
    destruct (mkdirp_succeeds (target ++ canonical name) disk) as [disk' ->]; [|eauto].
    intros r n Hr Hn.
    destruct (path_eq_dec r (target ++ canonical name)) as [->|Hne].
    + destruct (canonical name) as [|x c].
      * rewrite app_nil_r in Hn. rewrite Hempty in Hn. injection Hn as <-. eauto.
      * rewrite (lookup_below_empty _ _ _ Hempty) in Hn; discriminate.
    + exact (Habove r n Hr Hne Hn).
  - unfold change. destruct (canonical name) as [|x c] eqn:Ec.
    + rewrite app_nil_r, Hempty. eauto.
    + rewrite (lookup_below_empty _ _ _ Hempty) by discriminate.
      destruct (putFile_parents_succeeds (target ++ x :: c) d disk) as [disk' ->];
        eauto.
      * destruct target; discriminate.
      * intros n Hn. rewrite (lookup_below_empty _ _ _ Hempty) in Hn; discriminate.
Qed.

Lemma pathJoin_joinRel base rel name :
  validName name = true ->
  pathJoin base (joinRel rel name) = pathJoin base rel ++ [name].
Proof.
  intros Hv. unfold pathJoin, joinRel.
  pose proof (validName_no_slash _ Hv) as Hs.
  pose proof (validName_ordinary _ Hv) as Ho.
  destruct rel as [|c r].
  - rewrite (splitSlash_plain _ Hs). simpl. now apply pushSegment_ordinary.
  - change (String c r ++ "/" ++ name)%string
      with (String c r ++ String "/" name)%string.
    rewrite splitSlash_app_slash, fold_left_app, (splitSlash_plain _ Hs). simpl.
    now apply pushSegment_ordinary.
Qed.

(** An entry name made of valid names resolves below the directory it
    is joined to. *)
Lemma pathJoin_joinSegs base segs :
  Forall (fun s => validName s = true) segs ->
  pathJoin base (joinSegs segs) = base ++ segs.
Proof.
  unfold joinSegs.
  assert (H : forall rel, Forall (fun s => validName s = true) segs ->
                pathJoin base (fold_left joinRel segs rel) = pathJoin base rel ++ segs).
  { induction segs as [|x segs IH]; intros rel Hv; simpl.
    - now rewrite app_nil_r.
    - inversion Hv as [|? ? Hx Hrest]; subst.
      rewrite (IH _ Hrest), (pathJoin_joinRel _ _ _ Hx), <- app_assoc. reflexivity. }
  intros Hv. now rewrite (H ""%string Hv).
Qed.

(** C3 as stated fails: the entry [../evil.txt], which resolves to
    [/ws/evil.txt] against the target [/ws/target], is not rejected;
    the restore returns and the file is written as
    [/ws/target/evil.txt]. *)
Lemma traversal_entry_is_not_rejected :
  pathJoin ["ws"; "target"]%string "../evil.txt" = ["ws"; "evil.txt"]%string
  /\ exists disk',
       restoreSnapshot RegExp_test sampleStorage 1 "crafted" ["ws"; "target"]%string
         false diskWithCraftedContainer = (inr tt, disk')
       /\ fileAt ["ws"; "target"; "evil.txt"]%string disk' = Some (Bytes "x")
       /\ fileAt ["ws"; "evil.txt"]%string disk' = None.
Proof.
  split; [reflexivity|]. eexists. split; [vm_compute; reflexivity|].
  split; reflexivity.
Qed.

(** C3 (amended): restoreSnapshot checks no entry path and raises no
    conflict error for one: the archive library's extraction re-roots
    every entry name below targetDir. Whatever the container holds and
    whether the call returns or throws, no file outside targetDir is
    created or changed, apart from the backup container when
    createBackup is set; a container with one entry of any name is
    restored into an empty target directory without error; and the
    containers saveSnapshot writes for a well-formed tree hold only
    entries whose path, joined to targetDir, stays below it. *)
Theorem restoreSnapshot_stays_below_target
  test sd now snapshotId target createBackup disk :
  (forall p,
     ~ isPrefix target p ->
     (createBackup = true -> p <> zipPathOf sd (backupIdAt now)) ->
     fileAt p (snd (restoreSnapshot test sd now snapshotId target createBackup disk))
     = fileAt p disk)
  /\ (forall name d,
        lookup (zipPathOf sd snapshotId) disk = Some (File (ZipBuffer [(name, d)])) ->
        lookup target disk = Some (Dir []) ->
        fst (restoreSnapshot test sd now snapshotId target false disk) = inr tt)
  /\ (forall byteLength now0 root options disk0 m,
        wfDisk disk0 = true ->
        forallb validName sd = true ->
        saveSnapshot test byteLength sd now0 root options disk0 = (inr m, disk) ->
        exists es,
          fileAt (zipPathOf sd (id m)) disk = Some (ZipBuffer es)
          /\ forall p d, In (p, d) es ->
                exists segs, segs <> [] /\ pathJoin target p = target ++ segs).
Proof.
  split; [|split].
  - intros p Hp Hb. unfold restoreSnapshot, bind at 1.
    assert (Hstep : forall r disk1,
              (if createBackup then
                 bind (addFilesToZip test [] target noOptions)
                   (fun st => fs_writeFile (zipPathOf sd (backupIdAt now))
                                (ZipBuffer (zip st)))
               else ret tt) disk = (r, disk1) ->
              fileAt p disk1 = fileAt p disk).
    { intros r disk1. destruct createBackup.
      - unfold bind, addFilesToZip, bind, fs_readdir, inspect.
        destruct (lookup target disk) as [[c| |entries]|];
          try (intros H; now injection H as _ <-).
        destruct (addDirectory test noOptions entries "" _) as [e|st];
          [intros H; now injection H as _ <-|].
        unfold fs_writeFile, change.
        destruct (putFile false _ _ disk) as [e|d1] eqn:E; intros H;
          injection H as _ <-; [reflexivity|].
        exact (putFile_fileAt_other _ _ _ _ _ _ E (Hb eq_refl)).
      - intros H. now injection H as _ <-. }
    match goal with
    | |- context [ (if createBackup then ?a else ?b) disk ] =>
        destruct ((if createBackup then a else b) disk) as [[e|[]] disk1] eqn:E1
    end; simpl; [exact (Hstep _ _ eq_refl)|].
    rewrite <- (Hstep _ _ eq_refl). unfold bind, openZip, inspect.
    destruct (lookup (zipPathOf sd snapshotId) disk1) as [[[s|es|l]| |s]|];
      try reflexivity.
    exact (extractAllTo_outside target es disk1 p Hp).
  - intros name d Hzip Hempty. unfold restoreSnapshot, bind, ret, openZip, inspect.
    rewrite Hzip. unfold extractAllTo. simpl. unfold bind.
    destruct (extractEntry_into_empty target name d disk Hempty) as [disk' ->].
    reflexivity.
  - intros byteLength now0 root options disk0 m Hwf Hsd Hsave.
    pose proof (saveSnapshot_container _ _ _ _ _ _ _ _ _ Hsave)
      as (diskE & entries & st & E0 & El & Es & _ & _ & Hz).
    exists (zip st). split; [exact Hz|].
    destruct (ensureSnapshotsDir_wf sd disk0 diskE Hwf Hsd E0) as [Hwf0 _].
    unfold wfDisk in Hwf0. apply andb_prop in Hwf0 as [Hu0 Hn0].
    intros p d Hin.
    apply (scan_from_empty test options entries st Es) in Hin.
    apply capturedIn_path in Hin as (segs & Hne & Hv & -> & _ & _).
    + exists segs. split; [exact Hne|]. now apply pathJoin_joinSegs.
    + exact (uniqueNode_lookup _ _ _ Hu0 El).
    + exact (proj1 (namedNode_lookup _ _ _ Hn0 El)).
Qed.

Lemma restoreSnapshot_stays_below_target_witness :
  ~ isPrefix ["ws"; "target"]%string ["ws"; "evil.txt"]%string
  /\ fileAt ["ws"; "evil.txt"]%string
       (snd (restoreSnapshot RegExp_test sampleStorage 1 "crafted"
               ["ws"; "target"]%string false diskWithCraftedContainer))
     = fileAt ["ws"; "evil.txt"]%string diskWithCraftedContainer
  /\ lookup (zipPathOf sampleStorage "crafted") diskWithCraftedContainer
     = Some (File (ZipBuffer [("../evil.txt", Bytes "x")]%string))
  /\ lookup ["ws"; "target"]%string diskWithCraftedContainer = Some (Dir [])
  /\ fst (restoreSnapshot RegExp_test sampleStorage 1 "crafted"
            ["ws"; "target"]%string false diskWithCraftedContainer) = inr tt
  /\ wfDisk sampleDisk = true
  /\ forallb validName sampleStorage = true
  /\ sampleSave 1000 sampleDisk = (inr (sampleRecord 1000), diskAfterSampleSave)
  /\ exists es,
       fileAt (zipPathOf sampleStorage (id (sampleRecord 1000))) diskAfterSampleSave
       = Some (ZipBuffer es)
       /\ forall p d, In (p, d) es ->
             exists segs,
               segs <> []
               /\ pathJoin ["ws"; "target"]%string p = ["ws"; "target"]%string ++ segs.
Proof.
  assert (Hn : ~ isPrefix ["ws"; "target"]%string ["ws"; "evil.txt"]%string).
  { intros [c E]. simpl in E. discriminate E. }
  assert (Hs : sampleSave 1000 sampleDisk = (inr (sampleRecord 1000), diskAfterSampleSave))
    by (vm_compute; reflexivity).
  destruct (restoreSnapshot_stays_below_target RegExp_test sampleStorage 1 "crafted"
              ["ws"; "target"]%string false diskWithCraftedContainer) as [H1 [H2 _]].
  destruct (restoreSnapshot_stays_below_target RegExp_test sampleStorage 1 "crafted"
              ["ws"; "target"]%string false diskAfterSampleSave) as [_ [_ H3]].
  split; [exact Hn|]. split.
  { apply H1; [exact Hn|]. intros E. discriminate E. }
  split; [reflexivity|]. split; [reflexivity|]. split.
  { apply (H2 "../evil.txt"%string (Bytes "x")); reflexivity. }
  split; [reflexivity|]. split; [reflexivity|]. split; [exact Hs|].
  apply (H3 nominalLength 1000%Z ["ws"]%string noOptions sampleDisk (sampleRecord 1000)).
  - reflexivity.
  - reflexivity.
  - exact Hs.
Defined.

(* ===================================================================== *)
(** ** Two scenarios of the specification *)
(* ===================================================================== *)

(** With the default excludes, the capture of [a.txt] and [b.log] counts
    one file and packs [a.txt] only. *)
Example capture_leaves_out_the_log :
  exists m disk',
    saveSnapshot RegExp_test nominalLength sampleStorage 1000 ["ws"]%string noOptions
      twoFilesDisk = (inr m, disk')
    /\ fileCount m = 1
    /\ fileAt (zipPathOf sampleStorage (id m)) disk'
       = Some (ZipBuffer [("a.txt", Bytes "0123456789")]%string).
Proof. do 2 eexists. split; [vm_compute; reflexivity|]. split; reflexivity. Qed.

(** Two captures one millisecond apart: the later one is listed first. *)
Example later_capture_is_listed_first :
  map id (listed sampleStorage
            (performAll RegExp_test nominalLength sampleStorage
               [Save 1000 ["ws"]%string noOptions; Save 1001 ["ws"]%string noOptions]
               sampleDisk))
  = ["snapshot_1001"; "snapshot_1000"]%string.
Proof. reflexivity. Qed.

(* ===================================================================== *)
(** ** The index across a capture *)
(* ===================================================================== *)

(** Whether it returns or throws, [ensureSnapshotsDir] changes no file. *)
Lemma ensureSnapshotsDir_fileAt sd disk r :
  fileAt r (snd (ensureSnapshotsDir sd disk)) = fileAt r disk.
Proof.
  unfold ensureSnapshotsDir, tryCatch, fs_access, inspect, fs_mkdir_recursive, change.
  destruct (lookup sd disk) as [n|]; [reflexivity|].
  destruct (mkdirp sd disk) as [e|d] eqn:E; [reflexivity|].
  simpl. exact (mkdirp_fileAt _ _ _ r E).
Qed.

Lemma saveSnapshot_listed test byteLength sd now root options disk m disk' :
  saveSnapshot test byteLength sd now root options disk = (inr m, disk') ->
  listed sd disk' = sortNewestFirst (listed sd disk ++ [m]).
Proof.
  intros H. apply saveSnapshot_inv in H
    as (disk0 & entries & st & disk1 & E0 & El & Es & Ew & Hm & Em).
  rewrite listed_fileAt at 1. rewrite (putFile_fileAt_same _ _ _ _ _ Em).
  f_equal. f_equal. rewrite !listed_fileAt.
  rewrite (putFile_fileAt_other _ _ _ _ _ _ Ew)
    by (intros Hc; symmetry in Hc; exact (zipPathOf_not_metadata sd _ Hc)).
  pose proof (ensureSnapshotsDir_fileAt sd disk (metadataPath sd)) as Hf.
  rewrite E0 in Hf. simpl in Hf. now rewrite Hf.
Qed.

Lemma newestFirst_inv x l :
  newestFirst (x :: l) ->
  newestFirst l /\ forall y, In y l -> (timestamp y <= timestamp x)%Z.
Proof.
  unfold newestFirst. intros H.
  apply Sorted_StronglySorted in H; [|exact newerOrSame_trans].
  inversion H as [|? ? Hs Hall]; subst. split.
  - now apply StronglySorted_Sorted.
  - rewrite Forall_forall in Hall. exact Hall.
Qed.

Lemma filter_none {A} (f : A -> bool) l :
  (forall x, In x l -> f x = false) -> filter f l = [].
Proof.
  induction l as [|x l IH]; intros H; simpl; [reflexivity|].
  rewrite (H x (or_introl eq_refl)). apply IH. intros y Hy. apply H. now right.
Qed.

Lemma filter_all {A} (f : A -> bool) l :
  (forall x, In x l -> f x = true) -> filter f l = l.
Proof.
  induction l as [|x l IH]; intros H; simpl; [reflexivity|].
  rewrite (H x (or_introl eq_refl)). f_equal. apply IH. intros y Hy. apply H. now right.
Qed.

(** Sorting a sorted index with one record appended: the record goes
    after the records at least as new and before the older ones. *)
Lemma sortNewestFirst_snoc l m :
  newestFirst l ->
  sortNewestFirst (l ++ [m]) =
  filter (fun r => (timestamp m <=? timestamp r)%Z) l
  ++ m :: filter (fun r => (timestamp r <? timestamp m)%Z) l.
Proof.
  induction l as [|x l IH]; intros Hs; [reflexivity|].
  apply newestFirst_inv in Hs as [Hs Hx].
  change (sortNewestFirst ((x :: l) ++ [m]))
    with (insertNewestFirst x (sortNewestFirst (l ++ [m]))).
  rewrite (IH Hs). simpl.
  destruct (Z.leb_spec (timestamp m) (timestamp x)) as [Hle|Hlt].
  - replace (timestamp x <? timestamp m)%Z with false by (symmetry; apply Z.ltb_ge; lia).
    destruct (filter (fun r => (timestamp m <=? timestamp r)%Z) l) as [|y hi] eqn:Ehi;
      simpl.
    + replace (timestamp m <=? timestamp x)%Z with true by (symmetry; apply Z.leb_le; lia).
      reflexivity.
    + assert (Hy : In y l).
      { assert (Hin : In y (y :: hi)) by now left.
        rewrite <- Ehi in Hin. now apply filter_In in Hin. }
      replace (timestamp y <=? timestamp x)%Z with true
        by (symmetry; apply Z.leb_le; auto).
      reflexivity.
  - replace (timestamp x <? timestamp m)%Z with true by (symmetry; apply Z.ltb_lt; lia).
    rewrite (filter_none (fun r => (timestamp m <=? timestamp r)%Z) l)
      by (intros y Hy; apply Z.leb_gt; specialize (Hx y Hy); lia).
    rewrite (filter_all (fun r => (timestamp r <? timestamp m)%Z) l)
      by (intros y Hy; apply Z.ltb_lt; specialize (Hx y Hy); lia).
    simpl.
    replace (timestamp m <=? timestamp x)%Z with false by (symmetry; apply Z.leb_gt; lia).
    f_equal. destruct l as [|y l]; [reflexivity|]. simpl.
    replace (timestamp y <=? timestamp x)%Z with true
      by (symmetry; apply Z.leb_le; apply Hx; now left).
    reflexivity.
Qed.

(** X1: after a capture that returns, the index lists the records it
    listed before, in their order, and the new record among them: after
    every record at least as new, before every older one (the index
    being sorted before the capture; a missing or unparsable index
    counts as empty). *)
Theorem saveSnapshot_places_record
  test byteLength sd now root options disk m disk' :
  newestFirst (listed sd disk) ->
  saveSnapshot test byteLength sd now root options disk = (inr m, disk') ->
  listed sd disk' =
  filter (fun r => (now <=? timestamp r)%Z) (listed sd disk)
  ++ m :: filter (fun r => (timestamp r <? now)%Z) (listed sd disk).
Proof.
  intros Hs H. rewrite (saveSnapshot_listed _ _ _ _ _ _ _ _ _ H).
  rewrite (sortNewestFirst_snoc _ _ Hs).
  apply saveSnapshot_inv in H as (? & ? & ? & ? & _ & _ & _ & _ & -> & _).
  reflexivity.
Qed.

Lemma saveSnapshot_places_record_witness :
  newestFirst (listed sampleStorage diskAfterSampleSave)
  /\ sampleSave 2000 diskAfterSampleSave = (inr (sampleRecord 2000), diskAfterSecondSave)
  /\ listed sampleStorage diskAfterSecondSave =
     filter (fun r => (2000 <=? timestamp r)%Z) (listed sampleStorage diskAfterSampleSave)
     ++ sampleRecord 2000
        :: filter (fun r => (timestamp r <? 2000)%Z)
             (listed sampleStorage diskAfterSampleSave).
Proof.
  assert (Hs : newestFirst (listed sampleStorage diskAfterSampleSave)).
  { vm_compute. repeat constructor. }
  assert (He : sampleSave 2000 diskAfterSampleSave
               = (inr (sampleRecord 2000), diskAfterSecondSave))
    by (vm_compute; reflexivity).
  split; [exact Hs|]. split; [exact He|].
  exact (saveSnapshot_places_record RegExp_test nominalLength sampleStorage 2000
           ["ws"]%string noOptions diskAfterSampleSave (sampleRecord 2000)
           diskAfterSecondSave Hs He).
Defined.

(* ===================================================================== *)
(** ** Reading the storage back *)
(* ===================================================================== *)

Lemma getSnapshotMetadata_find sd snapshotId disk :
  getSnapshotMetadata sd snapshotId disk =
  (inr (find (fun s => String.eqb (id s) snapshotId) (listed sd disk)), disk).
Proof.
  unfold getSnapshotMetadata, bind. now rewrite listSnapshots_listed.
Qed.

(** X3: where the index document is absent or unreadable, holds what
    the storage wrote, or holds content that [JSON.parse] rejects at its
    first character (an empty file included), getSnapshotMetadata does
    not throw and leaves the disk as it is: it returns a listed record with
    the identifier asked for, the first one in index order, and null
    exactly when no listed record has that identifier. *)
Theorem getSnapshotMetadata_first_match sd snapshotId disk :
  indexGivesArray sd disk = true ->
  exists r,
    getSnapshotMetadata sd snapshotId disk = (inr r, disk)
    /\ match r with
       | Some m =>
           exists before after,
             listed sd disk = before ++ m :: after
             /\ id m = snapshotId
             /\ forall x, In x before -> id x <> snapshotId
       | None => forall m, In m (listed sd disk) -> id m <> snapshotId
       end.
Proof.
  intros _.
  rewrite getSnapshotMetadata_find. eexists. split; [reflexivity|].
  induction (listed sd disk) as [|x l IH]; simpl.
  - intros m [].
  - destruct (String.eqb_spec (id x) snapshotId) as [E|N].
    + exists [], l. repeat split; auto.
    + destruct (find (fun s => String.eqb (id s) snapshotId) l) as [m|].
      * destruct IH as (before & after & -> & Hid & Hb).
        exists (x :: before), after. repeat split; auto.
        intros y [<-|Hy]; auto.
      * intros m [<-|Hm]; auto.
Qed.

Lemma getSnapshotMetadata_first_match_witness :
  indexGivesArray sampleStorage diskAfterSecondSave = true
  /\ exists r,
       getSnapshotMetadata sampleStorage "snapshot_1000" diskAfterSecondSave
       = (inr r, diskAfterSecondSave)
       /\ match r with
          | Some m =>
              exists before after,
                listed sampleStorage diskAfterSecondSave = before ++ m :: after
                /\ id m = "snapshot_1000"%string
                /\ forall x, In x before -> id x <> "snapshot_1000"%string
          | None => forall m, In m (listed sampleStorage diskAfterSecondSave) ->
                              id m <> "snapshot_1000"%string
          end.
Proof.
  split; [reflexivity|].
  apply (getSnapshotMetadata_first_match sampleStorage "snapshot_1000"
           diskAfterSecondSave).
  reflexivity.
Defined.

(** X4: after a capture that returns, getSnapshotMetadata finds a record
    under the identifier of the capture; it is the record the capture
    returned when no record had that identifier before. *)
Theorem getSnapshotMetadata_after_save
  test byteLength sd now root options disk m disk' :
  saveSnapshot test byteLength sd now root options disk = (inr m, disk') ->
  exists r,
    getSnapshotMetadata sd (id m) disk' = (inr (Some r), disk')
    /\ id r = id m
    /\ ((forall x, In x (listed sd disk) -> id x <> id m) -> r = m).
Proof.
  intros H. rewrite getSnapshotMetadata_find.
  pose proof (saveSnapshot_listed _ _ _ _ _ _ _ _ _ H) as Hl.
  assert (Hin : forall x, In x (listed sd disk') <-> In x (listed sd disk) \/ x = m).
  { intros x. rewrite Hl. split.
    - intros Hx. apply (Permutation_in _ (Permutation_sym (sortNewestFirst_perm _))) in Hx.
      apply in_app_or in Hx as [Hx|[<-|[]]]; auto.
    - intros Hx. apply (Permutation_in _ (sortNewestFirst_perm _)).
      apply in_or_app. destruct Hx as [Hx| ->]; [now left|right; now left]. }
  destruct (find (fun s => String.eqb (id s) (id m)) (listed sd disk')) as [r|] eqn:E.
  - apply find_some in E as [Hr Hid]. apply String.eqb_eq in Hid.
    exists r. repeat split; auto.
    intros Hfresh. apply Hin in Hr as [Hr|Hr]; [|exact Hr].
    now destruct (Hfresh r Hr).
  - exfalso. assert (Hm : In m (listed sd disk')) by (apply Hin; now right).
    pose proof (find_none _ _ E m Hm) as Hn. simpl in Hn.
    rewrite String.eqb_refl in Hn. discriminate.
Qed.

Lemma getSnapshotMetadata_after_save_witness :
  sampleSave 1000 sampleDisk = (inr (sampleRecord 1000), diskAfterSampleSave)
  /\ exists r,
       getSnapshotMetadata sampleStorage (id (sampleRecord 1000)) diskAfterSampleSave
       = (inr (Some r), diskAfterSampleSave)
       /\ id r = id (sampleRecord 1000)
       /\ ((forall x, In x (listed sampleStorage sampleDisk) ->
                      id x <> id (sampleRecord 1000)) ->
           r = sampleRecord 1000).
Proof.
  assert (He : sampleSave 1000 sampleDisk
               = (inr (sampleRecord 1000), diskAfterSampleSave))
    by (vm_compute; reflexivity).
  split; [exact He|].
  exact (getSnapshotMetadata_after_save RegExp_test nominalLength sampleStorage 1000
           ["ws"]%string noOptions sampleDisk (sampleRecord 1000)
           diskAfterSampleSave He).
Defined.

Lemma scan_count test options es st :
  addDirectory test options es "" (mkScan [] 0) = inr st ->
  count st = List.length (zip st).
Proof.
  intros H. apply addDirectory_scanAdds in H as (added & Hz & Hc & _).
  simpl in *. now rewrite Hz, Hc.
Qed.

(** X5: on a disk whose names hold no separator and are distinct within
    a directory, after a capture that returns, loadSnapshot under the
    returned identifier gives back the container that was written; the
    record's fileCount is the number of entries of that container, its
    size the size of the container file, and its message and
    workspacePath are the ones the call was given. *)
Theorem loadSnapshot_after_save
  test byteLength sd now root options disk m disk' :
  wfDisk disk = true ->
  forallb validName sd = true ->
  saveSnapshot test byteLength sd now root options disk = (inr m, disk') ->
  exists es,
    loadSnapshot sd (id m) disk' = (inr (ZipBuffer es), disk')
    /\ fileCount m = List.length es
    /\ size m = byteLength (ZipBuffer es)
    /\ message m = optMessage options
    /\ workspacePath m = root.
Proof.
  intros _ _ H. apply saveSnapshot_inv in H
    as (disk0 & entries & st & disk1 & E0 & El & Es & Ew & -> & Em).
  exists (zip st). unfold loadSnapshot, fs_readFile, inspect. simpl.
  assert (Hf : lookup (zipPathOf sd (snapshotIdAt now)) disk'
               = Some (File (ZipBuffer (zip st)))).
  { apply fileAt_lookup. rewrite (putFile_fileAt_other _ _ _ _ _ _ Em).
    - exact (putFile_fileAt_same _ _ _ _ _ Ew).
    - apply zipPathOf_not_metadata. }
  rewrite Hf. repeat split. exact (scan_count _ _ _ _ Es).
Qed.

Lemma loadSnapshot_after_save_witness :
  wfDisk sampleDisk = true
  /\ forallb validName sampleStorage = true
  /\ sampleSave 1000 sampleDisk = (inr (sampleRecord 1000), diskAfterSampleSave)
  /\ exists es,
       loadSnapshot sampleStorage (id (sampleRecord 1000)) diskAfterSampleSave
       = (inr (ZipBuffer es), diskAfterSampleSave)
       /\ fileCount (sampleRecord 1000) = List.length es
       /\ size (sampleRecord 1000) = nominalLength (ZipBuffer es)
       /\ message (sampleRecord 1000) = optMessage noOptions
       /\ workspacePath (sampleRecord 1000) = ["ws"]%string.
Proof.
  assert (He : sampleSave 1000 sampleDisk
               = (inr (sampleRecord 1000), diskAfterSampleSave))
    by (vm_compute; reflexivity).
  split; [reflexivity|]. split; [reflexivity|]. split; [exact He|].
  exact (loadSnapshot_after_save RegExp_test nominalLength sampleStorage 1000
           ["ws"]%string noOptions sampleDisk (sampleRecord 1000)
           diskAfterSampleSave eq_refl eq_refl He).
Defined.

(* ===================================================================== *)
(** ** What a capture writes, and when it goes through *)
(* ===================================================================== *)

(** The disks a capture goes through: the one [ensureSnapshotsDir]
    leaves, the one with the container written, the one with the index
    written; a capture that throws stops at the first or the second. *)
Lemma saveSnapshot_trace test byteLength sd now root options disk :
  let out := saveSnapshot test byteLength sd now root options disk in
  let disk0 := snd (ensureSnapshotsDir sd disk) in
  (exists e, out = (inl e, disk0))
  \/ exists d disk1,
       putFile false (zipPathOf sd (snapshotIdAt now)) d disk0 = inr disk1
       /\ ((exists e, out = (inl e, disk1))
           \/ exists m l disk2,
                out = (inr m, disk2)
                /\ putFile false (metadataPath sd) (JsonDoc l) disk1 = inr disk2).
Proof.
  simpl. remember (saveSnapshot test byteLength sd now root options disk) as out eqn:Ho.
  revert Ho. unfold saveSnapshot, bind at 1.
  destruct (ensureSnapshotsDir sd disk) as [[e|[]] disk0]; simpl; [eauto|].
  unfold bind at 1, addFilesToZip, bind at 1, fs_readdir, inspect.
  destruct (lookup root disk0) as [[c| |entries]|]; eauto.
  destruct (addDirectory test options entries "" (mkScan [] 0)) as [e|st]; [eauto|].
  unfold bind at 1, fs_writeFile, change.
  destruct (putFile false (zipPathOf sd (snapshotIdAt now)) (ZipBuffer (zip st)) disk0)
    as [e|disk1] eqn:Ew; [eauto|].
  intros Ho. right. exists (ZipBuffer (zip st)), disk1. split; [exact Ew|].
  revert Ho.
  unfold bind, fs_stat_size, inspect, updateMetadata, saveMetadata, fs_writeFile,
    change, ret.
  unfold bind. rewrite (putFile_lookup_same _ _ _ _ _ Ew), listSnapshots_listed.
  match goal with
  | |- context [putFile false (metadataPath sd) ?d disk1] =>
      destruct (putFile false (metadataPath sd) d disk1) as [e|disk2] eqn:Em
  end; [eauto|].
  intros Ho. right. do 3 eexists. split; [exact Ho|exact Em].
Qed.

(** X6: whether it returns or throws, a capture creates, changes or
    removes no file other than its container and the index document. *)
Theorem saveSnapshot_writes_two_files
  test byteLength sd now root options disk p :
  p <> zipPathOf sd (snapshotIdAt now) ->
  p <> metadataPath sd ->
  fileAt p (snd (saveSnapshot test byteLength sd now root options disk))
  = fileAt p disk.
Proof.
  intros Hz Hm.
  pose proof (ensureSnapshotsDir_fileAt sd disk p) as H0.
  destruct (saveSnapshot_trace test byteLength sd now root options disk)
    as [[e ->]|(d & disk1 & Ew & [[e ->]|(m & l & disk2 & -> & Em)])]; simpl.
  - exact H0.
  - now rewrite (putFile_fileAt_other _ _ _ _ _ _ Ew).
  - rewrite (putFile_fileAt_other _ _ _ _ _ _ Em) by exact Hm.
    now rewrite (putFile_fileAt_other _ _ _ _ _ _ Ew).
Qed.

Lemma saveSnapshot_writes_two_files_witness :
  ["ws"; "a.txt"]%string <> zipPathOf sampleStorage (snapshotIdAt 1000)
  /\ ["ws"; "a.txt"]%string <> metadataPath sampleStorage
  /\ fileAt ["ws"; "a.txt"]%string
       (snd (saveSnapshot RegExp_test nominalLength sampleStorage 1000 ["ws"]%string
               noOptions sampleDisk))
     = fileAt ["ws"; "a.txt"]%string sampleDisk.
Proof.
  assert (Hz : ["ws"; "a.txt"]%string <> zipPathOf sampleStorage (snapshotIdAt 1000))
    by (vm_compute; discriminate).
  assert (Hm : ["ws"; "a.txt"]%string <> metadataPath sampleStorage)
    by (vm_compute; discriminate).
  split; [exact Hz|]. split; [exact Hm|].
  exact (saveSnapshot_writes_two_files RegExp_test nominalLength sampleStorage 1000
           ["ws"]%string noOptions sampleDisk ["ws"; "a.txt"]%string Hz Hm).
Defined.

(** X7: a capture that throws leaves the index as it was, and every
    file but the container it may already have written. *)
Theorem saveSnapshot_failure_keeps_index
  test byteLength sd now root options disk e disk' :
  saveSnapshot test byteLength sd now root options disk = (inl e, disk') ->
  listed sd disk' = listed sd disk
  /\ forall p, p <> zipPathOf sd (snapshotIdAt now) -> fileAt p disk' = fileAt p disk.
Proof.
  intros H.
  assert (Hp : forall p, p <> zipPathOf sd (snapshotIdAt now) ->
                         fileAt p disk' = fileAt p disk).
  { intros p Hz. pose proof (ensureSnapshotsDir_fileAt sd disk p) as H0.
    destruct (saveSnapshot_trace test byteLength sd now root options disk)
      as [[x Hx]|(d & disk1 & Ew & [[x Hx]|(m & l & disk2 & Hx & Em)])];
      rewrite H in Hx; try discriminate; injection Hx as _ ->.
    - exact H0.
    - now rewrite (putFile_fileAt_other _ _ _ _ _ _ Ew). }
  split; [|exact Hp]. rewrite !listed_fileAt. rewrite Hp; [reflexivity|].
  intros Hc. symmetry in Hc. exact (zipPathOf_not_metadata sd _ Hc).
Qed.

Lemma saveSnapshot_failure_keeps_index_witness :
  exists disk',
    saveSnapshot RegExp_test nominalLength sampleStorage 1000 ["nowhere"]%string
      noOptions sampleDisk = (inl ENOENT, disk')
    /\ listed sampleStorage disk' = listed sampleStorage sampleDisk
    /\ forall p, p <> zipPathOf sampleStorage (snapshotIdAt 1000) ->
                 fileAt p disk' = fileAt p sampleDisk.
Proof.
  eexists. split; [vm_compute; reflexivity|].
  apply (saveSnapshot_failure_keeps_index RegExp_test nominalLength sampleStorage 1000
           ["nowhere"]%string noOptions sampleDisk ENOENT).
  vm_compute. reflexivity.
Defined.

Section FilterAnswers.

Variable test : string -> string -> result bool.

Lemma anyMatches_answers fp l :
  (forall pat, In pat l -> exists b, matchesPattern test fp pat = inr b) ->
  exists b, anyMatches test fp l = inr b.
Proof.
  induction l as [|pat l IH]; intros H; simpl; [eauto|].
  destruct (H pat (or_introl eq_refl)) as [b ->]. simpl.
  destruct b; [eauto|]. apply IH. intros x Hx. apply H. now right.
Qed.

Lemma shouldIncludeFile_answers fp options :
  (forall pat, In pat (patternsOf options) ->
               exists b, matchesPattern test fp pat = inr b) ->
  exists b, shouldIncludeFile test fp options = inr b.
Proof.
  unfold patternsOf, shouldIncludeFile. intros H.
  destruct (anyMatches_answers fp
              (defaultExcludes
               ++ match excludePatterns options with Some l => l | None => [] end))
    as [b Hb].
  { intros pat Hp. apply H. rewrite app_assoc. apply in_or_app. now left. }
  rewrite Hb. simpl. destruct b; [eauto|].
  destruct (includePatterns options) as [[|p ps]|]; eauto.
  apply (anyMatches_answers fp (p :: ps)). intros pat Hp. apply H.
  apply in_or_app. right. apply in_or_app. now right.
Qed.

Variable options : SnapshotOptions.

Hypothesis answers :
  forall fp pat, In pat (patternsOf options) ->
                 exists b, matchesPattern test fp pat = inr b.

Lemma addEntry_returns n :
  forall rel name st, exists st', addEntry test options rel name n st = inr st'.
Proof.
  induction n as [d| |es IH] using node_ind'; intros rel name st;
    rewrite addEntry_unfold;
    (destruct (String.eqb name ".snapshots"); [eauto|]);
    destruct (shouldIncludeFile_answers (joinRel rel name) options) as [b ->];
    auto; simpl; destruct b; eauto.
  generalize (joinRel rel name). clear rel name. revert st.
  induction IH as [|[name n] es Hn _ IHes]; intros st rel.
  - exists st. reflexivity.
  - rewrite addDirectory_cons. destruct (Hn rel name st) as [st1 H1].
    simpl in H1. rewrite H1. simpl. apply IHes.
Qed.

Lemma addDirectory_returns es :
  forall rel st, exists st', addDirectory test options es rel st = inr st'.
Proof.
  induction es as [|[name n] es IH]; intros rel st.
  - exists st. reflexivity.
  - rewrite addDirectory_cons. destruct (addEntry_returns n rel name st) as [st1 ->].
    simpl. apply IH.
Qed.

End FilterAnswers.

Lemma isPrefix_firstn (r p : path) : isPrefix r p -> r = firstn (List.length r) p.
Proof.
  intros [c ->]. rewrite firstn_app, Nat.sub_diag, firstn_all. simpl.
  now rewrite app_nil_r.
Qed.

Lemma isPrefix_length (r p : path) : isPrefix r p -> List.length r <= List.length p.
Proof. intros [c ->]. rewrite length_app. lia. Qed.

Lemma dirsOrAbsent_spec p disk :
  dirsOrAbsent p disk = true ->
  forall r n, isPrefix r p -> lookup r disk = Some n -> exists s, n = Dir s.
Proof.
  unfold dirsOrAbsent. rewrite forallb_forall. intros H r n Hr Hn.
  specialize (H (List.length r)). rewrite <- (isPrefix_firstn r p Hr) in H.
  unfold kindAt in H. rewrite Hn in H.
  assert (Hin : In (List.length r) (seq 0 (S (List.length p)))).
  { apply in_seq. apply isPrefix_length in Hr. lia. }
  specialize (H Hin). destruct n; try discriminate. eauto.
Qed.

Lemma fileOrAbsent_spec p disk :
  fileOrAbsent p disk = true ->
  forall n, lookup p disk = Some n -> exists c, n = File c.
Proof.
  unfold fileOrAbsent, kindAt. intros H n Hn. rewrite Hn in H.
  destruct n; try discriminate. eauto.
Qed.

Lemma not_isPrefix_longer (q : path) name : ~ isPrefix (q ++ [name]) q.
Proof.
  intros H. apply isPrefix_length in H. rewrite length_app in H. simpl in H. lia.
Qed.

(** What [ensureSnapshotsDir] leaves when everything down to the storage
    directory is a directory or absent: the directory is there, what is
    in it is as before, and a directory elsewhere is still one. *)
Lemma ensureSnapshotsDir_ready sd disk :
  dirsOrAbsent sd disk = true ->
  exists disk0 sub,
    ensureSnapshotsDir sd disk = (inr tt, disk0)
    /\ lookup sd disk0 = Some (Dir sub)
    /\ (forall name, lookup (sd ++ [name]) disk0 = lookup (sd ++ [name]) disk)
    /\ (forall r es, lookup r disk = Some (Dir es) ->
                     exists es', lookup r disk0 = Some (Dir es')).
Proof.
  intros Hd. pose proof (dirsOrAbsent_spec _ _ Hd) as Hp.
  assert (Hsd : isPrefix sd sd) by (exists []; now rewrite app_nil_r).
  unfold ensureSnapshotsDir, tryCatch, fs_access, inspect, fs_mkdir_recursive, change.
  destruct (lookup sd disk) as [n|] eqn:E.
  - destruct (Hp sd n Hsd E) as [s ->]. exists disk, s. repeat split; eauto.
  - destruct (mkdirp_succeeds sd disk Hp) as [disk0 Hm]. rewrite Hm.
    destruct (mkdirp_lookup_above _ _ _ sd Hm Hsd) as [sub Hsub].
    exists disk0, sub. repeat split; auto.
    + intros name. apply (mkdirp_lookup_other _ _ _ _ Hm). apply not_isPrefix_longer.
    + intros r es Hr. destruct (isPrefix_dec r sd) as [Hy|Hn].
      * destruct (mkdirp_lookup_above _ _ _ r Hm Hy) as [es' He]. eauto.
      * rewrite (mkdirp_lookup_other _ _ _ _ Hm Hn). eauto.
Qed.

(** X8: a capture returns whenever the workspace root is a directory,
    everything down to the storage directory is a directory or absent,
    the container path and the index document are files or free, the
    index document, if there is one, holds what the storage wrote or
    content that [JSON.parse] rejects at its first character (an empty
    file included), and the regular-expression engine answers for every
    pattern in use. *)
Theorem saveSnapshot_returns
  test byteLength sd now root options disk entries :
  lookup root disk = Some (Dir entries) ->
  dirsOrAbsent sd disk = true ->
  fileOrAbsent (zipPathOf sd (snapshotIdAt now)) disk = true ->
  fileOrAbsent (metadataPath sd) disk = true ->
  indexGivesArray sd disk = true ->
  (forall fp pat, In pat (patternsOf options) ->
                  exists b, matchesPattern test fp pat = inr b) ->
  exists m disk',
    saveSnapshot test byteLength sd now root options disk = (inr m, disk').
Proof.
  intros Hroot Hd Hz Hm _ Ha.
  destruct (ensureSnapshotsDir_ready sd disk Hd) as (disk0 & sub & E0 & Hsd & Hin & Hdirs).
  destruct (Hdirs root entries Hroot) as [entries0 Hroot0].
  destruct (addDirectory_returns test options Ha entries0 "" (mkScan [] 0)) as [st Hs].
  rewrite zipPathOf_snapshot in Hz. rewrite metadataPath_eq in Hm.
  destruct (putFile_succeeds sd (snapshotIdAt now ++ ".zip")%string
              (ZipBuffer (zip st)) disk0 sub Hsd) as [disk1 Ew].
  { rewrite Hin. now apply fileOrAbsent_spec. }
  assert (Hne : sd ++ [(snapshotIdAt now ++ ".zip")%string] <> sd)
    by (intros Hc; apply (not_isPrefix_longer sd (snapshotIdAt now ++ ".zip")%string);
        rewrite Hc; exists []; now rewrite app_nil_r).
  destruct (putFile_lookup_above _ _ _ _ _ sd Ew (isPrefix_app_r _ _)) as [sub1 Hsd1];
    [congruence|].
  assert (Hnm : ~ isPrefix (sd ++ ["metadata.json"%string])
                  (sd ++ [(snapshotIdAt now ++ ".zip")%string])).
  { intros [c Hc]. rewrite <- app_assoc in Hc. apply app_inv_head in Hc.
    simpl in Hc. injection Hc as Hc _.
    apply (zipPathOf_not_metadata sd (snapshotIdAt now)).
    now rewrite zipPathOf_snapshot, metadataPath_eq, Hc. }
  match goal with
  | |- exists m disk', saveSnapshot ?t ?b ?s ?n ?r ?o ?d = _ =>
      pose (record := mkMetadata (snapshotIdAt now) now (optMessage options) (count st)
                        (byteLength (ZipBuffer (zip st))) root)
  end.
  destruct (putFile_succeeds sd "metadata.json"
              (JsonDoc (sortNewestFirst (listed sd disk1 ++ [record]))) disk1 sub1 Hsd1)
    as [disk2 Em].
  { rewrite (putFile_lookup_other _ _ _ _ _ _ Ew Hnm), Hin.
    now apply fileOrAbsent_spec. }
  exists record, disk2.
  unfold saveSnapshot, bind at 1. rewrite E0.
  unfold bind at 1, addFilesToZip, bind at 1, fs_readdir, inspect. rewrite Hroot0, Hs.
  rewrite zipPathOf_snapshot.
  unfold bind at 1, fs_writeFile, change. rewrite Ew.
  unfold bind, fs_stat_size, inspect, updateMetadata, saveMetadata, fs_writeFile,
    change, ret.
  unfold bind. rewrite (putFile_lookup_same _ _ _ _ _ Ew), listSnapshots_listed.
  rewrite metadataPath_eq. fold record. now rewrite Em.
Qed.

Lemma saveSnapshot_returns_witness :
  lookup ["ws"]%string sampleDisk
  = Some (Dir [("a.txt", File (Bytes "0123456789"));
               ("b.log", File (Bytes "12345"));
               ("src", Dir [("a.ts", File (Bytes "let a"))])]%string)
  /\ dirsOrAbsent sampleStorage sampleDisk = true
  /\ fileOrAbsent (zipPathOf sampleStorage (snapshotIdAt 1000)) sampleDisk = true
  /\ fileOrAbsent (metadataPath sampleStorage) sampleDisk = true
  /\ indexGivesArray sampleStorage sampleDisk = true
  /\ exists m disk',
       saveSnapshot RegExp_test nominalLength sampleStorage 1000 ["ws"]%string
         noOptions sampleDisk = (inr m, disk').
Proof.
  repeat (split; [reflexivity|]).
  apply (saveSnapshot_returns RegExp_test nominalLength sampleStorage 1000
           ["ws"]%string noOptions sampleDisk
           [("a.txt", File (Bytes "0123456789"));
            ("b.log", File (Bytes "12345"));
            ("src", Dir [("a.ts", File (Bytes "let a"))])]%string);
    try reflexivity.
  intros fp pat Hp. apply RegExp_test_answers_defaults.
  unfold patternsOf in Hp. simpl in Hp. simpl. tauto.
Defined.

(* ===================================================================== *)
(** ** What a deletion, a directory check and a restore leave alone *)
(* ===================================================================== *)

Lemma unlinkFile_lookup_same p :
  forall es es',
    uniqueDisk es = true -> unlinkFile p es = inr es' -> lookup p es' = None.
Proof.
  induction p as [|name p IH]; intros es es' Hu H; [discriminate|].
  rewrite lookup_cons. unfold uniqueDisk in Hu.
  apply unlinkFile_inv in H as [(-> & -> & x & Hx & Hnd)|(Hp & sub & sub' & Hf & Hsub & ->)].
  - rewrite uniqueNode_Dir in Hu. apply andb_prop in Hu as [Hd _].
    now rewrite findEntry_removeEntry_same.
  - rewrite findEntry_setEntry_same.
    apply (IH sub sub'); [|exact Hsub].
    exact (uniqueNode_child _ _ _ Hu Hf).
Qed.

Lemma unlinkFile_fails_no_file p :
  forall es e, unlinkFile p es = inl e -> fileAt p es = None.
Proof.
  unfold fileAt. induction p as [|name p IH]; intros es e H; [reflexivity|].
  rewrite lookup_cons. simpl in H.
  destruct p as [|n p].
  - destruct (findEntry name es) as [[c| |sub]|]; try discriminate; reflexivity.
  - destruct (findEntry name es) as [[c| |sub]|]; try reflexivity.
    destruct (unlinkFile (n :: p) sub) as [x|sub'] eqn:E; [|discriminate].
    exact (IH sub x E).
Qed.

(** What one deletion does to a storage that is ready. *)
Lemma deleteSnapshot_effect sd snapshotId disk :
  storageReady sd disk = true ->
  exists disk',
    deleteSnapshot sd snapshotId disk = (inr tt, disk')
    /\ storageReady sd disk' = true
    /\ listed sd disk'
       = filter (fun s => negb (String.eqb (id s) snapshotId)) (listed sd disk)
    /\ fileAt (zipPathOf sd snapshotId) disk' = None
    /\ forall p, p <> zipPathOf sd snapshotId -> p <> metadataPath sd ->
                 fileAt p disk' = fileAt p disk.
Proof.
  intros Hr.
  destruct (deleteSnapshot_ready sd snapshotId disk Hr) as (disk' & E & Hr' & Hl).
  exists disk'. split; [exact E|]. split; [exact Hr'|]. split; [exact Hl|].
  assert (Hu : uniqueDisk disk = true) by (apply storageReady_iff in Hr; tauto).
  revert E. unfold deleteSnapshot, bind at 1, tryCatch, fs_unlink, change.
  assert (Hz : zipPathOf sd snapshotId <> metadataPath sd)
    by apply zipPathOf_not_metadata.
  destruct (unlinkFile (zipPathOf sd snapshotId) disk) as [e|disk1] eqn:E1;
    unfold ret, bind; rewrite listSnapshots_listed;
    unfold saveMetadata, fs_writeFile, change;
    match goal with
    | |- context [putFile false (metadataPath sd) ?d ?k] =>
        destruct (putFile false (metadataPath sd) d k) as [x|disk2] eqn:E2
    end; try discriminate; intros H; injection H as <-; split.
  - rewrite (putFile_fileAt_other _ _ _ _ _ _ E2 Hz).
    exact (unlinkFile_fails_no_file _ _ _ E1).
  - intros p _ Hm. exact (putFile_fileAt_other _ _ _ _ _ _ E2 Hm).
  - rewrite (putFile_fileAt_other _ _ _ _ _ _ E2 Hz).
    unfold fileAt. now rewrite (unlinkFile_lookup_same _ _ _ Hu E1).
  - intros p Hp Hm. rewrite (putFile_fileAt_other _ _ _ _ _ _ E2 Hm).
    exact (unlinkFile_fileAt_other _ _ _ _ Hu E1 Hp).
Qed.

(** X9: on a storage that is ready and whose index document, if there
    is one, holds what the storage wrote or content that [JSON.parse]
    rejects at its first character (an empty file included),
    deleteSnapshot returns, no file is left at the container path of the
    identifier, and every file other than that container and the index
    document is as before: the containers of other snapshots are not
    touched. *)
Theorem deleteSnapshot_removes_container sd snapshotId disk :
  storageReady sd disk = true ->
  indexGivesArray sd disk = true ->
  exists disk',
    deleteSnapshot sd snapshotId disk = (inr tt, disk')
    /\ fileAt (zipPathOf sd snapshotId) disk' = None
    /\ forall p, p <> zipPathOf sd snapshotId -> p <> metadataPath sd ->
                 fileAt p disk' = fileAt p disk.
Proof.
  intros Hr _.
  destruct (deleteSnapshot_effect sd snapshotId disk Hr) as (disk' & E & _ & _ & Hz & Hp).
  exists disk'. auto.
Qed.

Lemma deleteSnapshot_removes_container_witness :
  storageReady sampleStorage diskAfterSecondSave = true
  /\ indexGivesArray sampleStorage diskAfterSecondSave = true
  /\ exists disk',
       deleteSnapshot sampleStorage "snapshot_1000" diskAfterSecondSave = (inr tt, disk')
       /\ fileAt (zipPathOf sampleStorage "snapshot_1000") disk' = None
       /\ forall p, p <> zipPathOf sampleStorage "snapshot_1000" ->
                    p <> metadataPath sampleStorage ->
                    fileAt p disk' = fileAt p diskAfterSecondSave.
Proof.
  split; [reflexivity|]. split; [reflexivity|].
  apply (deleteSnapshot_removes_container sampleStorage "snapshot_1000"
           diskAfterSecondSave); reflexivity.
Defined.

Lemma mkdirp_new p :
  forall es es',
    lookup p es = None -> mkdirp p es = inr es' -> lookup p es' = Some (Dir []).
Proof.
  induction p as [|name p IH]; intros es es' Hl H; [discriminate|].
  rewrite lookup_cons in *.
  apply mkdirp_inv in H as (sub & sub' & Hf & Hsub & ->).
  rewrite findEntry_setEntry_same.
  change (lookupNode p (Dir sub')) with (lookup p sub').
  destruct Hf as [Hf|(Hf & ->)].
  - rewrite Hf in Hl. exact (IH _ _ Hl Hsub).
  - destruct p as [|n p].
    + simpl in Hsub. injection Hsub as <-. reflexivity.
    + apply (IH [] sub'); [reflexivity|exact Hsub].
Qed.

(** X10: ensureSnapshotsDir changes nothing when anything at all is at
    the storage path, a regular file included; when nothing is there and
    it returns, the storage path is an empty directory, no file has
    changed, and a second call changes nothing. *)
Theorem ensureSnapshotsDir_idempotent sd disk :
  (forall n, lookup sd disk = Some n -> ensureSnapshotsDir sd disk = (inr tt, disk))
  /\ (forall disk',
        ensureSnapshotsDir sd disk = (inr tt, disk') ->
        ensureSnapshotsDir sd disk' = (inr tt, disk')
        /\ (lookup sd disk = None -> lookup sd disk' = Some (Dir []))
        /\ forall r, fileAt r disk' = fileAt r disk).
Proof.
  split.
  - intros n Hn. unfold ensureSnapshotsDir, tryCatch, fs_access, inspect.
    now rewrite Hn.
  - intros disk' H. pose proof (ensureSnapshotsDir_fileAt sd disk) as Hf.
    rewrite H in Hf. simpl in Hf. split; [|split; [|exact Hf]].
    + destruct (ensureSnapshotsDir_ok _ _ _ H) as [Heq|Hm].
      * subst disk'. exact H.
      * assert (Hsd : isPrefix sd sd) by (exists []; now rewrite app_nil_r).
        destruct (mkdirp_lookup_above _ _ _ sd Hm Hsd) as [sub Hs].
        unfold ensureSnapshotsDir, tryCatch, fs_access, inspect. now rewrite Hs.
    + intros Hn. revert H.
      unfold ensureSnapshotsDir, tryCatch, fs_access, inspect, fs_mkdir_recursive,
        change.
      rewrite Hn. destruct (mkdirp sd disk) as [e|d] eqn:Hm; [discriminate|].
      intros H. injection H as <-. exact (mkdirp_new _ _ _ Hn Hm).
Qed.

Lemma ensureSnapshotsDir_idempotent_witness :
  (forall n, lookup sampleStorage diskAfterSampleSave = Some n ->
             ensureSnapshotsDir sampleStorage diskAfterSampleSave
             = (inr tt, diskAfterSampleSave))
  /\ exists disk',
       ensureSnapshotsDir sampleStorage sampleDisk = (inr tt, disk')
       /\ ensureSnapshotsDir sampleStorage disk' = (inr tt, disk')
       /\ (lookup sampleStorage sampleDisk = None ->
           lookup sampleStorage disk' = Some (Dir []))
       /\ forall r, fileAt r disk' = fileAt r sampleDisk.
Proof.
  split.
  - apply (ensureSnapshotsDir_idempotent sampleStorage diskAfterSampleSave).
  - eexists. split; [vm_compute; reflexivity|].
    apply (ensureSnapshotsDir_idempotent sampleStorage sampleDisk).
    vm_compute. reflexivity.
Defined.

(** One entry writes at most the file it names, whether its extraction
    goes through or throws. *)
Lemma extractEntry_fileAt_other target e disk p :
  p <> target ++ canonical (fst e) ->
  fileAt p (snd (extractEntry target e disk)) = fileAt p disk.
Proof.
  intros Hp. unfold extractEntry.
  destruct (isDirectoryEntry (fst e)).
  - unfold fs_mkdir_recursive, change.
    destruct (mkdirp (target ++ canonical (fst e)) disk) as [x|disk'] eqn:E;
      [reflexivity|]. simpl. exact (mkdirp_fileAt _ _ _ p E).
  - unfold change.
    destruct (lookup (target ++ canonical (fst e)) disk) as [[c| |s]|];
      try reflexivity;
      (destruct (putFile true (target ++ canonical (fst e)) (snd e) disk)
         as [x|disk'] eqn:E; [reflexivity|]; simpl;
       exact (putFile_fileAt_other _ _ _ _ _ _ E Hp)).
Qed.

Lemma extractAllTo_fileAt_other target es p :
  forall disk,
    (forall e, In e es -> p <> target ++ canonical (fst e)) ->
    fileAt p (snd (extractAllTo es target disk)) = fileAt p disk.
Proof.
  induction es as [|e es IH]; intros disk Hp; [reflexivity|].
  unfold extractAllTo in *. simpl. unfold bind.
  pose proof (extractEntry_fileAt_other target e disk p (Hp e (or_introl eq_refl)))
    as He.
  destruct (extractEntry target e disk) as [[x|[]] disk1]; simpl in *; [exact He|].
  rewrite (IH disk1); [exact He|]. intros e' He'. apply Hp. now right.
Qed.

(** The backup of a restore writes at most the backup container. *)
Lemma backup_fileAt test sd now target disk r :
  r <> zipPathOf sd (backupIdAt now) ->
  fileAt r (snd ((st <- addFilesToZip test [] target noOptions ;;
                  fs_writeFile (zipPathOf sd (backupIdAt now)) (ZipBuffer (zip st)))
                   disk))
  = fileAt r disk.
Proof.
  intros Hr. unfold addFilesToZip, fs_readdir, inspect, fs_writeFile, change, bind.
  destruct (lookup target disk) as [[c| |entries]|]; try reflexivity.
  destruct (addDirectory test noOptions entries "" (mkScan [] 0)) as [x|st];
    [reflexivity|].
  destruct (putFile false (zipPathOf sd (backupIdAt now)) (ZipBuffer (zip st)) disk)
    as [x|d1] eqn:Ew; [reflexivity|].
  simpl. exact (putFile_fileAt_other _ _ _ _ _ _ Ew Hr).
Qed.

(** X11: a restore only writes: whether it returns or throws, a path
    that no entry of the container names keeps the file it had (and a
    free path stays free), apart from the path of the backup container;
    files added to the target since the capture are not removed. *)
Theorem restoreSnapshot_only_overwrites
  test sd now snapshotId target createBackup disk p :
  (createBackup = true ->
   p <> zipPathOf sd (backupIdAt now)
   /\ zipPathOf sd snapshotId <> zipPathOf sd (backupIdAt now)) ->
  (forall es e,
     fileAt (zipPathOf sd snapshotId) disk = Some (ZipBuffer es) ->
     In e es -> p <> target ++ canonical (fst e)) ->
  fileAt p (snd (restoreSnapshot test sd now snapshotId target createBackup disk))
  = fileAt p disk.
Proof.
  intros Hb Hes. unfold restoreSnapshot, bind at 1.
  match goal with
  | |- context [(if createBackup then ?a else ?b) disk] =>
      set (prep := if createBackup then a else b)
  end.
  assert (H1 : forall r, (createBackup = true -> r <> zipPathOf sd (backupIdAt now)) ->
                         fileAt r (snd (prep disk)) = fileAt r disk).
  { intros r Hr. subst prep. destruct createBackup; [|reflexivity].
    apply backup_fileAt. now apply Hr. }
  assert (Hp1 : fileAt p (snd (prep disk)) = fileAt p disk)
    by (apply H1; intros Hc; now destruct (Hb Hc)).
  assert (Hz1 : fileAt (zipPathOf sd snapshotId) (snd (prep disk))
                = fileAt (zipPathOf sd snapshotId) disk)
    by (apply H1; intros Hc; now destruct (Hb Hc)).
  destruct (prep disk) as [[e|[]] disk1]; simpl in *; [exact Hp1|].
  unfold bind, openZip, inspect.
  destruct (lookup (zipPathOf sd snapshotId) disk1) as [[[s|es|l]| |sub]|] eqn:Ez;
    simpl; try exact Hp1.
  rewrite extractAllTo_fileAt_other; [exact Hp1|].
  intros e He. apply (Hes es e); [|exact He].
  rewrite <- Hz1. now apply fileAt_lookup.
Qed.

Lemma restoreSnapshot_only_overwrites_witness :
  (true = true ->
   ["ws"; "b.log"]%string <> zipPathOf sampleStorage (backupIdAt 1001)
   /\ zipPathOf sampleStorage "snapshot_1000"
      <> zipPathOf sampleStorage (backupIdAt 1001))
  /\ fileAt ["ws"; "b.log"]%string
       (snd (restoreSnapshot RegExp_test sampleStorage 1001 "snapshot_1000"
               ["ws"]%string true diskAfterSampleSave))
     = Some (Bytes "12345").
Proof.
  assert (Hb : true = true ->
               ["ws"; "b.log"]%string <> zipPathOf sampleStorage (backupIdAt 1001)
               /\ zipPathOf sampleStorage "snapshot_1000"
                  <> zipPathOf sampleStorage (backupIdAt 1001))
    by (intros _; split; vm_compute; discriminate).
  split; [exact Hb|].
  rewrite (restoreSnapshot_only_overwrites RegExp_test sampleStorage 1001
             "snapshot_1000" ["ws"]%string true diskAfterSampleSave
             ["ws"; "b.log"]%string Hb).
  - reflexivity.
  - intros es e Hf He. vm_compute in Hf. injection Hf as <-.
    destruct He as [<-|[<-|[]]]; vm_compute; discriminate.
Defined.

(* ===================================================================== *)
(** ** What the scan leaves out *)
(* ===================================================================== *)

Lemma joinSegs_snoc segs name : joinSegs (segs ++ [name]) = joinRel (joinSegs segs) name.
Proof. unfold joinSegs. apply fold_joinRel_snoc. Qed.

Lemma joinRel_nonempty rel name : name <> ""%string -> joinRel rel name <> ""%string.
Proof.
  intros Hn. unfold joinRel. destruct rel as [|c rel]; [exact Hn|]. discriminate.
Qed.

Lemma splitSlash_joinSegs segs :
  segs <> [] ->
  Forall (fun s => validName s = true) segs ->
  splitSlash (joinSegs segs) = segs.
Proof.
  induction segs as [|name segs IH] using rev_ind; intros Hne Hv; [congruence|].
  apply Forall_app in Hv as [Hv Hname]. inversion Hname as [|? ? Hn _]; subst.
  rewrite joinSegs_snoc.
  destruct segs as [|x segs'].
  - simpl. apply splitSlash_plain. now apply validName_no_slash.
  - assert (Hr : joinSegs (x :: segs') <> ""%string).
    { destruct (@exists_last _ (x :: segs')) as (l & y & E); [discriminate|].
      rewrite E in *. rewrite joinSegs_snoc. apply joinRel_nonempty.
      apply Forall_app in Hv as [_ Hy]. inversion Hy; subst.
      now apply validName_nonempty. }
    unfold joinRel. destruct (joinSegs (x :: segs')) as [|c r] eqn:E; [congruence|].
    change (String c r ++ "/" ++ name)%string with (String c r ++ String "/" name)%string.
    rewrite splitSlash_app_slash. rewrite IH by (auto; discriminate).
    f_equal. apply splitSlash_plain. now apply validName_no_slash.
Qed.

Lemma walkAccepted_no_snapshots test options segs :
  forall rel,
    walkAccepted test options rel segs = true -> ~ In ".snapshots"%string segs.
Proof.
  induction segs as [|name segs IH]; intros rel H; [intros []|].
  simpl in H. apply andb_prop in H as [H Hw]. apply andb_prop in H as [Hn _].
  intros [E|Hin].
  - subst name. discriminate.
  - exact (IH _ Hw Hin).
Qed.

(** X12: on a disk with valid, distinct names, no entry of a scan has a
    path segment called [.snapshots]: whatever is in a directory of that
    name, at any depth, is left out of every capture and every backup. *)
Theorem scan_skips_snapshots_at_any_depth
  test rootPath options disk st disk' p d :
  wfDisk disk = true ->
  addFilesToZip test [] rootPath options disk = (inr st, disk') ->
  In (p, d) (zip st) ->
  ~ In ".snapshots"%string (splitSlash p).
Proof.
  intros Hwf H Hin. unfold wfDisk in Hwf. apply andb_prop in Hwf as [Hu Hn].
  revert H. unfold addFilesToZip, bind, fs_readdir, inspect.
  destruct (lookup rootPath disk) as [[c| |entries]|] eqn:El; try discriminate.
  destruct (addDirectory test options entries "" (mkScan [] 0)) as [e|st0] eqn:Es;
    [discriminate|].
  intros H. injection H as <- _.
  apply (scan_from_empty test options entries st0 Es) in Hin.
  apply capturedIn_path in Hin as (segs & Hne & Hv & -> & Hw & _).
  - fold (joinSegs segs). rewrite (splitSlash_joinSegs segs Hne Hv).
    exact (walkAccepted_no_snapshots _ _ _ _ Hw).
  - exact (uniqueNode_lookup _ _ _ Hu El).
  - exact (proj1 (namedNode_lookup _ _ _ Hn El)).
Qed.

Lemma scan_skips_snapshots_at_any_depth_witness :
  wfDisk diskAfterSampleSave = true
  /\ addFilesToZip RegExp_test [] ["ws"]%string noOptions diskAfterSampleSave
     = (inr (mkScan [("a.txt", Bytes "0123456789"); ("src/a.ts", Bytes "let a")]%string 2),
        diskAfterSampleSave)
  /\ In ("src/a.ts"%string, Bytes "let a")
        [("a.txt", Bytes "0123456789"); ("src/a.ts", Bytes "let a")]%string
  /\ ~ In ".snapshots"%string (splitSlash "src/a.ts").
Proof.
  assert (Hw : wfDisk diskAfterSampleSave = true) by reflexivity.
  assert (Hs : addFilesToZip RegExp_test [] ["ws"]%string noOptions diskAfterSampleSave
               = (inr (mkScan [("a.txt", Bytes "0123456789");
                               ("src/a.ts", Bytes "let a")]%string 2),
                  diskAfterSampleSave)) by (vm_compute; reflexivity).
  assert (Hi : In ("src/a.ts"%string, Bytes "let a")
                  [("a.txt", Bytes "0123456789"); ("src/a.ts", Bytes "let a")]%string)
    by (right; left; reflexivity).
  split; [exact Hw|]. split; [exact Hs|]. split; [exact Hi|].
  exact (scan_skips_snapshots_at_any_depth RegExp_test ["ws"]%string noOptions
           diskAfterSampleSave _ diskAfterSampleSave "src/a.ts" (Bytes "let a")
           Hw Hs Hi).
Defined.

Section Unreadable.

Variable test : string -> string -> result bool.
Variable options : SnapshotOptions.

Lemma readableEntries_cons name n es :
  readableEntries ((name, n) :: es) =
  match n with
  | Unreadable => readableEntries es
  | _ => (name, readableOnly n) :: readableEntries es
  end.
Proof. destruct n; reflexivity. Qed.

Lemma readableOnly_Dir es : readableOnly (Dir es) = Dir (readableEntries es).
Proof. reflexivity. Qed.

Lemma addEntry_readableOnly n :
  forall rel name st st',
    addEntry test options rel name n st = inr st' ->
    match n with
    | Unreadable => st' = st
    | _ => addEntry test options rel name (readableOnly n) st = inr st'
    end.
Proof.
  induction n as [d| |es IH] using node_ind'; intros rel name st st' H.
  - exact H.
  - rewrite addEntry_unfold in H.
    destruct (String.eqb name ".snapshots"); [now injection H|].
    destruct (shouldIncludeFile test (joinRel rel name) options) as [e|[|]];
      simpl in H; [discriminate| |]; now injection H.
  - rewrite readableOnly_Dir. rewrite addEntry_unfold in *.
    destruct (String.eqb name ".snapshots"); [exact H|].
    destruct (shouldIncludeFile test (joinRel rel name) options) as [e|[|]];
      simpl in *; try exact H.
    revert st H. generalize (joinRel rel name). clear rel name.
    induction IH as [|[name n] es Hn _ IHes]; intros rel st H; [exact H|].
    rewrite addDirectory_cons in H. rewrite readableEntries_cons.
    destruct (addEntry test options rel name n st) as [e|st1] eqn:E1; [discriminate|].
    simpl in H. specialize (Hn rel name st st1 E1). simpl in Hn.
    destruct n as [d| |sub].
    + rewrite addDirectory_cons, Hn. simpl. now apply IHes.
    + subst st1. now apply IHes.
    + rewrite addDirectory_cons, Hn. simpl. now apply IHes.
Qed.

End Unreadable.

Lemma scan_without_unreadable test options es rel st st' :
  addDirectory test options es rel st = inr st' ->
  addDirectory test options (readableEntries es) rel st = inr st'.
Proof.
  revert st. induction es as [|[name n] es IH]; intros st H; [exact H|].
  rewrite addDirectory_cons in H. rewrite readableEntries_cons.
  destruct (addEntry test options rel name n st) as [e|st1] eqn:E1; [discriminate|].
  simpl in H. pose proof (addEntry_readableOnly test options n rel name st st1 E1) as Hn.
  destruct n as [d| |sub].
  - rewrite addDirectory_cons, Hn. simpl. now apply IH.
  - subst st1. now apply IH.
  - rewrite addDirectory_cons, Hn. simpl. now apply IH.
Qed.

(** X13: a file that cannot be read never stops a scan and adds nothing
    to it: where the regular-expression engine answers for every pattern
    in use, the scan of a tree returns, whichever of its files cannot be
    read, and it collects and counts exactly what the scan of the same
    tree without its unreadable files does. *)
Theorem scan_skips_unreadable test options es rel st :
  (forall fp pat, In pat (patternsOf options) ->
                  exists b, matchesPattern test fp pat = inr b) ->
  exists st',
    addDirectory test options es rel st = inr st'
    /\ addDirectory test options (readableEntries es) rel st = inr st'.
Proof.
  intros Ha. destruct (addDirectory_returns test options Ha es rel st) as [st' H].
  exists st'. split; [exact H|]. exact (scan_without_unreadable _ _ _ _ _ _ H).
Qed.

Lemma scan_skips_unreadable_witness :
  exists st',
    addDirectory RegExp_test noOptions lockedEntries "" (mkScan [] 0) = inr st'
    /\ addDirectory RegExp_test noOptions (readableEntries lockedEntries) ""
         (mkScan [] 0) = inr st'.
Proof.
  apply (scan_skips_unreadable RegExp_test noOptions lockedEntries "" (mkScan [] 0)).
  intros fp pat Hp. apply RegExp_test_answers_defaults.
  unfold patternsOf in Hp. simpl in Hp. simpl. tauto.
Defined.

Example scan_of_locked_entries :
  addDirectory RegExp_test noOptions lockedEntries "" (mkScan [] 0)
  = inr (mkScan [("a.txt", Bytes "0123456789"); ("src/a.ts", Bytes "let a")]%string 2)
  /\ readableEntries lockedEntries
     = [("a.txt", File (Bytes "0123456789"));
        ("src", Dir [("a.ts", File (Bytes "let a"))])]%string.
Proof. split; reflexivity. Qed.

(* ===================================================================== *)
(** ** The filter, pattern by pattern *)
(* ===================================================================== *)

Lemma anyMatches_false_iff test fp l :
  (forall pat, In pat l -> exists b, matchesPattern test fp pat = inr b) ->
  (anyMatches test fp l = inr false <->
   forall pat, In pat l -> matchesPattern test fp pat = inr false).
Proof.
  induction l as [|x l IH]; intros Ha; simpl.
  - split; [intros _ pat []|reflexivity].
  - destruct (Ha x (or_introl eq_refl)) as [b Hb]. rewrite Hb. simpl.
    assert (Ha' : forall pat, In pat l -> exists b, matchesPattern test fp pat = inr b)
      by (intros pat Hp; apply Ha; now right).
    destruct b.
    + split; [discriminate|]. intros H. rewrite (H x (or_introl eq_refl)) in Hb.
      discriminate.
    + rewrite (IH Ha'). split.
      * intros H pat [<-|Hp]; auto.
      * intros H pat Hp. apply H. now right.
Qed.

(** X14: when the engine answers for every pattern in use, a path is
    accepted exactly when no exclude pattern, default or given, matches
    it and, if include patterns are given, one of them does; an empty
    list of include patterns counts as none, and the message plays no
    part. *)
Theorem shouldIncludeFile_accepts_iff test fp options :
  (forall pat, In pat (patternsOf options) ->
               exists b, matchesPattern test fp pat = inr b) ->
  (shouldIncludeFile test fp options = inr true <->
   (forall pat,
      In pat (defaultExcludes
              ++ match excludePatterns options with Some l => l | None => [] end) ->
      matchesPattern test fp pat = inr false)
   /\ match includePatterns options with
      | Some (p :: ps) =>
          exists pat, In pat (p :: ps) /\ matchesPattern test fp pat = inr true
      | _ => True
      end).
Proof.
  intros Ha. unfold patternsOf in Ha. rewrite app_assoc in Ha.
  set (excludes := defaultExcludes
                   ++ match excludePatterns options with Some l => l | None => [] end)
    in *.
  assert (Hex : forall pat, In pat excludes ->
                            exists b, matchesPattern test fp pat = inr b)
    by (intros pat Hp; apply Ha; apply in_or_app; now left).
  assert (Hin : forall pat,
             In pat match includePatterns options with Some l => l | None => [] end ->
             exists b, matchesPattern test fp pat = inr b)
    by (intros pat Hp; apply Ha; apply in_or_app; now right).
  pose proof (anyMatches_false_iff test fp excludes Hex) as Hf.
  unfold shouldIncludeFile. fold excludes.
  destruct (anyMatches_answers test fp excludes Hex) as [b Hb]. rewrite Hb. simpl.
  destruct b.
  - split; [discriminate|]. intros [H _]. rewrite (proj2 Hf H) in Hb. discriminate.
  - pose proof (proj1 Hf Hb) as Hb'. clear Hb. rename Hb' into Hb.
    destruct (includePatterns options) as [[|p ps]|].
    + tauto.
    + split.
      * intros H. split; [exact Hb|].
        exact (anyMatches_true_elim test fp (p :: ps) H).
      * intros [_ (pat & Hp & Hm)].
        exact (anyMatches_true_intro test fp (p :: ps) pat Hin Hp Hm).
    + tauto.
Qed.

Lemma shouldIncludeFile_accepts_iff_witness :
  (forall pat, In pat (patternsOf onlyTs) ->
               exists b, matchesPattern RegExp_test "src/a.ts" pat = inr b)
  /\ shouldIncludeFile RegExp_test "src/a.ts" onlyTs = inr true.
Proof.
  assert (Ha : forall pat, In pat (patternsOf onlyTs) ->
                           exists b, matchesPattern RegExp_test "src/a.ts" pat = inr b).
  { intros pat Hp. unfold patternsOf in Hp. simpl in Hp.
    repeat (destruct Hp as [<-|Hp]; [eexists; vm_compute; reflexivity|]).
    destruct Hp. }
  split; [exact Ha|].
  apply (shouldIncludeFile_accepts_iff RegExp_test "src/a.ts" onlyTs Ha). split.
  - intros pat Hp. simpl in Hp.
    repeat (destruct Hp as [<-|Hp]; [vm_compute; reflexivity|]). destruct Hp.
  - simpl. exists "a.ts"%string. split; [now left|vm_compute; reflexivity].
Defined.

(** X30: the [.] of a pattern reaches the regular expression unescaped:
    a pattern [.q] is found wherever any one character other than a line
    terminator is followed by a stretch that matches [q], so [.git] is
    found in [agit] and [.env] in [my_env]. *)
Theorem pattern_dot_matches_any_character (x : ascii) (pre mid post q : string) :
  plainPattern q = true ->
  isLineTerminator x = false ->
  globLiteral q mid ->
  matchesPattern RegExp_test (pre ++ String x mid ++ post) (String "." q) = inr true.
Proof.
  intros Hq Hx Hm.
  apply (matchesPattern_regex_glob (pre ++ String x mid ++ post) (String "." q)).
  - exact Hq.
  - exists pre, (String x mid), post. split; [reflexivity|].
    apply gm_one; [now right|exact Hx|]. now apply globLiteral_globMatches.
Qed.

Lemma pattern_dot_matches_any_character_witness :
  plainPattern "env" = true
  /\ isLineTerminator "_" = false
  /\ globLiteral "env" "env"
  /\ matchesPattern RegExp_test "my_env" ".env" = inr true.
Proof.
  assert (Hg : globLiteral "env" "env")
    by (repeat (apply gl_chr; [discriminate|discriminate|]); apply gl_end).
  split; [reflexivity|]. split; [reflexivity|]. split; [exact Hg|].
  exact (pattern_dot_matches_any_character "_" "my" "env" "" "env" eq_refl eq_refl Hg).
Defined.

(* ===================================================================== *)
(** ** Deleting where there is no storage *)
(* ===================================================================== *)

Lemma putFile_needs_parent q name d :
  forall es es',
    putFile false (q ++ [name]) d es = inr es' ->
    exists sub, lookup q es = Some (Dir sub).
Proof.
  induction q as [|x q IH]; intros es es' H.
  - rewrite lookup_nil. eauto.
  - rewrite <- app_comm_cons in H.
    apply putFile_inv in H as [(Hq & _)|(_ & sub & sub' & Hf & Hsub & _)].
    + destruct q; discriminate.
    + destruct Hf as [Hf|(_ & _ & Hc)]; [|discriminate].
      rewrite lookup_cons, Hf. exact (IH sub sub' Hsub).
Qed.

Lemma unlinkFile_keeps_absent p es es' r :
  uniqueDisk es = true ->
  unlinkFile p es = inr es' -> lookup r es = None -> lookup r es' = None.
Proof.
  intros Hu H Hr. destruct (path_eq_dec r p) as [->|Hne].
  - exact (unlinkFile_lookup_same _ _ _ Hu H).
  - pose proof (unlinkFile_kindAt_other _ _ _ r Hu H Hne) as Hk.
    unfold kindAt in Hk. rewrite Hr in Hk.
    destruct (lookup r es') as [[c| |sub]|]; try discriminate. reflexivity.
Qed.

(** X15: where the storage directory does not exist, deleteSnapshot
    throws: it does not create the directory as saveSnapshot does, and
    its write of the index fails.  For an identifier of the form
    saveSnapshot gives, the disk is left as it was. *)
Theorem deleteSnapshot_without_storage_throws sd snapshotId disk :
  uniqueDisk disk = true ->
  lookup sd disk = None ->
  exists e disk',
    deleteSnapshot sd snapshotId disk = (inl e, disk')
    /\ lookup sd disk' = None
    /\ (forall timestamp, snapshotId = snapshotIdAt timestamp -> disk' = disk).
Proof.
  intros Hu Hsd.
  assert (Hw : forall d0 l, lookup sd d0 = None ->
                 exists e, putFile false (metadataPath sd) (JsonDoc l) d0 = inl e).
  { intros d0 l H0. rewrite metadataPath_eq.
    destruct (putFile false (sd ++ ["metadata.json"%string]) (JsonDoc l) d0)
      as [e|d1] eqn:E; [eauto|].
    destruct (putFile_needs_parent _ _ _ _ _ E) as [sub Hs]. congruence. }
  unfold deleteSnapshot, bind at 1, tryCatch, fs_unlink, change.
  destruct (unlinkFile (zipPathOf sd snapshotId) disk) as [e|disk1] eqn:E1;
    unfold ret, bind; rewrite listSnapshots_listed;
    unfold saveMetadata, fs_writeFile, change.
  - destruct (Hw disk (filter (fun s => negb (String.eqb (id s) snapshotId))
                         (listed sd disk)) Hsd) as [x ->].
    exists x, disk. auto.
  - pose proof (unlinkFile_keeps_absent _ _ _ sd Hu E1 Hsd) as Hsd1.
    destruct (Hw disk1 (filter (fun s => negb (String.eqb (id s) snapshotId))
                          (listed sd disk1)) Hsd1) as [x ->].
    exists x, disk1. split; [reflexivity|]. split; [exact Hsd1|].
    intros ts ->. exfalso. rewrite zipPathOf_snapshot in E1.
    destruct (unlinkFile_target _ _ _ E1) as (n & Hn & _).
    destruct (lookup_prefix_dir sd [(snapshotIdAt ts ++ ".zip")%string] disk n Hn)
      as [sub Hs]; [discriminate|congruence].
Qed.

Lemma deleteSnapshot_without_storage_throws_witness :
  uniqueDisk sampleDisk = true
  /\ lookup sampleStorage sampleDisk = None
  /\ exists e disk',
       deleteSnapshot sampleStorage "snapshot_1000" sampleDisk = (inl e, disk')
       /\ lookup sampleStorage disk' = None
       /\ (forall timestamp, "snapshot_1000"%string = snapshotIdAt timestamp ->
                             disk' = sampleDisk).
Proof.
  split; [reflexivity|]. split; [reflexivity|].
  apply (deleteSnapshot_without_storage_throws sampleStorage "snapshot_1000" sampleDisk);
    reflexivity.
Defined.

(* ===================================================================== *)
(** ** A capture taken back *)
(* ===================================================================== *)

Lemma newestFirst_split l c :
  newestFirst l ->
  filter (fun r => (c <=? timestamp r)%Z) l ++ filter (fun r => (timestamp r <? c)%Z) l
  = l.
Proof.
  induction l as [|x l IH]; intros Hs; [reflexivity|].
  apply newestFirst_inv in Hs as [Hs Hx]. simpl.
  destruct (Z.leb_spec c (timestamp x)) as [Hle|Hlt].
  - replace (timestamp x <? c)%Z with false by (symmetry; apply Z.ltb_ge; lia).
    simpl. now rewrite (IH Hs).
  - replace (timestamp x <? c)%Z with true by (symmetry; apply Z.ltb_lt; lia).
    rewrite (filter_none (fun r => (c <=? timestamp r)%Z) l)
      by (intros y Hy; apply Z.leb_gt; specialize (Hx y Hy); lia).
    rewrite (filter_all (fun r => (timestamp r <? c)%Z) l)
      by (intros y Hy; apply Z.ltb_lt; specialize (Hx y Hy); lia).
    reflexivity.
Qed.

Lemma saveSnapshot_leaves_ready test byteLength sd now root options disk m disk1 :
  uniqueDisk disk = true ->
  saveSnapshot test byteLength sd now root options disk = (inr m, disk1) ->
  storageReady sd disk1 = true.
Proof.
  intros Hu H. apply saveSnapshot_inv in H
    as (disk0 & entries & st & d1 & E0 & _ & _ & Ew & _ & Em).
  assert (Hu0 : uniqueDisk disk0 = true).
  { apply ensureSnapshotsDir_ok in E0 as [->|E0]; [exact Hu|].
    exact (mkdirp_unique _ _ _ Hu E0). }
  apply storageReady_iff. split; [|split].
  - exact (putFile_unique _ _ _ _ _ (putFile_unique _ _ _ _ _ Hu0 Ew) Em).
  - apply (putFile_lookup_above _ _ _ _ _ sd Em).
    + rewrite metadataPath_eq. apply isPrefix_app_r.
    + rewrite metadataPath_eq. intros Hc.
      apply (not_isPrefix_longer sd "metadata.json"%string). rewrite <- Hc.
      exists []. now rewrite app_nil_r.
  - intros n Hn. rewrite (putFile_lookup_same _ _ _ _ _ Em) in Hn.
    injection Hn as <-. eauto.
Qed.

(** X16: deleting a capture right after it was made takes it back: with
    an index that was sorted and had no record of that identifier, the
    index lists what it listed before the capture, in the same order,
    no container is left, and every other file is as it was before the
    capture. *)
Theorem save_then_delete_restores_index
  test byteLength sd now root options disk m disk1 :
  uniqueDisk disk = true ->
  newestFirst (listed sd disk) ->
  (forall r, In r (listed sd disk) -> id r <> snapshotIdAt now) ->
  saveSnapshot test byteLength sd now root options disk = (inr m, disk1) ->
  exists disk2,
    deleteSnapshot sd (id m) disk1 = (inr tt, disk2)
    /\ listed sd disk2 = listed sd disk
    /\ fileAt (zipPathOf sd (id m)) disk2 = None
    /\ forall p, p <> zipPathOf sd (id m) -> p <> metadataPath sd ->
                 fileAt p disk2 = fileAt p disk.
Proof.
  intros Hu Hs Hfresh H.
  pose proof (saveSnapshot_leaves_ready _ _ _ _ _ _ _ _ _ Hu H) as Hr.
  pose proof (saveSnapshot_listed _ _ _ _ _ _ _ _ _ H) as Hl.
  rewrite (sortNewestFirst_snoc _ _ Hs) in Hl.
  destruct (deleteSnapshot_effect sd (id m) disk1 Hr) as (disk2 & E & _ & Hl2 & Hz & Hp).
  exists disk2. split; [exact E|].
  apply saveSnapshot_inv in H
    as (disk0 & entries & st & d1 & E0 & _ & _ & Ew & Hm & Em).
  assert (Hid : id m = snapshotIdAt now) by (subst m; reflexivity).
  assert (Htm : timestamp m = now) by (subst m; reflexivity).
  split; [|split; [exact Hz|]].
  - rewrite Hl2, Hl, Htm, filter_app. cbn [filter]. rewrite String.eqb_refl.
    cbn [negb].
    assert (Hk : forall (f : SnapshotMetadata -> bool),
               filter (fun s => negb (String.eqb (id s) (id m)))
                 (filter f (listed sd disk))
               = filter f (listed sd disk)).
    { intros f. apply filter_all. intros r Hin. apply filter_In in Hin as [Hin _].
      apply negb_true_iff, String.eqb_neq. rewrite Hid. now apply Hfresh. }
    rewrite !Hk. now apply newestFirst_split.
  - intros p Hpz Hpm. rewrite (Hp p Hpz Hpm).
    rewrite (putFile_fileAt_other _ _ _ _ _ _ Em Hpm).
    rewrite Hid in Hpz. rewrite (putFile_fileAt_other _ _ _ _ _ _ Ew Hpz).
    pose proof (ensureSnapshotsDir_fileAt sd disk p) as H0. rewrite E0 in H0.
    exact H0.
Qed.

Lemma save_then_delete_restores_index_witness :
  uniqueDisk diskAfterSampleSave = true
  /\ newestFirst (listed sampleStorage diskAfterSampleSave)
  /\ sampleSave 2000 diskAfterSampleSave = (inr (sampleRecord 2000), diskAfterSecondSave)
  /\ exists disk2,
       deleteSnapshot sampleStorage (id (sampleRecord 2000)) diskAfterSecondSave
       = (inr tt, disk2)
       /\ listed sampleStorage disk2 = listed sampleStorage diskAfterSampleSave
       /\ fileAt (zipPathOf sampleStorage (id (sampleRecord 2000))) disk2 = None
       /\ forall p, p <> zipPathOf sampleStorage (id (sampleRecord 2000)) ->
                    p <> metadataPath sampleStorage ->
                    fileAt p disk2 = fileAt p diskAfterSampleSave.
Proof.
  assert (Hs : newestFirst (listed sampleStorage diskAfterSampleSave)).
  { vm_compute. repeat constructor. }
  assert (He : sampleSave 2000 diskAfterSampleSave
               = (inr (sampleRecord 2000), diskAfterSecondSave))
    by (vm_compute; reflexivity).
  split; [reflexivity|]. split; [exact Hs|]. split; [exact He|].
  apply (save_then_delete_restores_index RegExp_test nominalLength sampleStorage 2000
           ["ws"]%string noOptions diskAfterSampleSave (sampleRecord 2000)
           diskAfterSecondSave); auto.
  intros r Hin. vm_compute in Hin. destruct Hin as [<-|[]]. vm_compute. discriminate.
Defined.

(* ===================================================================== *)
(** ** Identifiers that leave the storage directory *)
(* ===================================================================== *)

Lemma zipPathOf_parent sd name :
  contains "/" name = false ->
  zipPathOf sd ("../" ++ name) = removelast sd ++ [(name ++ ".zip")%string].
Proof.
  intros Hn. unfold zipPathOf, pathJoin.
  change (("../" ++ name) ++ ".zip")%string
    with (".." ++ String "/" (name ++ ".zip"))%string.
  rewrite splitSlash_app_slash.
  rewrite (splitSlash_plain ".." eq_refl).
  rewrite (splitSlash_plain (name ++ ".zip")) by (rewrite contains_app, Hn; reflexivity).
  simpl. apply pushSegment_ordinary.
  apply ordinary_of_last with "p"%char; [|discriminate].
  rewrite lastAscii_app_nonempty; [reflexivity|discriminate].
Qed.

(** X17: an identifier is not confined to the storage directory: for a
    name without a separator, the identifier [../name] stands for the
    file [name.zip] next to the storage directory.  loadSnapshot returns
    the content of that file, and deleteSnapshot removes it: whether the
    call goes on to return or to throw, the file is gone afterwards. *)
Theorem snapshot_id_can_leave_storage sd name disk content :
  contains "/" name = false ->
  uniqueDisk disk = true ->
  fileAt (removelast sd ++ [(name ++ ".zip")%string]) disk = Some content ->
  loadSnapshot sd ("../" ++ name) disk = (inr content, disk)
  /\ fileAt (removelast sd ++ [(name ++ ".zip")%string])
       (snd (deleteSnapshot sd ("../" ++ name) disk)) = None.
Proof.
  intros Hn Hu Hf. split.
  - unfold loadSnapshot, fs_readFile, inspect. rewrite (zipPathOf_parent sd name Hn).
    apply fileAt_lookup in Hf. now rewrite Hf.
  - rewrite <- (zipPathOf_parent sd name Hn) in *.
    assert (Hz : zipPathOf sd ("../" ++ name) <> metadataPath sd)
      by apply zipPathOf_not_metadata.
    unfold deleteSnapshot, bind at 1, tryCatch, fs_unlink, change.
    destruct (unlinkFile (zipPathOf sd ("../" ++ name)) disk) as [e|disk1] eqn:E1.
    { rewrite (unlinkFile_fails_no_file _ _ _ E1) in Hf. discriminate. }
    assert (H1 : fileAt (zipPathOf sd ("../" ++ name)) disk1 = None)
      by (unfold fileAt; now rewrite (unlinkFile_lookup_same _ _ _ Hu E1)).
    unfold bind. rewrite listSnapshots_listed.
    unfold saveMetadata, fs_writeFile, change.
    match goal with
    | |- context [putFile false (metadataPath sd) ?d ?k] =>
        destruct (putFile false (metadataPath sd) d k) as [x|disk2] eqn:E2
    end; cbn [snd]; [exact H1|].
    now rewrite (putFile_fileAt_other _ _ _ _ _ _ E2 Hz).
Qed.

Lemma snapshot_id_can_leave_storage_witness :
  contains "/" "notes" = false
  /\ uniqueDisk diskWithOwnArchive = true
  /\ fileAt (removelast sampleStorage ++ ["notes.zip"]%string) diskWithOwnArchive
     = Some (Bytes "mine")
  /\ fileAt ["ws"; "notes.zip"]%string diskWithOwnArchive = Some (Bytes "mine")
  /\ loadSnapshot sampleStorage "../notes" diskWithOwnArchive
     = (inr (Bytes "mine"), diskWithOwnArchive)
  /\ fileAt (removelast sampleStorage ++ ["notes.zip"]%string)
       (snd (deleteSnapshot sampleStorage "../notes" diskWithOwnArchive)) = None.
Proof.
  split; [reflexivity|]. split; [reflexivity|]. split; [reflexivity|].
  split; [reflexivity|].
  apply (snapshot_id_can_leave_storage sampleStorage "notes" diskWithOwnArchive
           (Bytes "mine")); reflexivity.
Defined.

(* ===================================================================== *)
(** ** restoreSnapshot when the container is missing *)
(* ===================================================================== *)

Lemma openZip_no_file zipPath disk :
  fileAt zipPath disk = None -> exists e, openZip zipPath disk = (inl e, disk).
Proof.
  unfold openZip, inspect, fileAt.
  destruct (lookup zipPath disk) as [[c| |sub]|]; try discriminate; eauto.
Qed.

(** The scan for an archive reads the disk and leaves it as it is. *)
Lemma addFilesToZip_reads test zip0 rootPath options disk :
  snd (addFilesToZip test zip0 rootPath options disk) = disk.
Proof.
  unfold addFilesToZip, fs_readdir, inspect, bind.
  now destruct (lookup rootPath disk) as [[c| |entries]|].
Qed.

(** A write that goes through leaves absent what was absent elsewhere. *)
Lemma putFile_keeps_absent q name d es es' r :
  putFile false (q ++ [name]) d es = inr es' ->
  r <> q ++ [name] ->
  lookup r es = None -> lookup r es' = None.
Proof.
  intros Hw Hne Hr. rewrite (putFile_lookup_other _ _ _ _ _ _ Hw); [exact Hr|].
  intros [c Hc]. destruct (putFile_needs_parent _ _ _ _ _ Hw) as [sub Hq].
  destruct c as [|x c] using rev_ind; [rewrite app_nil_r in Hc; now subst|].
  rewrite app_assoc in Hc. apply app_inj_tail in Hc as [-> _].
  destruct c as [|y c].
  - rewrite app_nil_r in Hq. congruence.
  - destruct (lookup_prefix_dir r (y :: c) es _ Hq) as [s Hs]; [discriminate|congruence].
Qed.

(** C2 as stated fails: after one capture, restoring an identifier that
    has no container throws the archive library's error only after the
    backup container has been written. *)
Lemma restoreSnapshot_unknown_id_leaves_backup :
  fileAt (zipPathOf sampleStorage "nope") diskAfterSampleSave = None
  /\ fileAt (zipPathOf sampleStorage (backupIdAt 1001)) diskAfterSampleSave = None
  /\ exists disk',
       restoreSnapshot RegExp_test sampleStorage 1001 "nope" ["ws"] true
         diskAfterSampleSave = (inl ZipInvalidFilename, disk')
       /\ fileAt (zipPathOf sampleStorage (backupIdAt 1001)) disk'
          = Some (ZipBuffer [("a.txt", Bytes "0123456789");
                             ("src/a.ts", Bytes "let a")]%string).
Proof.
  split; [reflexivity|]. split; [reflexivity|].
  eexists. split; [vm_compute; reflexivity|reflexivity].
Qed.

(** C2 (amended): restoreSnapshot(id, targetDir, true) for an identifier
    with no container file (other than the backup's own name) throws, but
    not before the backup step. If that step fails -- targetDir cannot be
    scanned, or the backup container cannot be written -- its error is the
    one thrown and the disk is as it was. Otherwise the backup container
    [backup_<now>.zip] holding the scan of targetDir is on disk
    afterwards, and the error is the one raised on opening the
    identifier's container: the archive library's error for a missing
    file when nothing is at that path. This is the case when targetDir
    can be scanned and the backup name is free in an existing storage
    directory. Nothing is extracted: every file other than that backup
    container keeps its content. *)
Theorem restoreSnapshot_missing_container test sd now snapshotId targetPath disk :
  fileAt (zipPathOf sd snapshotId) disk = None ->
  zipPathOf sd snapshotId <> zipPathOf sd (backupIdAt now) ->
  exists e disk',
    restoreSnapshot test sd now snapshotId targetPath true disk = (inl e, disk')
    /\ (forall p, p <> zipPathOf sd (backupIdAt now) ->
                  fileAt p disk' = fileAt p disk)
    /\ ((disk' = disk
         /\ (addFilesToZip test [] targetPath noOptions disk = (inl e, disk)
             \/ exists st,
                  addFilesToZip test [] targetPath noOptions disk = (inr st, disk)
                  /\ fs_writeFile (zipPathOf sd (backupIdAt now))
                        (ZipBuffer (zip st)) disk = (inl e, disk)))
        \/ (exists st,
              addFilesToZip test [] targetPath noOptions disk = (inr st, disk)
              /\ fs_writeFile (zipPathOf sd (backupIdAt now))
                    (ZipBuffer (zip st)) disk = (inr tt, disk')
              /\ fileAt (zipPathOf sd (backupIdAt now)) disk'
                 = Some (ZipBuffer (zip st))
              /\ openZip (zipPathOf sd snapshotId) disk' = (inl e, disk')
              /\ (lookup (zipPathOf sd snapshotId) disk = None ->
                  e = ZipInvalidFilename)))
    /\ (forall entries st sub,
          lookup targetPath disk = Some (Dir entries) ->
          addDirectory test noOptions entries "" (mkScan [] 0) = inr st ->
          lookup sd disk = Some (Dir sub) ->
          lookup (zipPathOf sd (backupIdAt now)) disk = None ->
          fileAt (zipPathOf sd (backupIdAt now)) disk' = Some (ZipBuffer (zip st))
          /\ (lookup (zipPathOf sd snapshotId) disk = None ->
              e = ZipInvalidFilename)).
Proof.
  intros Hnone Hne.
  unfold restoreSnapshot, bind at 1, bind at 1.
  pose proof (addFilesToZip_reads test [] targetPath noOptions disk) as Hd.
  destruct (addFilesToZip test [] targetPath noOptions disk) as [[e|st] d0] eqn:Ea;
    simpl in Hd; subst d0.
  { exists e, disk. split; [reflexivity|]. split; [reflexivity|]. split.
    - left. auto.
    - intros entries st sub H1 H2 _ _. exfalso.
      unfold addFilesToZip, fs_readdir, inspect, bind in Ea.
      rewrite H1, H2 in Ea. discriminate. }
  assert (Hscan : forall entries st',
             lookup targetPath disk = Some (Dir entries) ->
             addDirectory test noOptions entries "" (mkScan [] 0) = inr st' ->
             st' = st).
  { intros entries st' H1 H2.
    unfold addFilesToZip, fs_readdir, inspect, bind in Ea.
    rewrite H1, H2 in Ea. congruence. }
  unfold fs_writeFile at 1, change.
  destruct (putFile false (zipPathOf sd (backupIdAt now)) (ZipBuffer (zip st)) disk)
    as [e|disk1] eqn:Ew.
  { exists e, disk. split; [reflexivity|]. split; [reflexivity|]. split.
    - left. split; [reflexivity|]. right. exists st. split; [reflexivity|].
      unfold fs_writeFile, change. now rewrite Ew.
    - intros entries st' sub H1 H2 Hsd Hfree. exfalso.
      rewrite zipPathOf_backup in Ew, Hfree.
      destruct (putFile_succeeds sd (backupIdAt now ++ ".zip")%string
                  (ZipBuffer (zip st)) disk sub Hsd) as [d' Hd'].
      + intros n Hn. rewrite Hfree in Hn. discriminate.
      + rewrite Hd' in Ew. discriminate. }
  assert (Hother : forall p, p <> zipPathOf sd (backupIdAt now) ->
                             fileAt p disk1 = fileAt p disk).
  { intros p Hp. exact (putFile_fileAt_other _ _ _ _ _ _ Ew Hp). }
  unfold bind at 1.
  destruct (openZip_no_file (zipPathOf sd snapshotId) disk1) as [e He].
  { rewrite Hother; auto. }
  assert (Hmissing : lookup (zipPathOf sd snapshotId) disk = None ->
                     e = ZipInvalidFilename).
  { intros Hl. rewrite zipPathOf_backup in Ew, Hne.
    pose proof (putFile_keeps_absent _ _ _ _ _ _ Ew Hne Hl) as Hl1.
    unfold openZip, inspect in He. rewrite Hl1 in He. congruence. }
  rewrite He. exists e, disk1. split; [reflexivity|]. split; [exact Hother|]. split.
  - right. exists st. split; [reflexivity|]. split.
    + unfold fs_writeFile, change. now rewrite Ew.
    + split; [exact (putFile_fileAt_same _ _ _ _ _ Ew)|]. split; [exact He|exact Hmissing].
  - intros entries st' sub H1 H2 _ _. rewrite (Hscan _ _ H1 H2). split.
    + exact (putFile_fileAt_same _ _ _ _ _ Ew).
    + exact Hmissing.
Qed.

Lemma restoreSnapshot_missing_container_witness :
  fileAt (zipPathOf sampleStorage "nope") diskAfterSampleSave = None
  /\ zipPathOf sampleStorage "nope" <> zipPathOf sampleStorage (backupIdAt 1001)
  /\ exists e disk',
       restoreSnapshot RegExp_test sampleStorage 1001 "nope" ["ws"] true
         diskAfterSampleSave = (inl e, disk')
       /\ (forall p, p <> zipPathOf sampleStorage (backupIdAt 1001) ->
                     fileAt p disk' = fileAt p diskAfterSampleSave)
       /\ ((disk' = diskAfterSampleSave
            /\ (addFilesToZip RegExp_test [] ["ws"]%string noOptions diskAfterSampleSave
                = (inl e, diskAfterSampleSave)
                \/ exists st,
                     addFilesToZip RegExp_test [] ["ws"]%string noOptions
                       diskAfterSampleSave = (inr st, diskAfterSampleSave)
                     /\ fs_writeFile (zipPathOf sampleStorage (backupIdAt 1001))
                           (ZipBuffer (zip st)) diskAfterSampleSave
                        = (inl e, diskAfterSampleSave)))
           \/ (exists st,
                 addFilesToZip RegExp_test [] ["ws"]%string noOptions
                   diskAfterSampleSave = (inr st, diskAfterSampleSave)
                 /\ fs_writeFile (zipPathOf sampleStorage (backupIdAt 1001))
                       (ZipBuffer (zip st)) diskAfterSampleSave = (inr tt, disk')
                 /\ fileAt (zipPathOf sampleStorage (backupIdAt 1001)) disk'
                    = Some (ZipBuffer (zip st))
                 /\ openZip (zipPathOf sampleStorage "nope") disk' = (inl e, disk')
                 /\ (lookup (zipPathOf sampleStorage "nope") diskAfterSampleSave = None ->
                     e = ZipInvalidFilename)))
       /\ (forall entries st sub,
             lookup ["ws"]%string diskAfterSampleSave = Some (Dir entries) ->
             addDirectory RegExp_test noOptions entries "" (mkScan [] 0) = inr st ->
             lookup sampleStorage diskAfterSampleSave = Some (Dir sub) ->
             lookup (zipPathOf sampleStorage (backupIdAt 1001)) diskAfterSampleSave
             = None ->
             fileAt (zipPathOf sampleStorage (backupIdAt 1001)) disk'
             = Some (ZipBuffer (zip st))
             /\ (lookup (zipPathOf sampleStorage "nope") diskAfterSampleSave = None ->
                 e = ZipInvalidFilename)).
Proof.
  split; [reflexivity|]. split; [intros H; vm_compute in H; discriminate H|].
  apply (restoreSnapshot_missing_container RegExp_test sampleStorage 1001 "nope"
           ["ws"]%string diskAfterSampleSave).
  - reflexivity.
  - intros H; vm_compute in H; discriminate H.
Defined.

(* ===================================================================== *)
(** ** Utils: paths *)
(* ===================================================================== *)

Lemma relativeSegments_below root :
  forall rest, Utils.relativeSegments root (root ++ rest) = rest.
Proof.
  induction root as [|f root IH]; intros rest; simpl.
  - now destruct rest.
  - now rewrite String.eqb_refl.
Qed.

Lemma relativeSegments_outside root :
  forall filePath,
    ~ isPrefix root filePath ->
    exists l, Utils.relativeSegments root filePath = ".."%string :: l.
Proof.
  induction root as [|f root IH]; intros filePath Hn.
  - destruct Hn. apply isPrefix_nil.
  - destruct filePath as [|t filePath]; simpl; [eauto|].
    destruct (String.eqb_spec f t) as [->|Hft]; [|eauto].
    apply IH. intros Hp. apply Hn. now apply isPrefix_cons.
Qed.

Lemma prefix_cons a s1 b s2 :
  String.prefix (String a s1) (String b s2)
  = if Ascii.eqb a b then String.prefix s1 s2 else false.
Proof.
  cbn [String.prefix].
  destruct (Ascii.ascii_dec a b) as [E|N], (Ascii.eqb_spec a b); congruence.
Qed.

Lemma prefix_empty s : String.prefix "" s = true.
Proof. now destruct s. Qed.

Lemma prefix_of_empty a s : String.prefix (String a s) "" = false.
Proof. reflexivity. Qed.

Lemma prefix_dotdot_concat s l :
  String.prefix ".." (String.concat "/" (s :: l)) = String.prefix ".." s.
Proof.
  destruct l as [|x l]; [reflexivity|].
  change (String.concat "/" (s :: x :: l))
    with (s ++ "/" ++ String.concat "/" (x :: l))%string.
  destruct s as [|a [|b s]]; cbn [append]; rewrite ?prefix_cons, ?prefix_of_empty.
  - reflexivity.
  - destruct (Ascii.eqb "." a); reflexivity.
  - now rewrite !prefix_empty.
Qed.

Lemma isAbsolute_concat s l :
  s <> ""%string -> Utils.isAbsolute (String.concat "/" (s :: l)) = String.prefix "/" s.
Proof.
  intros Hs. unfold Utils.isAbsolute. destruct l as [|x l]; [reflexivity|].
  change (String.concat "/" (s :: x :: l))
    with (s ++ "/" ++ String.concat "/" (x :: l))%string.
  destruct s as [|a s]; [congruence|]. cbn [append].
  now rewrite !prefix_cons, !prefix_empty.
Qed.

(** X18: isWithinWorkspace answers true exactly for the workspace root
    itself and for the paths below it whose first segment under the
    root does not begin with two dots: it never takes a path outside
    the root for one inside, but it takes an entry of the root called,
    say, [..cache] for one outside. *)
Theorem isWithinWorkspace_iff filePath workspaceRoot :
  ~ In ""%string filePath ->
  (Utils.isWithinWorkspace filePath workspaceRoot = true <->
   exists rest,
     filePath = workspaceRoot ++ rest
     /\ match rest with
        | [] => True
        | s :: _ => String.prefix ".." s = false /\ String.prefix "/" s = false
        end).
Proof.
  intros Hne. unfold Utils.isWithinWorkspace, Utils.getRelativePath.
  destruct (isPrefix_dec workspaceRoot filePath) as [[rest ->]|Hn].
  - rewrite relativeSegments_below. split.
    + intros H. exists rest. split; [reflexivity|].
      destruct rest as [|s l]; [exact I|].
      assert (Hs : s <> ""%string).
      { intros ->. apply Hne. apply in_or_app. right. now left. }
      rewrite prefix_dotdot_concat, (isAbsolute_concat s l Hs) in H.
      apply andb_prop in H as [H1 H2].
      split; [now apply negb_true_iff in H1|now apply negb_true_iff in H2].
    + intros (rest' & E & H). apply app_inv_head in E. subst rest'.
      destruct rest as [|s l]; [reflexivity|].
      assert (Hs : s <> ""%string).
      { intros ->. apply Hne. apply in_or_app. right. now left. }
      rewrite prefix_dotdot_concat, (isAbsolute_concat s l Hs).
      destruct H as [-> ->]. reflexivity.
  - destruct (relativeSegments_outside _ _ Hn) as [l ->].
    rewrite prefix_dotdot_concat. simpl. split; [discriminate|].
    intros (rest & -> & _). destruct Hn. apply isPrefix_app_r.
Qed.

Lemma isWithinWorkspace_iff_witness :
  ~ In ""%string ["ws"; "..cache"; "a.txt"]%string
  /\ Utils.isWithinWorkspace ["ws"; "..cache"; "a.txt"]%string ["ws"]%string = false
  /\ Utils.isWithinWorkspace ["ws"; "src"; "a.ts"]%string ["ws"]%string = true
  /\ Utils.isWithinWorkspace ["etc"; "passwd"]%string ["ws"]%string = false.
Proof.
  assert (Hne : ~ In ""%string ["ws"; "..cache"; "a.txt"]%string)
    by (simpl; intros [H|[H|[H|[]]]]; discriminate).
  split; [exact Hne|]. split; [|split; reflexivity].
  destruct (Utils.isWithinWorkspace ["ws"; "..cache"; "a.txt"]%string ["ws"]%string)
    eqn:E; [|reflexivity].
  apply (isWithinWorkspace_iff ["ws"; "..cache"; "a.txt"]%string ["ws"]%string Hne) in E.
  destruct E as (rest & E & H). injection E as <-. destruct H as [H _]. discriminate.
Defined.

(* ===================================================================== *)
(** ** Utils: times and retries *)
(* ===================================================================== *)

(** X19: formatRelativeTime, read off the difference in milliseconds:
    below one minute, which includes every timestamp in the future, it
    says [Just now]; from there on it counts whole minutes below one
    hour, whole hours below one day and whole days after that, rounding
    down. *)
Theorem formatRelativeTime_thresholds now timestamp :
  Utils.formatRelativeTime now timestamp =
  let diff := (now - timestamp)%Z in
  if (diff <? 60000)%Z then "Just now"%string
  else if (diff <? 3600000)%Z then Utils.ago (diff / 60000) "minute"
  else if (diff <? 86400000)%Z then Utils.ago (diff / 3600000) "hour"
  else Utils.ago (diff / 86400000) "day".
Proof.
  unfold Utils.formatRelativeTime. cbv zeta.
  generalize (now - timestamp)%Z. intros diff.
  assert (Hm : (diff / 1000 / 60 = diff / 60000)%Z)
    by (rewrite Z.div_div by lia; reflexivity).
  assert (Hh : (diff / 1000 / 60 / 60 = diff / 3600000)%Z)
    by (rewrite !Z.div_div by lia; reflexivity).
  assert (Hd : (diff / 1000 / 60 / 60 / 24 = diff / 86400000)%Z)
    by (rewrite !Z.div_div by lia; reflexivity).
  rewrite Hd, Hh, Hm.
  destruct (Z.ltb_spec diff 60000), (Z.ltb_spec diff 3600000),
    (Z.ltb_spec diff 86400000),
    (Z.ltb_spec 0 (diff / 86400000)), (Z.ltb_spec 0 (diff / 3600000)),
    (Z.ltb_spec 0 (diff / 60000));
    try reflexivity; exfalso;
    pose proof (Z.div_mod diff 86400000);
    pose proof (Z.mod_pos_bound diff 86400000);
    pose proof (Z.div_mod diff 3600000);
    pose proof (Z.mod_pos_bound diff 3600000);
    pose proof (Z.div_mod diff 60000);
    pose proof (Z.mod_pos_bound diff 60000);
    lia.
Qed.

Section RetryFacts.

Context {A E : Type}.
Variable fn : Z -> E + A.
Variable maxRetries baseDelay : Z.

Lemma retryLoop_first_success a :
  forall (k iterations : nat) (i : Z) lastError,
    (k < iterations)%nat ->
    (i + Z.of_nat k <= maxRetries)%Z ->
    (forall j, (j < k)%nat -> exists e, fn (i + Z.of_nat j) = inl e) ->
    fn (i + Z.of_nat k) = inr a ->
    Utils.retryLoop fn maxRetries baseDelay iterations i lastError
    = (inr a, map (fun j => (baseDelay * 2 ^ (i + Z.of_nat j))%Z) (seq 0 k)).
Proof.
  induction k as [|k IH]; intros iterations i lastError Hit Hmax Hfail Hok;
    (destruct iterations as [|iterations]; [lia|]); simpl.
  - rewrite Z.add_0_r in Hok. now rewrite Hok.
  - destruct (Hfail 0%nat ltac:(lia)) as [e He]. rewrite Z.add_0_r in He. rewrite He.
    replace (i =? maxRetries)%Z with false by (symmetry; apply Z.eqb_neq; lia).
    rewrite (IH iterations (i + 1)%Z (Some e)); try lia.
    + rewrite Z.add_0_r. f_equal. f_equal.
      rewrite <- seq_shift, map_map. apply map_ext. intros j. f_equal. f_equal. lia.
    + intros j Hj. destruct (Hfail (S j) ltac:(lia)) as [x Hx]. exists x.
      rewrite <- Hx. f_equal. lia.
    + rewrite <- Hok. f_equal. lia.
Qed.

Lemma retryLoop_exhausted (err : Z -> E) :
  forall (k iterations : nat) (i : Z) lastError,
    (k < iterations)%nat ->
    (i + Z.of_nat k = maxRetries)%Z ->
    (forall j, (j <= k)%nat -> fn (i + Z.of_nat j) = inl (err (i + Z.of_nat j)%Z)) ->
    Utils.retryLoop fn maxRetries baseDelay iterations i lastError
    = (inl (Some (err maxRetries)),
       map (fun j => (baseDelay * 2 ^ (i + Z.of_nat j))%Z) (seq 0 k)).
Proof.
  induction k as [|k IH]; intros iterations i lastError Hit Hmax Hfail;
    (destruct iterations as [|iterations]; [lia|]); simpl;
    pose proof (Hfail 0%nat ltac:(lia)) as He; rewrite Z.add_0_r in He; rewrite He.
  - replace (i =? maxRetries)%Z with true by (symmetry; apply Z.eqb_eq; lia).
    replace maxRetries with i by lia. reflexivity.
  - replace (i =? maxRetries)%Z with false by (symmetry; apply Z.eqb_neq; lia).
    rewrite (IH iterations (i + 1)%Z (Some (err i))); try lia.
    + rewrite Z.add_0_r. f_equal. f_equal.
      rewrite <- seq_shift, map_map. apply map_ext. intros j. f_equal. f_equal. lia.
    + intros j Hj. replace (i + 1 + Z.of_nat j)%Z with (i + Z.of_nat (S j))%Z by lia.
      apply Hfail. lia.
Qed.

Lemma delays_sum k :
  fold_right Z.add 0%Z (map (fun j => (baseDelay * 2 ^ Z.of_nat j)%Z) (seq 0 k))
  = (baseDelay * (2 ^ Z.of_nat k - 1))%Z.
Proof.
  assert (Hs : forall (l : list Z) z,
             fold_right Z.add z l = (fold_right Z.add 0 l + z)%Z).
  { induction l as [|x l IHl]; intros z; simpl; [lia|]. rewrite IHl. lia. }
  induction k as [|k IH]; [simpl; lia|].
  rewrite seq_S, map_app, fold_right_app. cbn [map fold_right Nat.add].
  rewrite Hs, IH. rewrite Nat2Z.inj_succ, Z.pow_succ_r by lia. lia.
Qed.

End RetryFacts.

(** X20: when the first [k] calls throw and the next one returns, with
    [k] no more than maxRetries, retry returns that value after exactly
    [k] waits of baseDelay, twice baseDelay, four times baseDelay and so
    on: baseDelay times (2^k - 1) milliseconds in all. *)
Theorem retry_returns_first_success
  {A E : Type} (fn : Z -> E + A) maxRetries baseDelay (k : nat) a :
  (Z.of_nat k <= maxRetries)%Z ->
  (forall j, (j < k)%nat -> exists e, fn (Z.of_nat j) = inl e) ->
  fn (Z.of_nat k) = inr a ->
  Utils.retry fn maxRetries baseDelay
  = (inr a, map (fun j => (baseDelay * 2 ^ Z.of_nat j)%Z) (seq 0 k))
  /\ fold_right Z.add 0%Z (snd (Utils.retry fn maxRetries baseDelay))
     = (baseDelay * (2 ^ Z.of_nat k - 1))%Z.
Proof.
  intros Hk Hfail Hok.
  assert (H : Utils.retry fn maxRetries baseDelay
              = (inr a, map (fun j => (baseDelay * 2 ^ Z.of_nat j)%Z) (seq 0 k))).
  { unfold Utils.retry.
    rewrite (retryLoop_first_success fn maxRetries baseDelay a k); auto; lia. }
  split; [exact H|]. rewrite H. simpl. apply delays_sum.
Qed.

Lemma retry_returns_first_success_witness :
  (Z.of_nat 2 <= 3)%Z
  /\ Utils.retry busyTwice 3 1000 = (inr 7%Z, [1000; 2000]%Z)
  /\ fold_right Z.add 0%Z (snd (Utils.retry busyTwice 3 1000)) = 3000%Z.
Proof.
  assert (Hk : (Z.of_nat 2 <= 3)%Z) by (simpl; lia).
  split; [exact Hk|].
  apply (retry_returns_first_success busyTwice 3 1000 2 7%Z Hk).
  - intros j Hj. exists "busy"%string.
    destruct j as [|[|j]]; [reflexivity|reflexivity|lia].
  - reflexivity.
Defined.

(** X21: when every call throws, retry makes maxRetries + 1 calls, waits
    after each but the last, and throws what the last call threw; with a
    negative maxRetries it makes no call at all and throws the unset
    lastError. *)
Theorem retry_throws_last_error
  {A E : Type} (fn : Z -> E + A) maxRetries baseDelay (err : Z -> E) :
  ((0 <= maxRetries)%Z ->
   (forall i, (0 <= i <= maxRetries)%Z -> fn i = inl (err i)) ->
   Utils.retry fn maxRetries baseDelay
   = (inl (Some (err maxRetries)),
      map (fun j => (baseDelay * 2 ^ Z.of_nat j)%Z) (seq 0 (Z.to_nat maxRetries))))
  /\ ((maxRetries < 0)%Z -> Utils.retry fn maxRetries baseDelay = (inl None, [])).
Proof.
  split.
  - intros Hm Hfail. unfold Utils.retry.
    rewrite (retryLoop_exhausted fn maxRetries baseDelay err (Z.to_nat maxRetries));
      try lia.
    + reflexivity.
    + intros j Hj. simpl. apply Hfail. lia.
  - intros Hm. unfold Utils.retry.
    replace (Z.to_nat (maxRetries + 1)) with 0%nat by lia. reflexivity.
Qed.

Lemma retry_throws_last_error_witness :
  Utils.retry alwaysThrows 2 1000 = (inl (Some 102%Z), [1000; 2000]%Z)
  /\ Utils.retry alwaysThrows (-1) 1000 = (inl None, []).
Proof.
  destruct (retry_throws_last_error alwaysThrows 2 1000 (fun i => (100 + i)%Z))
    as [H _].
  destruct (retry_throws_last_error alwaysThrows (-1) 1000 (fun i => (100 + i)%Z))
    as [_ H'].
  split; [apply H; [lia|reflexivity]|apply H'; lia].
Defined.

(* ===================================================================== *)
(** ** Utils: file names *)
(* ===================================================================== *)

Lemma contains_substring c s :
  forall m, contains c (String.substring 0 m s) = true -> contains c s = true.
Proof.
  induction s as [|x s IH]; intros m H.
  - now destruct m.
  - destruct m as [|m]; [discriminate|]. simpl in *.
    apply orb_prop in H as [H|H]; [now rewrite H|].
    rewrite (IH m H). apply orb_true_r.
Qed.

Lemma contains_replaceEach class by_ c s :
  contains c (Utils.replaceEach class by_ s) = true ->
  c = by_ \/ (class c = false /\ contains c s = true).
Proof.
  induction s as [|x s IH]; simpl; [discriminate|]. intros H.
  apply orb_prop in H as [H|H].
  - apply Ascii.eqb_eq in H. destruct (class x) eqn:E; [now left|].
    right. subst c. split; [exact E|]. now rewrite Ascii.eqb_refl.
  - destruct (IH H) as [->|[Hc Hs]]; [now left|]. right. split; [exact Hc|].
    rewrite Hs. apply orb_true_r.
Qed.

Lemma contains_replaceRuns class by_ c s :
  forall inRun,
    contains c (Utils.replaceRuns class by_ inRun s) = true ->
    c = by_ \/ (class c = false /\ contains c s = true).
Proof.
  induction s as [|x s IH]; intros inRun; simpl; [discriminate|].
  assert (Hrec : forall b, contains c (Utils.replaceRuns class by_ b s) = true ->
                           c = by_ \/ class c = false /\ (x =? c)%char || contains c s = true).
  { intros b H. destruct (IH b H) as [->|[Hc Hs]]; [now left|].
    right. split; [exact Hc|]. rewrite Hs. apply orb_true_r. }
  destruct (class x) eqn:E.
  - destruct inRun; [apply Hrec|]. simpl. intros H.
    apply orb_prop in H as [H|H]; [|now apply (Hrec true)].
    apply Ascii.eqb_eq in H. now left.
  - simpl. intros H. apply orb_prop in H as [H|H]; [|now apply (Hrec false)].
    apply Ascii.eqb_eq in H. subst c. right. split; [exact E|].
    now rewrite Ascii.eqb_refl.
Qed.

Lemma length_substring s : forall m, String.length (String.substring 0 m s) <= m.
Proof.
  induction s as [|x s IH]; intros [|m]; simpl; try lia.
  specialize (IH m). lia.
Qed.

Lemma substring_short s :
  forall m, String.length s <= m -> String.substring 0 m s = s.
Proof.
  induction s as [|x s IH]; intros [|m] H; simpl in *; try reflexivity; try lia.
  f_equal. apply IH. lia.
Qed.

Lemma replaceEach_clean class by_ s :
  (forall c, contains c s = true -> class c = false) ->
  Utils.replaceEach class by_ s = s.
Proof.
  induction s as [|x s IH]; intros H; simpl; [reflexivity|].
  rewrite (H x) by (simpl; now rewrite Ascii.eqb_refl).
  f_equal. apply IH. intros c Hc. apply H. simpl. rewrite Hc. apply orb_true_r.
Qed.

Lemma replaceRuns_clean class by_ s :
  (forall c, contains c s = true -> class c = false) ->
  Utils.replaceRuns class by_ false s = s.
Proof.
  induction s as [|x s IH]; intros H; simpl; [reflexivity|].
  rewrite (H x) by (simpl; now rewrite Ascii.eqb_refl).
  f_equal. apply IH. intros c Hc. apply H. simpl. rewrite Hc. apply orb_true_r.
Qed.

Lemma sanitizeFilename_chars filename c :
  contains c (Utils.sanitizeFilename filename) = true ->
  Utils.isReserved c = false /\ Utils.isWhiteSpace c = false.
Proof.
  unfold Utils.sanitizeFilename. intros H. apply contains_substring in H.
  apply contains_replaceRuns in H as [->|[Hw H]]; [split; reflexivity|].
  split; [|exact Hw].
  apply contains_replaceEach in H as [->|[Hr _]]; [reflexivity|exact Hr].
Qed.

(** X22: the name sanitizeFilename returns has at most 255 characters
    and holds none of the reserved characters and no white space. *)
Theorem sanitizeFilename_safe filename :
  String.length (Utils.sanitizeFilename filename) <= 255
  /\ forall c, contains c (Utils.sanitizeFilename filename) = true ->
               Utils.isReserved c = false /\ Utils.isWhiteSpace c = false.
Proof.
  split; [apply length_substring|]. intros c. apply sanitizeFilename_chars.
Qed.

(** X23: sanitizeFilename returns a name as it is exactly when the name
    has at most 255 characters, none of them reserved or white space; so
    sanitising twice is the same as sanitising once. *)
Theorem sanitizeFilename_fixed_points filename :
  (Utils.sanitizeFilename filename = filename <->
   String.length filename <= 255
   /\ forall c, contains c filename = true ->
                Utils.isReserved c = false /\ Utils.isWhiteSpace c = false)
  /\ Utils.sanitizeFilename (Utils.sanitizeFilename filename)
     = Utils.sanitizeFilename filename.
Proof.
  assert (Hfix : forall s,
             String.length s <= 255 ->
             (forall c, contains c s = true ->
                        Utils.isReserved c = false /\ Utils.isWhiteSpace c = false) ->
             Utils.sanitizeFilename s = s).
  { intros s Hl Hc. unfold Utils.sanitizeFilename.
    rewrite replaceEach_clean by (intros c H; now apply Hc).
    rewrite replaceRuns_clean by (intros c H; now apply Hc).
    now apply substring_short. }
  split; [split|].
  - intros H. rewrite <- H. split; [apply length_substring|].
    intros c. apply sanitizeFilename_chars.
  - intros [Hl Hc]. now apply Hfix.
  - apply Hfix; [apply length_substring|]. intros c. apply sanitizeFilename_chars.
Qed.

(* ===================================================================== *)
(** ** Utils: directories *)
(* ===================================================================== *)

Lemma mkdirp_needs_dirs p :
  forall es es',
    mkdirp p es = inr es' ->
    forall r n, isPrefix r p -> lookup r es = Some n -> exists s, n = Dir s.
Proof.
  induction p as [|name p IH]; intros es es' H r n Hr Hn.
  - destruct Hr as [c Hc]. destruct r; [|discriminate].
    rewrite lookup_nil in Hn. injection Hn as <-. eauto.
  - destruct r as [|x r]; [rewrite lookup_nil in Hn; injection Hn as <-; eauto|].
    assert (x = name) by (destruct Hr as [c Hc]; now injection Hc).
    subst x. apply isPrefix_cons in Hr. rewrite lookup_cons in Hn.
    apply mkdirp_inv in H as (sub & sub' & Hf & Hsub & _).
    destruct Hf as [Hf|[Hf _]]; rewrite Hf in Hn; [|discriminate].
    exact (IH sub sub' Hsub r n Hr Hn).
Qed.

Lemma dirsOrAbsent_intro p disk :
  (forall r n, isPrefix r p -> lookup r disk = Some n -> exists s, n = Dir s) ->
  dirsOrAbsent p disk = true.
Proof.
  intros H. unfold dirsOrAbsent. apply forallb_forall. intros k _.
  unfold kindAt. destruct (lookup (firstn k p) disk) as [n|] eqn:E; [|reflexivity].
  destruct (H (firstn k p) n) as [s ->]; [|exact E|reflexivity].
  exists (skipn k p). symmetry. apply firstn_skipn.
Qed.

(** X24: ensureDirectory goes through exactly when everything from the
    root down to the path is a directory or absent; it then changes no
    file, and directoryExists and fileExists both answer true for the
    path afterwards.  Otherwise it throws and leaves the disk as it
    was. *)
Theorem ensureDirectory_then_exists dirPath disk :
  (dirsOrAbsent dirPath disk = true ->
   exists disk',
     Utils.ensureDirectory dirPath disk = (inr tt, disk')
     /\ Utils.directoryExists dirPath disk' = (inr true, disk')
     /\ Utils.fileExists dirPath disk' = (inr true, disk')
     /\ forall r, fileAt r disk' = fileAt r disk)
  /\ (dirsOrAbsent dirPath disk = false ->
      exists e, Utils.ensureDirectory dirPath disk = (inl e, disk)).
Proof.
  unfold Utils.ensureDirectory, tryCatch, fs_mkdir_recursive, change, throw. split.
  - intros Hd.
    destruct (mkdirp_succeeds dirPath disk (dirsOrAbsent_spec _ _ Hd)) as [disk' Hm].
    rewrite Hm. exists disk'. split; [reflexivity|].
    assert (Hp : isPrefix dirPath dirPath) by (exists []; now rewrite app_nil_r).
    destruct (mkdirp_lookup_above _ _ _ dirPath Hm Hp) as [sub Hs].
    unfold Utils.directoryExists, Utils.fileExists, tryCatch, bind, fs_stat_isDirectory,
      fs_access, inspect.
    rewrite Hs. repeat split. intros r. exact (mkdirp_fileAt _ _ _ r Hm).
  - intros Hd. destruct (mkdirp dirPath disk) as [e|disk'] eqn:Hm; [eauto|].
    rewrite (dirsOrAbsent_intro _ _ (mkdirp_needs_dirs _ _ _ Hm)) in Hd. discriminate.
Qed.

Lemma ensureDirectory_then_exists_witness :
  dirsOrAbsent ["ws"; "out"; "reports"]%string sampleDisk = true
  /\ dirsOrAbsent ["ws"; "a.txt"; "reports"]%string sampleDisk = false
  /\ (exists disk',
        Utils.ensureDirectory ["ws"; "out"; "reports"]%string sampleDisk = (inr tt, disk')
        /\ Utils.directoryExists ["ws"; "out"; "reports"]%string disk' = (inr true, disk')
        /\ Utils.fileExists ["ws"; "out"; "reports"]%string disk' = (inr true, disk')
        /\ forall r, fileAt r disk' = fileAt r sampleDisk)
  /\ exists e,
       Utils.ensureDirectory ["ws"; "a.txt"; "reports"]%string sampleDisk
       = (inl e, sampleDisk).
Proof.
  split; [reflexivity|]. split; [reflexivity|]. split.
  - apply (ensureDirectory_then_exists ["ws"; "out"; "reports"]%string sampleDisk).
    reflexivity.
  - apply (ensureDirectory_then_exists ["ws"; "a.txt"; "reports"]%string sampleDisk).
    reflexivity.
Defined.

(* ===================================================================== *)
(** ** Utils: addresses *)
(* ===================================================================== *)

Lemma matchItems_many class rest s :
  Utils.matchItems (Utils.Many class :: rest) s = true <->
  exists a t,
    a <> ""%string /\ s = (a ++ t)%string
    /\ allChars class a = true /\ Utils.matchItems rest t = true.
Proof.
  induction s as [|c s IH].
  - split; [discriminate|]. intros (a & t & Ha & E & _). destruct a; [congruence|].
    discriminate.
  - change (Utils.matchItems (Utils.Many class :: rest) (String c s))
      with (class c && (Utils.matchItems rest s
                        || Utils.matchItems (Utils.Many class :: rest) s)).
    split.
    + intros H. apply andb_prop in H as [Hc H]. apply orb_prop in H as [H|H].
      * exists (String c ""), s. simpl. rewrite Hc. repeat split; auto. discriminate.
      * apply IH in H as (a & t & Ha & -> & Hk & Ht).
        exists (String c a), t. simpl. rewrite Hc, Hk. repeat split; auto. discriminate.
    + intros (a & t & Ha & E & Hk & Ht). destruct a as [|x a]; [congruence|].
      simpl in E. injection E as <- ->. simpl in Hk. apply andb_prop in Hk as [Hc Hk].
      rewrite Hc. simpl. destruct a as [|y a].
      * simpl. now rewrite Ht.
      * apply orb_true_intro. right. apply IH.
        exists (String y a), t. repeat split; auto. discriminate.
Qed.

Lemma matchItems_once class rest s :
  Utils.matchItems (Utils.Once class :: rest) s = true <->
  exists c t, s = String c t /\ class c = true /\ Utils.matchItems rest t = true.
Proof.
  destruct s as [|c s]; simpl.
  - split; [discriminate|]. intros (c & t & E & _). discriminate.
  - rewrite andb_true_iff. split.
    + intros [Hc H]. eauto.
    + intros (x & t & E & Hc & H). now injection E as <- <-.
Qed.

Lemma matchItems_end s : Utils.matchItems [] s = true <-> s = ""%string.
Proof. destruct s; simpl; split; congruence. Qed.

Lemma append_empty_r (s : string) : (s ++ "")%string = s.
Proof. induction s as [|x s IH]; simpl; congruence. Qed.

Lemma occurrences_app c a b :
  occurrences c (a ++ b) = occurrences c a + occurrences c b.
Proof. induction a as [|x a IH]; simpl; [reflexivity|]. rewrite IH. lia. Qed.

Lemma allChars_app f a b : allChars f (a ++ b) = allChars f a && allChars f b.
Proof.
  induction a as [|x a IH]; simpl; [reflexivity|]. now rewrite IH, andb_assoc.
Qed.

Lemma notSpaceOrAt_no_at s :
  allChars Utils.notSpaceOrAt s = true -> occurrences "@" s = 0.
Proof.
  induction s as [|x s IH]; simpl; [reflexivity|]. intros H.
  apply andb_prop in H as [Hx Hs]. rewrite (IH Hs).
  unfold Utils.notSpaceOrAt in Hx. apply andb_prop in Hx as [_ Hx].
  apply negb_true_iff in Hx. now rewrite Hx.
Qed.

Lemma notSpaceOrAt_no_space s :
  allChars Utils.notSpaceOrAt s = true ->
  allChars (fun c => negb (Utils.isWhiteSpace c)) s = true.
Proof.
  induction s as [|x s IH]; simpl; [reflexivity|]. intros H.
  apply andb_prop in H as [Hx Hs]. rewrite (IH Hs).
  unfold Utils.notSpaceOrAt in Hx. apply andb_prop in Hx as [Hx _]. now rewrite Hx.
Qed.

(** X25: isValidEmail accepts exactly the strings made of a local part,
    [@], a domain, a dot and an ending, all three non-empty and free of
    white space and of [@]; so an accepted address has exactly one [@]
    and no white space anywhere. *)
Theorem isValidEmail_iff email :
  (Utils.isValidEmail email = true <->
   exists localPart domain ending,
     email = (localPart ++ "@" ++ domain ++ "." ++ ending)%string
     /\ localPart <> ""%string /\ domain <> ""%string /\ ending <> ""%string
     /\ allChars Utils.notSpaceOrAt localPart = true
     /\ allChars Utils.notSpaceOrAt domain = true
     /\ allChars Utils.notSpaceOrAt ending = true)
  /\ (Utils.isValidEmail email = true ->
      occurrences "@" email = 1
      /\ allChars (fun c => negb (Utils.isWhiteSpace c)) email = true).
Proof.
  assert (Hiff : Utils.isValidEmail email = true <->
            exists localPart domain ending,
              email = (localPart ++ "@" ++ domain ++ "." ++ ending)%string
              /\ localPart <> ""%string /\ domain <> ""%string /\ ending <> ""%string
              /\ allChars Utils.notSpaceOrAt localPart = true
              /\ allChars Utils.notSpaceOrAt domain = true
              /\ allChars Utils.notSpaceOrAt ending = true).
  { unfold Utils.isValidEmail, Utils.emailRegex. rewrite matchItems_many. split.
    - intros (a & t & Ha & -> & Hka & H).
      apply matchItems_once in H as (x & t1 & -> & Hx & H).
      apply Ascii.eqb_eq in Hx. subst x.
      apply matchItems_many in H as (b & t2 & Hb & -> & Hkb & H).
      apply matchItems_once in H as (y & t3 & -> & Hy & H).
      apply Ascii.eqb_eq in Hy. subst y.
      apply matchItems_many in H as (c & t4 & Hc & -> & Hkc & H).
      apply matchItems_end in H. subst t4.
      exists a, b, c. rewrite append_empty_r. repeat split; auto.
    - intros (a & b & c & -> & Ha & Hb & Hc & Hka & Hkb & Hkc).
      exists a, ("@" ++ b ++ "." ++ c)%string. repeat split; auto.
      apply matchItems_once. exists "@"%char, (b ++ "." ++ c)%string.
      repeat split; auto. apply matchItems_many.
      exists b, ("." ++ c)%string. repeat split; auto.
      apply matchItems_once. exists "."%char, c. repeat split; auto.
      apply matchItems_many. exists c, ""%string. repeat split; auto.
      now rewrite append_empty_r. }
  split; [exact Hiff|].
  intros H. apply Hiff in H as (a & b & c & -> & _ & _ & _ & Hka & Hkb & Hkc).
  split.
  - rewrite !occurrences_app, (notSpaceOrAt_no_at a Hka), (notSpaceOrAt_no_at b Hkb),
      (notSpaceOrAt_no_at c Hkc). reflexivity.
  - rewrite !allChars_app, (notSpaceOrAt_no_space a Hka), (notSpaceOrAt_no_space b Hkb),
      (notSpaceOrAt_no_space c Hkc). reflexivity.
Qed.

Lemma isValidEmail_iff_witness :
  Utils.isValidEmail "dev@example.org" = true
  /\ occurrences "@" "dev@example.org" = 1
  /\ Utils.isValidEmail "dev@localhost" = false
  /\ Utils.isValidEmail "a b@example.org" = false.
Proof.
  assert (H : Utils.isValidEmail "dev@example.org" = true) by reflexivity.
  split; [exact H|]. split; [|split; reflexivity].
  exact (proj1 (proj2 (isValidEmail_iff "dev@example.org") H)).
Defined.

(* ===================================================================== *)
(** ** Licence keys *)
(* ===================================================================== *)

Lemma splitOn_app_sep sep a b :
  contains sep a = false ->
  splitOn sep (a ++ String sep b) = a :: splitOn sep b.
Proof.
  induction a as [|x a IH]; simpl; intros H.
  - now rewrite Ascii.eqb_refl.
  - apply orb_false_elim in H as [Hx Ha]. rewrite Hx, (IH Ha). reflexivity.
Qed.

Lemma allChars_contains f s c :
  allChars f s = true -> f c = false -> contains c s = false.
Proof.
  intros Hs Hc. induction s as [|x s IH]; [reflexivity|]. simpl in *.
  apply andb_prop in Hs as [Hx Hs]. rewrite (IH Hs), orb_false_r.
  destruct (Ascii.eqb_spec x c) as [->|]; [congruence|reflexivity].
Qed.

Lemma validateKeyFormat_starts_with_S key :
  LicenseKeyManager.validateKeyFormat key = true -> exists rest, key = String "S" rest.
Proof.
  destruct key as [|c rest]; [discriminate|].
  unfold LicenseKeyManager.validateKeyFormat.
  change (LicenseKeyManager.matchesAll LicenseKeyManager.keyPattern (String c rest))
    with (Ascii.eqb "S" c
          && LicenseKeyManager.matchesAll (tl LicenseKeyManager.keyPattern) rest).
  intros H. apply andb_prop in H as [H _]. apply Ascii.eqb_eq in H. subst c. eauto.
Qed.

(** X26: the value enterProKey stores for a key, the salt drawn for it
    followed by a digest, never passes isProEnabled, whatever the key
    and the salt: the check reads the salt as if it were the key, and
    32 hexadecimal digits are not of the key format. *)
Theorem stored_license_never_enables_pro sha256hex salt key :
  LicenseKeyManager.isSalt salt = true ->
  LicenseKeyManager.isProEnabled
    (LicenseKeyManager.encrypted (LicenseKeyManager.validateKey sha256hex salt key))
  = false.
Proof.
  unfold LicenseKeyManager.isSalt. intros Hs. apply andb_prop in Hs as [Hl Hh].
  unfold LicenseKeyManager.validateKey. cbn [LicenseKeyManager.encrypted].
  destruct (LicenseKeyManager.validateKeyFormat key); [|reflexivity].
  unfold LicenseKeyManager.encryptKey, LicenseKeyManager.isProEnabled.
  assert (Hc : contains ":" salt = false)
    by (apply (allChars_contains _ _ _ Hh); reflexivity).
  change (salt ++ ":" ++ sha256hex (key ++ salt))%string
    with (salt ++ String ":" (sha256hex (key ++ salt)))%string.
  destruct (String.eqb _ ""); [reflexivity|].
  destruct (LicenseKeyManager.decryptKey _); [|reflexivity].
  rewrite (splitOn_app_sep ":" salt _ Hc). cbn [hd].
  destruct (LicenseKeyManager.validateKeyFormat salt) eqn:E; [|reflexivity].
  apply validateKeyFormat_starts_with_S in E as [rest ->].
  simpl in Hh. discriminate.
Qed.

Lemma stored_license_never_enables_pro_witness :
  LicenseKeyManager.isSalt "00112233445566778899aabbccddeeff" = true
  /\ LicenseKeyManager.validateKeyFormat "SNAP-AB12-CD34-EF56-GH78" = true
  /\ LicenseKeyManager.isProEnabled
       (LicenseKeyManager.encrypted
          (LicenseKeyManager.validateKey (fun text => "digest")
             "00112233445566778899aabbccddeeff" "SNAP-AB12-CD34-EF56-GH78"))
     = false.
Proof.
  split; [reflexivity|]. split; [reflexivity|].
  apply (stored_license_never_enables_pro (fun text => "digest"%string)
           "00112233445566778899aabbccddeeff" "SNAP-AB12-CD34-EF56-GH78").
  reflexivity.
Defined.

Lemma charAt_chars n :
  n < 36 ->
  exists c,
    LicenseKeyManager.charAt n LicenseKeyManager.chars = String c ""
    /\ LicenseKeyManager.isUpperOrDigit c = true.
Proof.
  intros H.
  do 36 (destruct n as [|n]; [eexists; split; reflexivity|]).
  lia.
Qed.

(** X27: every key generateDemoKey builds, whatever is drawn for its
    sixteen characters, passes validateKeyFormat. *)
Theorem generateDemoKey_is_well_formed (draw : nat -> nat -> nat) :
  (forall i j, draw i j < 36) ->
  LicenseKeyManager.validateKeyFormat (LicenseKeyManager.generateDemoKey draw) = true.
Proof.
  intros H. unfold LicenseKeyManager.generateDemoKey. cbn [fold_left seq Nat.ltb Nat.leb].
  repeat match goal with
         | |- context [LicenseKeyManager.charAt (draw ?i ?j) LicenseKeyManager.chars] =>
             let c := fresh "c" in
             let Hc := fresh "Hc" in
             destruct (charAt_chars (draw i j) (H i j)) as (c & -> & Hc)
         end.
  unfold LicenseKeyManager.validateKeyFormat. simpl.
  repeat match goal with
         | Hc : LicenseKeyManager.isUpperOrDigit _ = true |- _ => rewrite Hc; clear Hc
         end.
  reflexivity.
Qed.

Lemma generateDemoKey_is_well_formed_witness :
  (forall i j, sampleDraw i j < 36)
  /\ LicenseKeyManager.generateDemoKey sampleDraw = "SNAP-ABCD-HIJK-OPQR-VWXY"%string
  /\ LicenseKeyManager.validateKeyFormat (LicenseKeyManager.generateDemoKey sampleDraw)
     = true.
Proof.
  assert (H : forall i j, sampleDraw i j < 36)
    by (intros i j; unfold sampleDraw; apply Nat.mod_upper_bound; lia).
  split; [exact H|]. split; [reflexivity|].
  exact (generateDemoKey_is_well_formed sampleDraw H).
Defined.

(* ===================================================================== *)
(** ** The options the extension passes *)
(* ===================================================================== *)

Lemma anyMatches_twice test fp l :
  anyMatches test fp (l ++ l) = anyMatches test fp l.
Proof.
  rewrite anyMatches_app.
  destruct (anyMatches test fp l) as [e|[|]] eqn:E; simpl; auto.
Qed.

Section SameFilter.

Variable test : string -> string -> result bool.
Variables options1 options2 : SnapshotOptions.

Hypothesis same :
  forall fp, shouldIncludeFile test fp options1 = shouldIncludeFile test fp options2.

Lemma addEntry_same_filter n :
  forall rel name st,
    addEntry test options1 rel name n st = addEntry test options2 rel name n st.
Proof.
  induction n as [d| |es IH] using node_ind'; intros rel name st;
    rewrite !addEntry_unfold, same; try reflexivity.
  destruct (String.eqb name ".snapshots"); [reflexivity|].
  destruct (shouldIncludeFile test (joinRel rel name) options2) as [e|[|]];
    try reflexivity.
  simpl. generalize (joinRel rel name). clear rel name. revert st.
  induction IH as [|[name n] es Hn _ IHes]; intros st rel; [reflexivity|].
  rewrite !addDirectory_cons. simpl in Hn. rewrite Hn.
  destruct (addEntry test options2 rel name n st) as [e|st1]; [reflexivity|].
  simpl. apply IHes.
Qed.

Lemma addDirectory_same_filter es :
  forall rel st,
    addDirectory test options1 es rel st = addDirectory test options2 es rel st.
Proof.
  induction es as [|[name n] es IH]; intros rel st; [reflexivity|].
  rewrite !addDirectory_cons, addEntry_same_filter.
  destruct (addEntry test options2 rel name n st) as [e|st1]; [reflexivity|].
  simpl. apply IH.
Qed.

End SameFilter.

(** X28: as long as the user has not set [excludePatterns], the options
    createSnapshot builds from the configuration make saveSnapshot do
    exactly what it does with the same message and include patterns and
    no exclude patterns at all: the default list the extension passes
    repeats the one the storage applies anyway. *)
Theorem default_exclude_setting_is_redundant
  test byteLength sd now root settings message disk :
  Journal.setExcludePatterns settings = None ->
  saveSnapshot test byteLength sd now root
    (Journal.snapshotOptions (Journal.getConfig settings) message) disk
  = saveSnapshot test byteLength sd now root
      (mkOptions (optMessage (Journal.snapshotOptions (Journal.getConfig settings) message))
                 (includePatterns
                    (Journal.snapshotOptions (Journal.getConfig settings) message))
                 None) disk.
Proof.
  intros Hx.
  set (o1 := Journal.snapshotOptions (Journal.getConfig settings) message).
  set (o2 := mkOptions (optMessage o1) (includePatterns o1) None).
  assert (Hsame : forall fp, shouldIncludeFile test fp o1 = shouldIncludeFile test fp o2).
  { intros fp. unfold shouldIncludeFile.
    replace (excludePatterns o1) with (Some defaultExcludes)
      by (subst o1; unfold Journal.snapshotOptions, Journal.getConfig; simpl;
          now rewrite Hx).
    change (excludePatterns o2) with (@None (list string)).
    change (includePatterns o2) with (includePatterns o1).
    now rewrite anyMatches_twice, app_nil_r. }
  unfold saveSnapshot, addFilesToZip, fs_readdir, inspect, bind.
  destruct (ensureSnapshotsDir sd disk) as [[e|[]] disk0]; [reflexivity|].
  destruct (lookup root disk0) as [[c| |entries]|]; try reflexivity.
  rewrite (addDirectory_same_filter test o1 o2 Hsame).
  reflexivity.
Qed.

Lemma default_exclude_setting_is_redundant_witness :
  Journal.setExcludePatterns Journal.noSettings = None
  /\ saveSnapshot RegExp_test nominalLength sampleStorage 1000 ["ws"]%string
       (Journal.snapshotOptions (Journal.getConfig Journal.noSettings) "") sampleDisk
     = saveSnapshot RegExp_test nominalLength sampleStorage 1000 ["ws"]%string
         noOptions sampleDisk.
Proof.
  split; [reflexivity|].
  exact (default_exclude_setting_is_redundant RegExp_test nominalLength sampleStorage
           1000 ["ws"]%string Journal.noSettings "" sampleDisk eq_refl).
Defined.

(* ===================================================================== *)
(** ** autoClean *)
(* ===================================================================== *)

Lemma filter_filter {A} (f g : A -> bool) l :
  filter f (filter g l) = filter (fun x => g x && f x) l.
Proof.
  induction l as [|x l IH]; simpl; [reflexivity|].
  destruct (g x); simpl; [destruct (f x)|]; now rewrite IH.
Qed.

(** The loop of [autoClean] over the snapshots to delete. *)
Lemma deleteSnapshot_loop sd old :
  forall disk,
    storageReady sd disk = true ->
    exists disk',
      forEachIO (fun snapshot => deleteSnapshot sd (id snapshot)) old disk
      = (inr tt, disk')
      /\ storageReady sd disk' = true
      /\ listed sd disk'
         = filter (fun r => negb (existsb (fun o => String.eqb (id r) (id o)) old))
             (listed sd disk)
      /\ (forall p, p <> metadataPath sd -> fileAt p disk = None ->
                    fileAt p disk' = None)
      /\ (forall o, In o old -> fileAt (zipPathOf sd (id o)) disk' = None)
      /\ (forall p, p <> metadataPath sd ->
                    (forall o, In o old -> p <> zipPathOf sd (id o)) ->
                    fileAt p disk' = fileAt p disk).
Proof.
  induction old as [|o old IH]; intros disk Hr.
  - exists disk. simpl. repeat split; auto.
    + symmetry. apply filter_all. reflexivity.
    + intros o [].
  - destruct (deleteSnapshot_effect sd (id o) disk Hr)
      as (disk1 & E1 & Hr1 & Hl1 & Hz1 & Hp1).
    destruct (IH disk1 Hr1) as (disk' & E & Hr' & Hl & Hnone & Hold & Hother).
    exists disk'. simpl. unfold bind. rewrite E1.
    assert (Hnone1 : forall p, p <> metadataPath sd -> fileAt p disk = None ->
                               fileAt p disk1 = None).
    { intros p Hm Hn. destruct (path_eq_dec p (zipPathOf sd (id o))) as [->|Hne];
        [exact Hz1|]. now rewrite Hp1. }
    split; [exact E|]. split; [exact Hr'|]. split; [|split; [|split]].
    + rewrite Hl, Hl1, filter_filter. apply filter_ext. intros r.
      now rewrite negb_orb.
    + intros p Hm Hn. apply Hnone; auto.
    + intros x [<-|Hx]; [|now apply Hold].
      apply Hnone; [apply zipPathOf_not_metadata|exact Hz1].
    + intros p Hm Hp. rewrite Hother.
      * apply Hp1; [apply Hp; now left|exact Hm].
      * exact Hm.
      * intros x Hx. apply Hp. now right.
Qed.

Lemma saveTelemetry_effect telemetryFile document disk :
  exists disk',
    Journal.saveTelemetry telemetryFile document disk = (inr tt, disk')
    /\ forall p, p <> telemetryFile -> fileAt p disk' = fileAt p disk.
Proof.
  unfold Journal.saveTelemetry, tryCatch, bind, fs_mkdir_recursive, fs_writeFile, change,
    ret.
  destruct (mkdirp (removelast telemetryFile) disk) as [e|disk1] eqn:E1; [eauto|].
  destruct (putFile false telemetryFile document disk1) as [e|disk2] eqn:E2.
  - exists disk1. split; [reflexivity|]. intros p _. exact (mkdirp_fileAt _ _ _ p E1).
  - exists disk2. split; [reflexivity|]. intros p Hp.
    rewrite (putFile_fileAt_other _ _ _ _ _ _ E2 Hp). exact (mkdirp_fileAt _ _ _ p E1).
Qed.

Lemma string_length_app (a b : string) :
  String.length (a ++ b) = String.length a + String.length b.
Proof. induction a as [|x a IH]; simpl; [reflexivity|]. now rewrite IH. Qed.

Lemma append_cancel_r (a b c : string) : (a ++ c = b ++ c)%string -> a = b.
Proof.
  revert b. induction a as [|x a IH]; intros [|y b] H; simpl in *.
  - reflexivity.
  - apply (f_equal String.length) in H. simpl in H. rewrite string_length_app in H. lia.
  - apply (f_equal String.length) in H. simpl in H. rewrite string_length_app in H. lia.
  - injection H as -> H. f_equal. now apply IH.
Qed.

Lemma zipPathOf_snapshot_inj sd a b :
  zipPathOf sd (snapshotIdAt a) = zipPathOf sd (snapshotIdAt b) -> a = b.
Proof.
  rewrite !zipPathOf_snapshot. intros H. apply app_inv_head in H.
  injection H as H. apply append_cancel_r in H. now apply decimal_inj.
Qed.

(** X29: with a stored key that passes the licence check, on a storage
    that is ready and whose records carry the identifiers saveSnapshot
    gives, a confirmed autoClean leaves in the index exactly the records
    not older than the configured number of days, removes the container
    of every older record and leaves the containers of the others as
    they are. *)
Theorem autoClean_removes_old_snapshots
  sd telemetryFile document storedKey config now disk :
  LicenseKeyManager.isProEnabled storedKey = true ->
  storageReady sd disk = true ->
  (forall r, In r (listed sd disk) -> id r = snapshotIdAt (timestamp r)) ->
  telemetryFile <> metadataPath sd ->
  (forall r, In r (listed sd disk) -> telemetryFile <> zipPathOf sd (id r)) ->
  exists disk',
    Journal.autoClean sd telemetryFile document storedKey config now true disk
    = (inr tt, disk')
    /\ listed sd disk'
       = filter (fun r => (now - Journal.autoCleanDays config * 86400000
                           <=? timestamp r)%Z) (listed sd disk)
    /\ forall r, In r (listed sd disk) ->
         fileAt (zipPathOf sd (id r)) disk'
         = if (timestamp r <? now - Journal.autoCleanDays config * 86400000)%Z
           then None
           else fileAt (zipPathOf sd (id r)) disk.
Proof.
  intros Hpro Hr Hids Htm Htz.
  unfold Journal.autoClean. rewrite Hpro. cbn [negb].
  unfold tryCatch, bind at 1. rewrite listSnapshots_listed.
  replace (now - Journal.autoCleanDays config * 24 * 60 * 60 * 1000)%Z
    with (now - Journal.autoCleanDays config * 86400000)%Z by lia.
  set (cutoff := (now - Journal.autoCleanDays config * 86400000)%Z).
  set (old := filter (fun s => (timestamp s <? cutoff)%Z) (listed sd disk)).
  assert (Hold : forall o, In o old <-> In o (listed sd disk) /\ (timestamp o < cutoff)%Z).
  { intros o. unfold old. rewrite filter_In, Z.ltb_lt. reflexivity. }
  assert (Hkeep : forall r, In r (listed sd disk) ->
             negb (existsb (fun o => String.eqb (id r) (id o)) old)
             = (cutoff <=? timestamp r)%Z).
  { intros r Hin. destruct (Z.leb_spec cutoff (timestamp r)) as [Hle|Hlt].
    - apply negb_true_iff. apply not_true_is_false. intros Hex.
      apply existsb_exists in Hex as (o & Ho & Heq). apply String.eqb_eq in Heq.
      apply Hold in Ho as [Ho Hlt]. rewrite (Hids r Hin), (Hids o Ho) in Heq.
      apply snapshotIdAt_inj in Heq. lia.
    - apply negb_false_iff. apply existsb_exists. exists r. split.
      + apply Hold. auto.
      + apply String.eqb_refl. }
  assert (Hlisted : filter (fun r => negb (existsb (fun o => String.eqb (id r) (id o)) old))
                      (listed sd disk)
                    = filter (fun r => (cutoff <=? timestamp r)%Z) (listed sd disk))
    by (apply filter_ext_in; exact Hkeep).
  destruct old as [|o old'] eqn:Eold.
  - exists disk. split; [reflexivity|]. split.
    + rewrite <- Hlisted. symmetry. apply filter_all. reflexivity.
    + intros r Hin. destruct (Z.ltb_spec (timestamp r) cutoff) as [Hlt|Hge];
        [|reflexivity].
      destruct (proj2 (Hold r) (conj Hin Hlt)).
  - rewrite <- Eold in *. clear Eold o old'.
    destruct (deleteSnapshot_loop sd old disk Hr)
      as (disk1 & E1 & _ & Hl1 & _ & Hgone & Hother).
    destruct (saveTelemetry_effect telemetryFile document disk1) as (disk2 & E2 & Ht).
    exists disk2. unfold bind. rewrite E1, E2. split; [reflexivity|]. split.
    + rewrite !listed_fileAt. rewrite Ht by (intros Hc; now apply Htm).
      rewrite <- !listed_fileAt. now rewrite Hl1.
    + intros r Hin. rewrite Ht by (intros Hc; symmetry in Hc; now apply (Htz r Hin)).
      destruct (Z.ltb_spec (timestamp r) cutoff) as [Hlt|Hge].
      * apply Hgone. apply Hold. auto.
      * apply Hother; [apply zipPathOf_not_metadata|].
        intros o Ho Hc. apply Hold in Ho as [Ho Hlt].
        rewrite (Hids r Hin), (Hids o Ho) in Hc.
        apply zipPathOf_snapshot_inj in Hc. lia.
Qed.

Lemma autoClean_removes_old_snapshots_witness :
  LicenseKeyManager.isProEnabled sampleStoredKey = true
  /\ storageReady sampleStorage diskAfterSecondSave = true
  /\ listed sampleStorage diskAfterSecondSave = [sampleRecord 2000; sampleRecord 1000]
  /\ Journal.telemetryFileOf ["ws"]%string <> metadataPath sampleStorage
  /\ exists disk',
       Journal.autoClean sampleStorage (Journal.telemetryFileOf ["ws"]%string)
         (Bytes "{}") sampleStoredKey (Journal.getConfig Journal.noSettings)
         cleanupTime true diskAfterSecondSave
       = (inr tt, disk')
       /\ listed sampleStorage disk'
          = filter (fun r =>
                      (cleanupTime
                       - Journal.autoCleanDays (Journal.getConfig Journal.noSettings)
                         * 86400000
                       <=? timestamp r)%Z)
              (listed sampleStorage diskAfterSecondSave)
       /\ forall r, In r (listed sampleStorage diskAfterSecondSave) ->
            fileAt (zipPathOf sampleStorage (id r)) disk'
            = if (timestamp r
                  <? cleanupTime
                     - Journal.autoCleanDays (Journal.getConfig Journal.noSettings)
                       * 86400000)%Z
              then None
              else fileAt (zipPathOf sampleStorage (id r)) diskAfterSecondSave.
Proof.
  assert (Hl : listed sampleStorage diskAfterSecondSave
               = [sampleRecord 2000; sampleRecord 1000]) by reflexivity.
  assert (Ht : Journal.telemetryFileOf ["ws"]%string <> metadataPath sampleStorage)
    by (vm_compute; discriminate).
  split; [reflexivity|]. split; [reflexivity|]. split; [exact Hl|]. split; [exact Ht|].
  apply (autoClean_removes_old_snapshots sampleStorage
           (Journal.telemetryFileOf ["ws"]%string) (Bytes "{}") sampleStoredKey
           (Journal.getConfig Journal.noSettings) cleanupTime diskAfterSecondSave);
    try reflexivity; try exact Ht.
  - intros r Hin. rewrite Hl in Hin. destruct Hin as [<-|[<-|[]]]; reflexivity.
  - intros r Hin. rewrite Hl in Hin.
    destruct Hin as [<-|[<-|[]]]; vm_compute; discriminate.
Defined.

Example autoClean_sample :
  map id (listed sampleStorage
            (snd (Journal.autoClean sampleStorage (Journal.telemetryFileOf ["ws"]%string)
                    (Bytes "{}") sampleStoredKey (Journal.getConfig Journal.noSettings)
                    cleanupTime true diskAfterSecondSave)))
  = ["snapshot_2000"]%string.
Proof. reflexivity. Qed.
